(** * Chat2Excel front end: stream reassembly, event dispatch, markdown
      repair and chart resolution

    A shallow embedding of the client-side core of the repository
    (frontend/app.js and the report page script) together with the
    properties its specification states about it.

    Conventions of the embedding:
    - a JavaScript string is the list of its UTF-16 code units ([str]);
    - mutable objects ([streamState], the module-level [state]) become
      records threaded through the functions that assign to them;
    - built-ins of the host (JSON.parse, parseFloat, Date, localeCompare,
      marked, btoa) are fields of a runtime interface, so that every
      theorem holds for any behaviour of the host;
    - DOM writes are outside the model: only the data they are computed
      from is kept. *)

From Stdlib Require Import String Ascii.
From Stdlib Require Import List NArith ZArith QArith Qround Bool Lia.
From Stdlib Require Import Permutation Sorted Floats.
Import ListNotations.
Close Scope Q_scope.
Open Scope nat_scope.

Set Implicit Arguments.
Set Warnings "-register-all,-abstract-large-number".

(* ================================================================== *)
(** * Part I. Definitions                                               *)
(* ================================================================== *)

(** ** JavaScript strings *)

Module Js.

Definition str := list N.

(** Literal of the source, for ASCII text. *)
Definition lit (s : string) : str :=
  map N_of_ascii (list_ascii_of_string s).

Arguments lit s%_string.

Definition LF : N := 10%N.

Fixpoint str_eqb (a b : str) : bool :=
  match a, b with
  | [], [] => true
  | x :: a', y :: b' => N.eqb x y && str_eqb a' b'
  | _, _ => false
  end.

(** [!s] for a string: only the empty string is falsy. *)
Definition is_empty (s : str) : bool :=
  match s with [] => true | _ => false end.

(** ECMAScript WhiteSpace and LineTerminator code units: what [trim] strips
    and what [\s] matches. *)
Definition is_space (c : N) : bool :=
  (((9 <=? c) && (c <=? 13)) || (c =? 32) || (c =? 160) || (c =? 5760)
  || ((8192 <=? c) && (c <=? 8202)) || (c =? 8232) || (c =? 8233)
  || (c =? 8239) || (c =? 8287) || (c =? 12288) || (c =? 65279))%N.

Fixpoint trimStart (s : str) : str :=
  match s with
  | c :: s' => if is_space c then trimStart s' else s
  | [] => []
  end.

Definition trimEnd (s : str) : str := rev (trimStart (rev s)).

Definition trim (s : str) : str := trimEnd (trimStart s).

(** [s.startsWith(p)] *)
Fixpoint startsWith (p s : str) : bool :=
  match p, s with
  | [], _ => true
  | x :: p', y :: s' => N.eqb x y && startsWith p' s'
  | _ :: _, [] => false
  end.

(** [s.endsWith(p)] *)
Definition endsWith (p s : str) : bool := startsWith (rev p) (rev s).

(** [s.includes(p)] *)
Fixpoint includes (p s : str) : bool :=
  startsWith p s ||
  match s with
  | [] => false
  | _ :: s' => includes p s'
  end.

(** [s.slice(n)] for [0 <= n] *)
Definition slice_from (n : nat) (s : str) : str := skipn n s.

(** [s.slice(0, -1)] *)
Definition drop_last (s : str) : str := removelast s.

(** [s.split(sep)] for a non-empty separator: a left-to-right scan; at a
    position where [sep] starts, the segment read so far is emitted and the
    scan resumes behind the separator ([skip] counts the code units of the
    separator still to pass over). *)
Fixpoint split_scan (sep : str) (skip : nat) (acc : str) (s : str) : list str :=
  match s with
  | [] => [rev acc]
  | c :: s' =>
      match skip with
      | S k => split_scan sep k acc s'
      | O =>
          if startsWith sep s
          then rev acc :: split_scan sep (length sep - 1) [] s'
          else split_scan sep 0 (c :: acc) s'
      end
  end.

Definition split (sep : str) (s : str) : list str :=
  match sep with
  | [] => map (fun c => [c]) s
  | _ => split_scan sep 0 [] s
  end.

(** [a.join(sep)] *)
Fixpoint join (sep : str) (l : list str) : str :=
  match l with
  | [] => []
  | [x] => x
  | x :: l' => x ++ sep ++ join sep l'
  end.

(** [a.pop()] on the result of [split], which is never empty: the popped
    element and the array that remains. *)
Definition pop (l : list str) : list str * str := (removelast l, last l []).

(** Position of the first occurrence of [p] in [s], as the text before it
    and the text after it. *)
Fixpoint cut_at (p : str) (pre : str) (s : str) : option (str * str) :=
  if startsWith p s then Some (rev pre, skipn (length p) s)
  else match s with
       | [] => None
       | c :: s' => cut_at p (c :: pre) s'
       end.

(** Decimal digits of a natural number, as in a template literal. *)
Fixpoint digits_fuel (fuel : nat) (n : N) (acc : str) : str :=
  match fuel with
  | O => acc
  | S f =>
      let acc' := (48 + n mod 10)%N :: acc in
      if (n <? 10)%N then acc' else digits_fuel f (n / 10)%N acc'
  end.

Definition nat_to_str (n : nat) : str :=
  digits_fuel (S n) (N.of_nat n) [].

End Js.

(** ** Numbers and JSON values *)

Module Value.
Import Js.

(** A JavaScript number: NaN, an infinity, or a finite value.  Finite
    doubles are rationals; arithmetic on them is only ever observed through
    comparisons and signs. *)
Inductive num :=
| NaN
| Inf (negative : bool)
| Fin (q : Q).

(** [!x] is false for a number exactly when it is neither NaN nor zero. *)
Definition num_truthy (n : num) : bool :=
  match n with
  | NaN => false
  | Inf _ => true
  | Fin q => negb (Qeq_bool q 0)
  end.

Inductive json :=
| JNull
| JBool (b : bool)
| JNum (n : num)
| JStr (s : str)
| JArr (items : list json)
| JObj (fields : list (str * json)).

(** ToBoolean on a parsed JSON value. *)
Definition truthy (j : json) : bool :=
  match j with
  | JNull => false
  | JBool b => b
  | JNum n => num_truthy n
  | JStr s => negb (is_empty s)
  | JArr _ | JObj _ => true
  end.

(** [x || ''] where [x] is a string property that may be absent. *)
Definition str_or_empty (x : option str) : str :=
  match x with
  | Some s => s
  | None => []
  end.

(** [x || null] where [x] is a string property that may be absent. *)
Definition str_or_null (x : option str) : option str :=
  match x with
  | Some s => if is_empty s then None else Some s
  | None => None
  end.

(** [x || null] where [x] is any property that may be absent. *)
Definition json_or_null (x : option json) : json :=
  match x with
  | Some j => if truthy j then j else JNull
  | None => JNull
  end.

End Value.

(** ** Stream events, the draft and the session state (app.js) *)

Module Stream.
Import Js Value.

(** Payload of a [clarification] event; a property the server left out is
    [None]. *)
Record ClarificationEvent := {
  ev_rewritten_request : option str;
  ev_original_intent : option str;
  ev_original_request : option str;
  ev_messages_context : option json;
  ev_tool_call_id : option str
}.

(** The decoded frames, by their [type] discriminant.  A type the
    dispatcher has no case for is [EvOther]. *)
Inductive StreamEvent :=
| EvAgentEvent (payload : json)
| EvIntent (intent : str)
| EvClarification (c : ClarificationEvent)
| EvReportCreated (report_id : option str)
| EvStatus (message : str)
| EvOutline (data : json)
| EvSectionStart (title : str)
| EvHeartbeat (message : str)
| EvSectionComplete (section : json)
| EvComplete (report : option json)
| EvThinkingStart
| EvThinking (content : str)
| EvThinkingEnd
| EvContent (content : str)
| EvSql (sql : str)
| EvSqlExecuting
| EvData (data : json)
| EvAnalysisStart
| EvAnalysis (content : str)
| EvAnalysisEnd
| EvError (message : option str)
| EvDone
| EvOther (type : str).

(** [streamState] of [sendMessageStream]: the draft of one exchange. *)
Record StreamState := {
  thinking : str;
  content : str;
  sql : option str;
  data : json;
  analysis : str;
  isThinking : bool;
  isAnalyzing : bool
}.

Definition fresh_draft : StreamState :=
  {| thinking := []; content := []; sql := None; data := JNull;
     analysis := []; isThinking := false; isAnalyzing := false |}.

(** [state.pendingClarification] *)
Record ClarificationState := {
  rewritten_request : str;
  original_intent : str;
  original_request : str;
  messages_context : json;
  tool_call_id : option str
}.

Record Message := { role : str; text : str }.

(** The fields of the module-level [state] that the chat path touches. *)
Record AppState := {
  sessionId : option str;
  messages : list Message;
  pendingClarification : option ClarificationState;
  currentReportId : option str;
  currentReport : option json;
  isLoading : bool
}.

Definition set_pending (p : option ClarificationState) (a : AppState) : AppState :=
  {| sessionId := sessionId a; messages := messages a;
     pendingClarification := p; currentReportId := currentReportId a;
     currentReport := currentReport a; isLoading := isLoading a |}.

Definition set_reportId (r : option str) (a : AppState) : AppState :=
  {| sessionId := sessionId a; messages := messages a;
     pendingClarification := pendingClarification a; currentReportId := r;
     currentReport := currentReport a; isLoading := isLoading a |}.

Definition set_report (r : option json) (a : AppState) : AppState :=
  {| sessionId := sessionId a; messages := messages a;
     pendingClarification := pendingClarification a;
     currentReportId := currentReportId a;
     currentReport := r; isLoading := isLoading a |}.

Definition set_loading (b : bool) (a : AppState) : AppState :=
  {| sessionId := sessionId a; messages := messages a;
     pendingClarification := pendingClarification a;
     currentReportId := currentReportId a;
     currentReport := currentReport a; isLoading := b |}.

(** [state.messages.push({ role, content })] *)
Definition push_message (m : Message) (a : AppState) : AppState :=
  {| sessionId := sessionId a; messages := messages a ++ [m];
     pendingClarification := pendingClarification a;
     currentReportId := currentReportId a;
     currentReport := currentReport a; isLoading := isLoading a |}.

Definition set_thinking (s : str) (d : StreamState) : StreamState :=
  {| thinking := s; content := content d; sql := sql d; data := data d;
     analysis := analysis d; isThinking := isThinking d;
     isAnalyzing := isAnalyzing d |}.

Definition set_content (s : str) (d : StreamState) : StreamState :=
  {| thinking := thinking d; content := s; sql := sql d; data := data d;
     analysis := analysis d; isThinking := isThinking d;
     isAnalyzing := isAnalyzing d |}.

Definition set_sql (s : option str) (d : StreamState) : StreamState :=
  {| thinking := thinking d; content := content d; sql := s; data := data d;
     analysis := analysis d; isThinking := isThinking d;
     isAnalyzing := isAnalyzing d |}.

Definition set_data (j : json) (d : StreamState) : StreamState :=
  {| thinking := thinking d; content := content d; sql := sql d; data := j;
     analysis := analysis d; isThinking := isThinking d;
     isAnalyzing := isAnalyzing d |}.

Definition set_analysis (s : str) (d : StreamState) : StreamState :=
  {| thinking := thinking d; content := content d; sql := sql d;
     data := data d; analysis := s; isThinking := isThinking d;
     isAnalyzing := isAnalyzing d |}.

Definition set_isThinking (b : bool) (d : StreamState) : StreamState :=
  {| thinking := thinking d; content := content d; sql := sql d;
     data := data d; analysis := analysis d; isThinking := b;
     isAnalyzing := isAnalyzing d |}.

Definition set_isAnalyzing (b : bool) (d : StreamState) : StreamState :=
  {| thinking := thinking d; content := content d; sql := sql d;
     data := data d; analysis := analysis d; isThinking := isThinking d;
     isAnalyzing := b |}.

(** The text "[等待用户确认]" that the clarification case stores in the
    draft. *)
Definition waiting_for_confirmation : str :=
  [91; 31561; 24453; 29992; 25143; 30830; 35748; 93]%N.

(** The message "✓ 确认分析请求" added to the chat on confirmation, the
    message "❌ 确认失败: 请求失败" that reports a failed request, and
    the message of [cancelClarification]. *)
Definition confirmed_text : str :=
  [10003; 32; 30830; 35748; 20998; 26512; 35831; 27714]%N.

Definition confirm_failed : str :=
  [10060; 32; 30830; 35748; 22833; 36133; 58; 32; 35831; 27714; 22833;
   36133]%N.

Definition cancelled_text : str :=
  [24050; 21462; 28040; 25253; 21578; 29983; 25104; 12290; 24744; 21487;
   20197; 37325; 26032; 25552; 20986; 38382; 39064; 12290]%N.

(** [handleStreamEvent(event, messageDiv, streamState)]: the assignments
    each case makes to [state] and to [streamState].  In every case they
    precede the writes to the page. *)
Definition handleStreamEvent (event : StreamEvent)
    (st : AppState * StreamState) : AppState * StreamState :=
  let (app, draft) := st in
  match event with
  | EvClarification ev =>
      let rewrittenRequest := str_or_empty (ev_rewritten_request ev) in
      let originalIntent := str_or_empty (ev_original_intent ev) in
      let originalRequest := str_or_empty (ev_original_request ev) in
      let messagesContext := json_or_null (ev_messages_context ev) in
      let toolCallId := str_or_null (ev_tool_call_id ev) in
      (set_pending
         (Some {| rewritten_request := rewrittenRequest;
                  original_intent := originalIntent;
                  original_request := originalRequest;
                  messages_context := messagesContext;
                  tool_call_id := toolCallId |}) app,
       set_content waiting_for_confirmation draft)
  | EvReportCreated report_id => (set_reportId report_id app, draft)
  | EvComplete report =>
      match report with
      | Some r => if truthy r then (set_report (Some r) app, draft) else st
      | None => st
      end
  | EvThinkingStart => (app, set_isThinking true draft)
  | EvThinking c => (app, set_thinking (thinking draft ++ c) draft)
  | EvThinkingEnd => (app, set_isThinking false draft)
  | EvContent c => (app, set_content (content draft ++ c) draft)
  | EvSql s => (app, set_sql (Some s) draft)
  | EvData d => (app, set_data d draft)
  | EvAnalysisStart => (app, set_isAnalyzing true draft)
  | EvAnalysis c => (app, set_analysis (analysis draft ++ c) draft)
  | EvAnalysisEnd => (app, set_isAnalyzing false draft)
  | EvAgentEvent _ | EvIntent _ | EvStatus _ | EvOutline _
  | EvSectionStart _ | EvHeartbeat _ | EvSectionComplete _
  | EvSqlExecuting | EvError _ | EvDone | EvOther _ => st
  end.

(** *** The read loop of [sendMessageStream] and [confirmClarification] *)

Definition frame_delimiter : str := [LF; LF].
Definition data_marker : str := lit "data: ".
Definition done_sentinel : str := lit "[DONE]".

Section ReadLoop.

(** What is done with the payload of one [data: ] line. *)
Variable St : Type.
Variable on_data : str -> St -> St.

(** Body of [for (const line of lines)]. *)
Definition on_line (s : St) (line : str) : St :=
  if negb (startsWith data_marker line) then s
  else
    let data := slice_from 6 line in
    if str_eqb data done_sentinel then s
    else on_data data s.

(** Body of [for (const message of messages)]. *)
Definition on_message (s : St) (message : str) : St :=
  if is_empty (trim message) then s
  else fold_left on_line (split [LF] message) s.

(** One iteration of [while (true)] on a chunk that [reader.read()]
    delivered and the decoder turned into text. *)
Definition on_chunk (buffer : str) (value : str) (s : St) : str * St :=
  let buffer := buffer ++ value in
  let (messages, rest) := pop (split frame_delimiter buffer) in
  (rest, fold_left on_message messages s).

(** The loop, over the chunks that arrive until [done]. *)
Fixpoint read_loop (chunks : list str) (buffer : str) (s : St) : St :=
  match chunks with
  | [] => s
  | value :: chunks' =>
      let (buffer', s') := on_chunk buffer value s in
      read_loop chunks' buffer' s'
  end.

End ReadLoop.

(** The frames of a chunked stream: the payloads handed on, in order. *)
Definition frames (chunks : list str) : list str :=
  read_loop (fun data log => log ++ [data]) chunks [] [].

(** The complete segments of a text: all but the last. *)
Definition complete_messages (text : str) : list str :=
  removelast (split frame_delimiter text).

(** The host's [JSON.parse], restricted to the event vocabulary: [None]
    when it throws. *)
Class JsonHost := { JSON_parse : str -> option StreamEvent }.

Section Exchange.
Context {host : JsonHost}.

(** [try { handleStreamEvent(JSON.parse(data), ...) } catch { log }] *)
Definition dispatch_payload (data : str) (st : AppState * StreamState)
  : AppState * StreamState :=
  match JSON_parse data with
  | Some event => handleStreamEvent event st
  | None => st
  end.

(** The decoded frames of a chunked stream. *)
Definition decoded_frames (chunks : list str) : list StreamEvent :=
  flat_map (fun data => match JSON_parse data with
                        | Some event => [event]
                        | None => []
                        end) (frames chunks).

(** The JSON body of the POST to [/chat/data]; a property that is not set
    is [None]. *)
Record RequestBody := {
  session_id : option str;
  message : str;
  history : option (list Message);
  clarification_response : option str;
  req_original_request : option str;
  req_messages_context : option json;
  req_tool_call_id : option (option str);
  stream : bool
}.

(** What [fetch] is given, and the session state at that moment. *)
Record Sent := { body : RequestBody; state_at_send : AppState }.

(** The response: [ok], and the chunks its body delivers. *)
Record Response := { ok : bool; chunks : list str }.

(** [a.slice(-n)] *)
Definition last_n {A} (n : nat) (l : list A) : list A :=
  skipn (length l - n) l.

(** [sendMessageStream(content)]: the request it sends and the session
    state it leaves, or the state at the throw when the response is not
    ok. *)
Definition sendMessageStream (userContent : str) (response : Response)
    (app : AppState) : Sent * (AppState + AppState) :=
  let streamState := fresh_draft in
  let requestBody :=
    {| session_id := sessionId app; message := userContent;
       history := Some (last_n 10 (messages app));
       clarification_response := None; req_original_request := None;
       req_messages_context := None; req_tool_call_id := None;
       stream := true |} in
  let (requestBody, app) :=
    match pendingClarification app with
    | Some pending =>
        ({| session_id := session_id requestBody;
            message := message requestBody;
            history := history requestBody;
            clarification_response := Some userContent;
            req_original_request := Some (original_request pending);
            req_messages_context := Some (messages_context pending);
            req_tool_call_id := Some (tool_call_id pending);
            stream := stream requestBody |},
         set_pending None app)
    | None => (requestBody, app)
    end in
  let sent := {| body := requestBody; state_at_send := app |} in
  if negb (ok response) then (sent, inr app)
  else
    let (app, streamState) :=
      read_loop dispatch_payload (chunks response) [] (app, streamState) in
    (sent, inl (push_message {| role := lit "assistant";
                                 text := content streamState |} app)).

(** [confirmClarification(textareaId)], given the value of the text area
    when there is one: the request it sends, if it gets that far, and the
    session state it leaves. *)
Definition confirmClarification (textarea : option str) (response : Response)
    (app : AppState) : option Sent * AppState :=
  match textarea, pendingClarification app with
  | Some value, Some pending =>
      let confirmedContent := trim value in
      if is_empty confirmedContent then (None, app)
      else
        let app := push_message {| role := lit "user";
                                   text := confirmed_text |} app in
        let requestBody :=
          {| session_id := sessionId app; message := confirmedContent;
             history := None;
             clarification_response := Some confirmedContent;
             req_original_request := Some (original_request pending);
             req_messages_context := Some (messages_context pending);
             req_tool_call_id := Some (tool_call_id pending);
             stream := true |} in
        let app := set_pending None app in
        let app := set_loading true app in
        let sent := {| body := requestBody; state_at_send := app |} in
        if negb (ok response)
        then
          (* the throw is caught: an assistant message reports it *)
          (Some sent,
           set_loading false
             (push_message {| role := lit "assistant";
                              text := confirm_failed |} app))
        else
          let (app, streamState) :=
            read_loop dispatch_payload (chunks response) []
                      (app, fresh_draft) in
          let app :=
            if is_empty (content streamState) then app
            else push_message {| role := lit "assistant";
                                 text := content streamState |} app in
          (Some sent, set_loading false app)
  | _, _ => (None, app)
  end.

(** [cancelClarification()] *)
Definition cancelClarification (app : AppState) : AppState :=
  push_message {| role := lit "assistant"; text := cancelled_text |}
               (set_pending None app).

End Exchange.

End Stream.

(** ** Event sequences and what the specification expects of them *)

Module Dispatch.
Import Js Value Stream.

(** An ordered event sequence applied to a session state and a draft. *)
Definition apply_events (events : list StreamEvent)
    (st : AppState * StreamState) : AppState * StreamState :=
  fold_left (fun st event => handleStreamEvent event st) events st.

(** In-order concatenation of the payloads of the delta events of one
    type. *)
Definition thinking_deltas (events : list StreamEvent) : str :=
  flat_map (fun e => match e with EvThinking c => c | _ => [] end) events.

Definition content_deltas (events : list StreamEvent) : str :=
  flat_map (fun e => match e with EvContent c => c | _ => [] end) events.

Definition analysis_deltas (events : list StreamEvent) : str :=
  flat_map (fun e => match e with EvAnalysis c => c | _ => [] end) events.

(** Payload of the last [sql] event and of the last [data] event. *)
Definition last_sql (events : list StreamEvent) : option str :=
  fold_left (fun acc e => match e with EvSql s => Some s | _ => acc end)
            events None.

Definition last_data (events : list StreamEvent) : json :=
  fold_left (fun acc e => match e with EvData d => d | _ => acc end)
            events JNull.

Definition is_clarification (e : StreamEvent) : bool :=
  match e with EvClarification _ => true | _ => false end.

(** The events behind the last [clarification] event, if there is one. *)
Fixpoint after_last_clarification (events : list StreamEvent)
  : option (list StreamEvent) :=
  match events with
  | [] => None
  | e :: rest =>
      match after_last_clarification rest with
      | Some post => Some post
      | None => if is_clarification e then Some rest else None
      end
  end.

(** What the clarification case stores in [state.pendingClarification]. *)
Definition snapshot (ev : ClarificationEvent) : ClarificationState :=
  {| rewritten_request := str_or_empty (ev_rewritten_request ev);
     original_intent := str_or_empty (ev_original_intent ev);
     original_request := str_or_empty (ev_original_request ev);
     messages_context := json_or_null (ev_messages_context ev);
     tool_call_id := str_or_null (ev_tool_call_id ev) |}.

(** A host for the examples: its [JSON.parse] knows two payloads, an
    [error] event and a [content] event with the delta [x], and throws on
    every other text. *)
Definition quoted (s : str) : str := [34%N] ++ s ++ [34%N].

Definition sample_error_payload : str :=
  lit "{" ++ quoted (lit "type") ++ lit ":" ++ quoted (lit "error") ++ lit "}".

Definition sample_content_payload : str :=
  lit "{" ++ quoted (lit "type") ++ lit ":" ++ quoted (lit "content")
  ++ lit "," ++ quoted (lit "content") ++ lit ":" ++ quoted (lit "x")
  ++ lit "}".

Definition sample_host : JsonHost :=
  {| JSON_parse := fun data =>
       if str_eqb data sample_error_payload then Some (EvError None)
       else if str_eqb data sample_content_payload
            then Some (EvContent (lit "x"))
            else None |}.

(** A session with nothing pending. *)
Definition idle_session : AppState :=
  {| sessionId := Some (lit "s1"); messages := [];
     pendingClarification := None; currentReportId := None;
     currentReport := None; isLoading := false |}.

End Dispatch.

(** ** Regular expressions of the source *)

(** The patterns of the source use literals, character classes,
    alternation, greedy and lazy repetition and capturing groups; none has
    a look-around assertion or a back-reference, and [^] and [$] only
    occur as the two ends of a [test] on a whole string.  A pattern is a
    term of [re]; matching is the backtracking search of ECMAScript:
    alternatives left to right, a greedy repetition longest first, a lazy
    one shortest first. *)

Module Regex.
Import Js.

Inductive re :=
| Eps
| Chr (p : N -> bool)
| Seq (a b : re)
| Alt (a b : re)
| Star (greedy : bool) (a : re)
| Group (i : nat) (a : re).

(** Captured substrings, by group number. *)
Definition captures := list (nat * str).

Fixpoint capture (i : nat) (caps : captures) : str :=
  match caps with
  | [] => []
  | (j, s) :: caps' => if Nat.eqb i j then s else capture i caps'
  end.

Definition result := option (str * captures).

(** [m r s caps k]: match [r] at the head of [s], then go on with [k] on
    what is left; [None] when every way of matching [r] makes [k] fail.
    An iteration of a repetition must consume input, so a repetition on
    [s] runs at most [length s] times. *)
Fixpoint m (r : re) (s : str) (caps : captures)
    (k : str -> captures -> result) {struct r} : result :=
  match r with
  | Eps => k s caps
  | Chr p =>
      match s with
      | c :: s' => if p c then k s' caps else None
      | [] => None
      end
  | Seq a b => m a s caps (fun s' caps' => m b s' caps' k)
  | Alt a b =>
      match m a s caps k with
      | Some x => Some x
      | None => m b s caps k
      end
  | Star greedy a =>
      (fix loop (n : nat) (s : str) (caps : captures) {struct n} : result :=
         match n with
         | O => k s caps
         | S n' =>
             let again :=
               m a s caps (fun s' caps' =>
                 if length s' <? length s then loop n' s' caps' else None) in
             if greedy
             then match again with
                  | Some x => Some x
                  | None => k s caps
                  end
             else match k s caps with
                  | Some x => Some x
                  | None => again
                  end
         end) (length s) s caps
  | Group i a =>
      m a s caps (fun s' caps' =>
        k s' ((i, firstn (length s - length s') s) :: caps'))
  end.

Definition accept : str -> captures -> result :=
  fun s caps => Some (s, caps).

Definition accept_at_end : str -> captures -> result :=
  fun s caps => match s with [] => Some (s, caps) | _ => None end.

(** [/^r$/.test(s)] *)
Definition test_whole (r : re) (s : str) : bool :=
  match m r s [] accept_at_end with Some _ => true | None => false end.

(** [/^r/.test(s)] *)
Definition test_prefix (r : re) (s : str) : bool :=
  match m r s [] accept with Some _ => true | None => false end.

(** The leftmost match of [r] in [s]: the text before it, the match, the
    text behind it and the captures. *)
Fixpoint search (r : re) (before : str) (s : str)
  : option (str * str * str * captures) :=
  match m r s [] accept with
  | Some (s', caps) =>
      Some (rev before, firstn (length s - length s') s, s', caps)
  | None =>
      match s with
      | [] => None
      | c :: s' => search r (c :: before) s'
      end
  end.

(** [/r/.test(s)] *)
Definition test (r : re) (s : str) : bool :=
  match search r [] s with Some _ => true | None => false end.

(** A replacement string: text and [$n] references. *)
Inductive piece :=
| Text (s : str)
| Ref (i : nat).

Definition expand (template : list piece) (caps : captures) : str :=
  flat_map (fun p => match p with
                     | Text s => s
                     | Ref i => capture i caps
                     end) template.

(** [s.replace(/r/g, template)]: matches are taken left to right, each
    search starting behind the previous match (one code unit further
    after an empty match). *)
Fixpoint replace_fuel (fuel : nat) (r : re) (template : list piece) (s : str)
  : str :=
  match fuel with
  | O => s
  | S fuel' =>
      match search r [] s with
      | None => s
      | Some (before, matched, rest, caps) =>
          before ++ expand template caps ++
          match matched, rest with
          | [], c :: rest' => c :: replace_fuel fuel' r template rest'
          | [], [] => []
          | _ :: _, _ => replace_fuel fuel' r template rest
          end
      end
  end.

Definition replace_all (r : re) (template : list piece) (s : str) : str :=
  replace_fuel (S (length s)) r template s.

(** [(s.match(/r/g) || []).length] *)
Fixpoint count_fuel (fuel : nat) (r : re) (s : str) : Z :=
  match fuel with
  | O => 0%Z
  | S fuel' =>
      match search r [] s with
      | None => 0%Z
      | Some (_, matched, rest, _) =>
          (1 + match matched, rest with
               | [], _ :: rest' => count_fuel fuel' r rest'
               | [], [] => 0
               | _ :: _, _ => count_fuel fuel' r rest
               end)%Z
      end
  end.

Definition count_matches (r : re) (s : str) : Z :=
  count_fuel (S (length s)) r s.

(** *** Notation of patterns *)

Definition Plus (greedy : bool) (a : re) : re := Seq a (Star greedy a).
Definition Opt (a : re) : re := Alt a Eps.

(** [a{n,}] *)
Fixpoint AtLeast (n : nat) (a : re) : re :=
  match n with
  | O => Star true a
  | S n' => Seq a (AtLeast n' a)
  end.

(** [a{n}] *)
Fixpoint Times (n : nat) (a : re) : re :=
  match n with
  | O => Eps
  | S n' => Seq a (Times n' a)
  end.

Definition only (c : N) : N -> bool := fun x => N.eqb x c.
Definition one_of (l : list N) : N -> bool := fun x => existsb (N.eqb x) l.
Definition none_of (l : list N) : N -> bool := fun x => negb (one_of l x).
Definition any : N -> bool := fun _ => true.
Definition digit : N -> bool := fun x => ((48 <=? x) && (x <=? 57))%N.
Definition upper : N -> bool := fun x => ((65 <=? x) && (x <=? 90))%N.
Definition lower : N -> bool := fun x => ((97 <=? x) && (x <=? 122))%N.
Definition letter : N -> bool := fun x => upper x || lower x.
Definition in_range (a b : N) : N -> bool :=
  fun x => ((a <=? x) && (x <=? b))%N.

(** Line terminators, which [.] does not match. *)
Definition is_line_terminator (c : N) : bool :=
  ((c =? 10) || (c =? 13) || (c =? 8232) || (c =? 8233))%N.
Definition dot : N -> bool := fun x => negb (is_line_terminator x).

(** A code unit under the [i] flag: an ASCII letter matches both of its
    cases (no code unit outside ASCII folds to an ASCII letter). *)
Definition fold_case (c : N) : N :=
  if lower c then (c - 32)%N else c.
Definition is_ci (c : N) : N -> bool :=
  fun x => N.eqb (fold_case x) (fold_case c).

(** The characters of a pattern in a row. *)
Fixpoint chars (s : str) : re :=
  match s with
  | [] => Eps
  | [c] => Chr (only c)
  | c :: s' => Seq (Chr (only c)) (chars s')
  end.

Fixpoint chars_ci (s : str) : re :=
  match s with
  | [] => Eps
  | [c] => Chr (is_ci c)
  | c :: s' => Seq (Chr (is_ci c)) (chars_ci s')
  end.

(** Alternation of several patterns, left to right. *)
Fixpoint alts (l : list re) : re :=
  match l with
  | [] => Chr (fun _ => false)
  | [a] => a
  | a :: l' => Alt a (alts l')
  end.

(** Sequence of several patterns. *)
Fixpoint seqs (l : list re) : re :=
  match l with
  | [] => Eps
  | [a] => a
  | a :: l' => Seq a (seqs l')
  end.

(** *** Notions for reasoning about patterns *)

Definition suffix (s' s : str) : Prop := exists p, s = p ++ s'.

(** [Needs P r]: every match of [r] holds a code unit that satisfies
    [P]. *)
Inductive Needs (P : N -> bool) : re -> Prop :=
| Needs_chr p : (forall c, p c = true -> P c = true) -> Needs P (Chr p)
| Needs_seq_l a b : Needs P a -> Needs P (Seq a b)
| Needs_seq_r a b : Needs P b -> Needs P (Seq a b)
| Needs_alt a b : Needs P a -> Needs P b -> Needs P (Alt a b)
| Needs_group i a : Needs P a -> Needs P (Group i a).

(** No code unit of [s] satisfies [P]. *)
Definition free_of (P : N -> bool) (s : str) : bool :=
  forallb (fun c => negb (P c)) s.

(** What [search] finds, and the same match seen from further left. *)
Definition found := (str * str * str * captures)%type.

Definition shift (pre : str) (x : found) : found :=
  match x with
  | (before, matched, rest, caps) => (pre ++ before, matched, rest, caps)
  end.

End Regex.

(** ** Markdown repair: [cleanHtmlAndUrls] and [fixMarkdownTables] *)

Module Markdown.
Import Js Regex.

Definition lc (a : ascii) : re := Chr (only (N_of_ascii a)).
Arguments lc a%_char.

Definition DQUOTE : N := 34%N.
Definition SQUOTE : N := 39%N.
Definition TAB : N := 9%N.
Definition PIPE : N := 124%N.

(** [[^...]] over a set that also holds [\s] *)
Definition not_space_nor (l : list N) : N -> bool :=
  fun x => negb (is_space x) && none_of l x.

(** [(strong|b|i|em|u|span|div|p|br|ul|li|ol|h[1-6])] under the [i] flag *)
Definition tag_names : re :=
  Group 1 (alts [chars_ci (lit "strong"); chars_ci (lit "b");
                 chars_ci (lit "i"); chars_ci (lit "em"); chars_ci (lit "u");
                 chars_ci (lit "span"); chars_ci (lit "div");
                 chars_ci (lit "p"); chars_ci (lit "br"); chars_ci (lit "ul");
                 chars_ci (lit "li"); chars_ci (lit "ol");
                 Seq (Chr (is_ci 104)) (Chr (in_range 49 54))]).

(** [/<a\s+[^>]*>[\s\S]*?<\/a>/gi] *)
Definition re_anchor_element : re :=
  seqs [lc "<"; Chr (is_ci 97); Plus true (Chr is_space);
        Star true (Chr (none_of (lit ">"))); lc ">";
        Star false (Chr any); chars_ci (lit "</a>")].

(** [/<a\s+[^>]*>/gi] *)
Definition re_anchor_open : re :=
  seqs [lc "<"; Chr (is_ci 97); Plus true (Chr is_space);
        Star true (Chr (none_of (lit ">"))); lc ">"].

(** [/<\/a>/gi] *)
Definition re_anchor_close : re := chars_ci (lit "</a>").

(** [/<(strong|...|h[1-6])[^>]*>/gi] *)
Definition re_known_open : re :=
  seqs [lc "<"; tag_names; Star true (Chr (none_of (lit ">"))); lc ">"].

(** [/<\/(strong|...|h[1-6])>/gi] *)
Definition re_known_close : re :=
  seqs [chars (lit "</"); tag_names; lc ">"].

(** [/<[a-zA-Z][^>]*>/g] *)
Definition re_any_open : re :=
  seqs [lc "<"; Chr letter; Star true (Chr (none_of (lit ">"))); lc ">"].

(** [/<\/[a-zA-Z]+>/g] *)
Definition re_any_close : re :=
  seqs [chars (lit "</"); Plus true (Chr letter); lc ">"].

(** [/https?:\/\/steamcommunity\.com\/linkfilter\/\?url=[^\s<>\x22'\]]+/gi],
    writing [\x22] for the double quote of the source *)
Definition re_steam_url : re :=
  seqs [chars_ci (lit "http"); Opt (Chr (is_ci 115));
        chars_ci (lit "://steamcommunity.com/linkfilter/?url=");
        Plus true (Chr (not_space_nor (lit "<>" ++ [DQUOTE; SQUOTE]
                                       ++ lit "]")))].

(** [/file:\/\/\/[^\s<>)\x22\]]+/gi] *)
Definition re_file_url : re :=
  seqs [chars_ci (lit "file:///");
        Plus true (Chr (not_space_nor (lit "<>)" ++ [DQUOTE] ++ lit "]")))].

(** [/https?:\/\/[^\s<>\[\]()'\x22]+/g] *)
Definition re_url : re :=
  seqs [chars (lit "http"); Opt (lc "s"); chars (lit "://");
        Plus true (Chr (not_space_nor (lit "<>[]()" ++ [SQUOTE; DQUOTE])))].

(** The markdown link [/\[(T)\]\([^)]+\)/g], where the group [T] is
    [[^\]]] any number of times *)
Definition re_md_link : re :=
  seqs [lc "["; Group 1 (Star true (Chr (none_of (lit "]")))); lc "]";
        lc "("; Plus true (Chr (none_of (lit ")"))); lc ")"].

(** [/\x22(https?:\/\/[^\x22]+)\x22/g] and [/'(https?:\/\/[^']+)'/g],
    by the quote [q] *)
Definition re_quoted_url (q : N) : re :=
  seqs [Chr (only q);
        Group 1 (seqs [chars (lit "http"); Opt (lc "s"); chars (lit "://");
                       Plus true (Chr (none_of [q]))]);
        Chr (only q)].

(** [/%22/g] and [/%27/g] *)
Definition re_pct22 : re := chars (lit "%22").
Definition re_pct27 : re := chars (lit "%27").

(** [/&[a-zA-Z]+;/g] and [/&#\d+;/g] *)
Definition re_named_entity : re :=
  seqs [lc "&"; Plus true (Chr letter); lc ";"].
Definition re_numeric_entity : re :=
  seqs [chars (lit "&#"); Plus true (Chr digit); lc ";"].

(** [/[ \t]+/g] and [/\n{3,}/g] *)
Definition re_blanks : re := Plus true (Chr (one_of [32%N; TAB])).
Definition re_newlines3 : re := AtLeast 3 (Chr (only LF)).

(** [cleanHtmlAndUrls(text)] *)
Definition cleanHtmlAndUrls (text : str) : str :=
  if is_empty text then []
  else
    let s := replace_all re_anchor_element [] text in
    let s := replace_all re_anchor_open [] s in
    let s := replace_all re_anchor_close [] s in
    let s := replace_all re_known_open [] s in
    let s := replace_all re_known_close [] s in
    let s := replace_all re_any_open [] s in
    let s := replace_all re_any_close [] s in
    let s := replace_all re_steam_url [] s in
    let s := replace_all re_file_url [] s in
    let s := replace_all re_url [] s in
    let s := replace_all re_md_link [Ref 1] s in
    let s := replace_all (re_quoted_url DQUOTE) [] s in
    let s := replace_all (re_quoted_url SQUOTE) [] s in
    let s := replace_all re_pct22 [] s in
    let s := replace_all re_pct27 [] s in
    let s := replace_all re_named_entity [Text (lit " ")] s in
    let s := replace_all re_numeric_entity [Text (lit " ")] s in
    let s := replace_all re_blanks [Text (lit " ")] s in
    let s := replace_all re_newlines3 [Text [LF; LF]] s in
    trim s.

(** [/^\|[-:\s|]+\|$/]: a header-separator row *)
Definition re_separator_row : re :=
  seqs [lc "|";
        Plus true (Chr (fun x => one_of (lit "-:|") x || is_space x));
        lc "|"].

(** [/^\|\s*[^|]+\s*\|$/]: a lone cell *)
Definition re_lone_cell : re :=
  seqs [lc "|"; Star true (Chr is_space);
        Plus true (Chr (none_of (lit "|")));
        Star true (Chr is_space); lc "|"].

(** [(s.match(/\|/g) || []).length] *)
Definition pipe_count (s : str) : Z := count_matches (lc "|") s.

Definition is_separator_row (s : str) : bool :=
  test_whole re_separator_row s.

Definition is_lone_cell (s : str) : bool := test_whole re_lone_cell s.

Definition dashes : str := lit "---".
Definition bar : str := lit "|".
Definition space : str := lit " ".

(** The first loop: the column count of the first separator row. *)
Fixpoint find_expectedCols (lines : list str) : Z :=
  match lines with
  | [] => 0%Z
  | line :: lines' =>
      let trimmed := trim line in
      if is_separator_row trimmed then (pipe_count trimmed - 1)%Z
      else find_expectedCols lines'
  end.

Definition is_complete_row (expectedCols : Z) (s : str) : bool :=
  endsWith bar s && Z.eqb (pipe_count s - 1) expectedCols.

(** The inner [while (j < lines.length)]: the lines from [j] on are joined
    to [combined]; the result is the joined row and the lines from the
    final [j] on. *)
Fixpoint combine_rows (expectedCols : Z) (combined : str) (rest : list str)
  : str * list str :=
  match rest with
  | [] => (combined, [])
  | l :: rest' =>
      let nextLine := trim l in
      if is_empty nextLine then combine_rows expectedCols combined rest'
      else if is_separator_row nextLine then (combined, rest)
      else if startsWith bar nextLine then
        let combined :=
          if endsWith bar combined
          then trimEnd (drop_last combined) ++ space
               ++ trimStart (slice_from 1 nextLine)
          else trimEnd combined ++ space ++ trimStart nextLine in
        if is_complete_row expectedCols combined then (combined, rest')
        else combine_rows expectedCols combined rest'
      else
        combine_rows expectedCols
                     (trimEnd combined ++ space ++ trimStart nextLine) rest'
  end.

(** The main [while (i < lines.length)]: [rest] is [lines] from index [i]
    on.  Every iteration passes over at least one line, so [length lines]
    iterations are enough. *)
Fixpoint merge_lines (fuel : nat) (expectedCols : Z) (rest : list str)
    (merged : list str) : list str :=
  match fuel, rest with
  | O, _ => merged
  | _, [] => merged
  | S fuel', line :: rest' =>
      let trimmed := trim line in
      let lone_tail :=
        if is_lone_cell trimmed && (0 <? length merged)
        then
          let cellCount := (pipe_count trimmed - 1)%Z in
          if Z.eqb cellCount 1 && negb (includes dashes trimmed)
          then
            let prevLine := trim (last merged []) in
            if negb (endsWith bar prevLine) && negb (is_empty prevLine)
            then Some (removelast merged ++ [prevLine ++ space ++ trimmed])
            else None
          else None
        else None in
      match lone_tail with
      | Some merged' => merge_lines fuel' expectedCols rest' merged'
      | None =>
          if startsWith bar trimmed && Z.ltb 0 expectedCols
          then
            if is_separator_row trimmed
            then merge_lines fuel' expectedCols rest' (merged ++ [trimmed])
            else if is_complete_row expectedCols trimmed
            then merge_lines fuel' expectedCols rest' (merged ++ [trimmed])
            else
              let (combined, rest'') :=
                combine_rows expectedCols trimmed rest' in
              merge_lines fuel' expectedCols rest'' (merged ++ [combined])
          else
            let orphan :=
              match rest' with
              | next :: rest'' =>
                  let nextTrimmed := trim next in
                  if is_lone_cell nextTrimmed
                     && negb (includes dashes nextTrimmed)
                     && (negb (startsWith bar trimmed)
                         && negb (endsWith bar trimmed)
                         && negb (is_empty trimmed))
                  then Some (trimmed ++ space ++ nextTrimmed, rest'')
                  else None
              | [] => None
              end in
            match orphan with
            | Some (joined, rest'') =>
                merge_lines fuel' expectedCols rest'' (merged ++ [joined])
            | None => merge_lines fuel' expectedCols rest' (merged ++ [line])
            end
      end
  end.

(** [/([。！？.!?])[ \t]*(\|)/g] *)
Definition re_sentence_then_pipe : re :=
  seqs [Group 1 (Chr (one_of ([12290; 65281; 65311]%N ++ lit ".!?")));
        Star true (Chr (one_of [32%N; TAB]));
        Group 2 (lc "|")].

(** [/([^\n|])[ \t]*\n(\|[^\n]+\|)\n(\|[-:\s|]+\|)/g] *)
Definition re_text_then_table : re :=
  seqs [Group 1 (Chr (none_of [LF; PIPE]));
        Star true (Chr (one_of [32%N; TAB])); Chr (only LF);
        Group 2 (seqs [lc "|"; Plus true (Chr (none_of [LF])); lc "|"]);
        Chr (only LF);
        Group 3 re_separator_row].

(** [/(\|[^\n]+\|)\n([^|\s\n])/g] *)
Definition re_table_then_text : re :=
  seqs [Group 1 (seqs [lc "|"; Plus true (Chr (none_of [LF])); lc "|"]);
        Chr (only LF);
        Group 2 (Chr (fun x => none_of [PIPE; LF] x && negb (is_space x)))].

(** [fixMarkdownTables(text)] *)
Definition fixMarkdownTables (text : str) : str :=
  if is_empty text then []
  else
    let lines := split [LF] text in
    let expectedCols := find_expectedCols lines in
    let merged := merge_lines (length lines) expectedCols lines [] in
    let fixed := join [LF] merged in
    let fixed :=
      replace_all re_sentence_then_pipe [Ref 1; Text [LF; LF]; Ref 2] fixed in
    let fixed :=
      replace_all re_text_then_table
                  [Ref 1; Text [LF; LF]; Ref 2; Text [LF]; Ref 3] fixed in
    replace_all re_table_then_text [Ref 1; Text [LF; LF]; Ref 2] fixed.

(** The two repair passes that [renderMarkdown] applies, in its order. *)
Definition repair (text : str) : str :=
  fixMarkdownTables (cleanHtmlAndUrls text).

(** The cells of a table row: the text between its pipes, trimmed. *)
Definition row_cells (row : str) : list str :=
  map trim (removelast (tl (split bar row))).

(** Text of several lines. *)
Definition text_of_lines (lines : list str) : str := join [LF] lines.

(** Plain prose: none of the characters that start or delimit what the
    repair removes or rewrites ([<], [:], [[], [%], [&], [|], tab), no two
    adjacent spaces, no three adjacent newlines, no white space at either
    end. *)
Definition markup_char (c : N) : bool :=
  one_of (lit "<:[%&|") c || N.eqb c TAB.

Fixpoint no_adjacent (p : N -> bool) (s : str) : bool :=
  match s with
  | a :: s' =>
      match s' with
      | b :: _ => negb (p a && p b) && no_adjacent p s'
      | [] => true
      end
  | [] => true
  end.

Definition pipe_free (s : str) : bool := free_of (only PIPE) s.

(** A space or a tab: what [[ \t]] matches. *)
Definition blank : N -> bool := one_of [32%N; TAB].

Definition plain_text (y : str) : bool :=
  forallb (fun c => negb (markup_char c)) y
  && no_adjacent (only 32%N) y
  && negb (includes [LF; LF; LF] y)
  && str_eqb (trim y) y.

End Markdown.

(** ** Chart data (the report page script) *)

Module Charts.
Import Js Value Regex.

(** *** Numbers as the sort sees them *)

(** [a - b].  The difference of two finite doubles is rounded, but its
    sign is the sign of the exact difference, and a comparator is only
    read through its sign. *)
Definition num_sub (a b : num) : num :=
  match a, b with
  | NaN, _ | _, NaN => NaN
  | Inf s, Inf t => if Bool.eqb s t then NaN else Inf s
  | Inf s, Fin _ => Inf s
  | Fin _, Inf t => Inf (negb t)
  | Fin x, Fin y => Fin (x - y)
  end.

(** [v < 0]; it is false for NaN, which [sort] takes for [+0]. *)
Definition num_neg (v : num) : bool :=
  match v with
  | NaN => false
  | Inf negative => negative
  | Fin q => negb (Qle_bool 0 q)
  end.

(** [x || 0] on a number *)
Definition num_or_zero (x : num) : num :=
  if num_truthy x then x else Fin 0.

(** [a < b] on numbers that are not NaN *)
Definition num_ltb (a b : num) : bool :=
  match a, b with
  | NaN, _ | _, NaN => false
  | Inf s, Inf t => s && negb t
  | Inf s, Fin _ => s
  | Fin _, Inf t => negb t
  | Fin x, Fin y => negb (Qle_bool y x)
  end.

(** *** [Array.prototype.sort]

    The sort is stable, and for a comparator that orders its arguments
    consistently every stable sort returns the same array.  Where the
    comparator is not consistent the standard leaves the order to the
    implementation.  The model is the sort of V8 (Chrome, Node.js): the
    run at the head of the array is taken as it is, turned round when it
    descends, and the elements behind it are put into it one by one, at
    the place a binary search finds.  The comparator is only ever asked
    whether its first argument comes before its second,
    [comparefn(x, y) < 0], a result that is NaN counting as [+0].  V8
    sorts an array of fewer than 64 elements in this one run; a longer
    one it sorts in several such runs, which it then merges. *)

Section Sort.
Variable A : Type.
Variable comparefn : A -> A -> num.

(** [CountAndMakeRun]: how many of the elements behind [previous]
    continue the run; an ascending run ends at the first element that
    comes before its predecessor, a descending run at the first that
    does not. *)
Fixpoint run_length (isDescending : bool) (previous : A) (rest : list A)
  : nat :=
  match rest with
  | [] => 0
  | current :: rest' =>
      if Bool.eqb (num_neg (comparefn current previous)) isDescending
      then S (run_length isDescending current rest')
      else 0
  end.

(** The run at the head of the array, in ascending order, and the
    elements behind it. *)
Definition count_and_make_run (a : list A) : list A * list A :=
  match a with
  | elementHigh :: elementLow :: rest =>
      let isDescending := num_neg (comparefn elementLow elementHigh) in
      let runLength := 2 + run_length isDescending elementLow rest in
      let run := firstn runLength a in
      (if isDescending then rev run else run, skipn runLength a)
  | _ => (a, [])
  end.

(** [BinaryInsertionSort], the search: the place of the pivot among the
    elements [sorted], between [left] and [right].  The interval halves
    with every turn, so that as many turns as it is wide are enough. *)
Fixpoint insertion_point (turns : nat) (pivot : A) (sorted : list A)
    (left right : nat) : nat :=
  match turns with
  | O => left
  | S turns' =>
      if left <? right
      then
        let mid := left + (right - left) / 2 in
        match nth_error sorted mid with
        | Some element =>
            if num_neg (comparefn pivot element)
            then insertion_point turns' pivot sorted left mid
            else insertion_point turns' pivot sorted (mid + 1) right
        | None => left
        end
      else left
  end.

(** The pivot is put at its place. *)
Definition insert_sorted (pivot : A) (sorted : list A) : list A :=
  let left :=
    insertion_point (length sorted) pivot sorted 0 (length sorted) in
  firstn left sorted ++ pivot :: skipn left sorted.

Definition js_sort (a : list A) : list A :=
  let (run, rest) := count_and_make_run a in
  fold_left (fun sorted pivot => insert_sorted pivot sorted) rest run.

(** [before a b]: the comparator does not put [b] before [a]. *)
Definition before (a b : A) : Prop := num_neg (comparefn b a) = false.

(** A class of elements comes last in a list. *)
Variable last_class : A -> bool.

Fixpoint class_last (l : list A) : bool :=
  match l with
  | [] => true
  | a :: l' =>
      if last_class a then forallb last_class l' else class_last l'
  end.

End Sort.

(** *** Rows *)

(** A row of [rendered_data]: its own properties in the order of
    [Object.keys]. *)
Definition Row := list (str * json).

(** [row[key]]; [None] is [undefined]. *)
Fixpoint get (row : Row) (key : str) : option json :=
  match row with
  | [] => None
  | (k, v) :: row' => if str_eqb k key then Some v else get row' key
  end.

(** A field name that may be [undefined]; as a property key [undefined]
    is the string of its name. *)
Definition prop_key (field : option str) : str :=
  match field with
  | Some k => k
  | None => lit "undefined"
  end.

Definition keys_of (row : Row) : list str := map fst row.

(** [v == null] *)
Definition nullish (v : option json) : bool :=
  match v with
  | None | Some JNull => true
  | _ => false
  end.

Definition is_number (v : option json) : bool :=
  match v with Some (JNum _) => true | _ => false end.

Definition is_string (v : option json) : bool :=
  match v with Some (JStr _) => true | _ => false end.

(** [!field] for a field name *)
Definition no_field (field : option str) : bool :=
  match field with
  | Some k => is_empty k
  | None => true
  end.

(** [a || b] on field names *)
Definition field_or (a b : option str) : option str :=
  if no_field a then b else a.

(** What the page takes from the host. *)
Class ChartHost := {
  (** [parseFloat(v)] *)
  parseFloat : option json -> num;
  (** the time value of [new Date(s)], NaN for an invalid date *)
  Date_value : str -> num;
  (** [String(n)] for a number *)
  number_to_string : num -> str;
  (** [String(v)] for an array or an object *)
  object_to_string : json -> str;
  (** [a.localeCompare(b)] *)
  localeCompare : str -> str -> num
}.

Section WithHost.
Context {host : ChartHost}.

(** [String(v)] for a value that is not nullish *)
Definition to_string (v : option json) : str :=
  match v with
  | None => lit "undefined"
  | Some JNull => lit "null"
  | Some (JBool true) => lit "true"
  | Some (JBool false) => lit "false"
  | Some (JNum n) => number_to_string n
  | Some (JStr s) => s
  | Some j => object_to_string j
  end.

(** [/^\d{4}[-/]\d{2}[-/]\d{2}/], [/^\d{4}[-/]\d{2}$/] and [/^\d{4}$/] *)
Definition re_date_day : re :=
  seqs [Times 4 (Chr digit); Chr (one_of (lit "-/")); Times 2 (Chr digit);
        Chr (one_of (lit "-/")); Times 2 (Chr digit)].

Definition re_date_month : re :=
  seqs [Times 4 (Chr digit); Chr (one_of (lit "-/")); Times 2 (Chr digit)].

Definition re_date_year : re := Times 4 (Chr digit).

Inductive SortMode := ByDate | ByNumber | ByText.

(** [isDateLike] and [isNumeric], from the sample value. *)
Definition isDateLike (sampleValue : option json) : bool :=
  match sampleValue with
  | Some (JStr s) =>
      test_prefix re_date_day s || test_whole re_date_month s
      || test_whole re_date_year s
  | _ => false
  end.

Definition is_NaN (n : num) : bool :=
  match n with NaN => true | _ => false end.

Definition isNumeric (sampleValue : option json) : bool :=
  is_number sampleValue
  || (is_string sampleValue && negb (is_NaN (parseFloat sampleValue))).

Definition sort_mode (sampleValue : option json) : SortMode :=
  if isDateLike sampleValue then ByDate
  else if isNumeric sampleValue then ByNumber
  else ByText.

(** [/\//g] *)
Definition re_slash : re := Chr (only 47%N).

(** The comparator of [sortChartData]. *)
Definition compare_rows (mode : SortMode) (xField : str) (a b : Row) : num :=
  let valA := get a xField in
  let valB := get b xField in
  if nullish valA then Fin 1
  else if nullish valB then Fin (-1)
  else
    match mode with
    | ByDate =>
        let dateA :=
          Date_value (replace_all re_slash [Text (lit "-")] (to_string valA)) in
        let dateB :=
          Date_value (replace_all re_slash [Text (lit "-")] (to_string valB)) in
        num_sub dateA dateB
    | ByNumber => num_sub (parseFloat valA) (parseFloat valB)
    | ByText => localeCompare (to_string valA) (to_string valB)
    end.

(** [sortChartData(data, xField)] *)
Definition sortChartData (data : list Row) (xField : option str) : list Row :=
  if (length data =? 0) || no_field xField then data
  else
    let sorted := data in
    let sampleValue :=
      match sorted with
      | first :: _ => get first (prop_key xField)
      | [] => None
      end in
    js_sort (compare_rows (sort_mode sampleValue) (prop_key xField)) sorted.

(** *** Fields of a bar chart *)

Record DataSource := {
  xAxis : option str;
  x_axis : option str;
  yAxis : option (list str);
  y_axis : option (list str)
}.

(** [ds.yAxis || ds.y_axis || []]: an array is truthy, also when empty. *)
Definition y_fields_of (ds : DataSource) : list str :=
  match yAxis ds with
  | Some l => l
  | None => match y_axis ds with Some l => l | None => [] end
  end.

Record ChartConfig := {
  data_sources : list DataSource
}.

(** [CHART_CONFIG.maxBarItems] *)
Definition maxBarItems : nat := 20.

Definition mem (k : str) (l : list str) : bool := existsb (str_eqb k) l.

Definition first_row (data : list Row) : Row :=
  match data with
  | r :: _ => r
  | [] => []
  end.

(** [a !== xField] for a key and a field name that may be undefined *)
Definition differs (k : str) (xField : option str) : bool :=
  match xField with
  | Some x => negb (str_eqb k x)
  | None => true
  end.

(** The comparator of the cut: the first y value, descending. *)
Definition by_first_y_desc (yField : option str) (a b : Row) : num :=
  let va := num_or_zero (parseFloat (get a (prop_key yField))) in
  let vb := num_or_zero (parseFloat (get b (prop_key yField))) in
  num_sub vb va.

(** The value the cut ranks a row by. *)
Definition y_value (yField : option str) (row : Row) : num :=
  num_or_zero (parseFloat (get row (prop_key yField))).

(** The field parsing of [renderBarChart]: [xField] and [yFields] after
    validation against the keys of the first row. *)
Definition renderBarChart_fields (config : ChartConfig) (data : list Row)
  : option str * list str :=
  let dataSources := data_sources config in
  let fields :=
    match dataSources with
    | ds0 :: _ =>
        (field_or (xAxis ds0) (x_axis ds0), flat_map y_fields_of dataSources)
    | [] =>
        let keys := keys_of (first_row data) in
        (hd_error keys,
         filter (fun k => is_number (get (first_row data) k)) (tl keys))
    end in
  let (xField, yFields) := fields in
  let dataKeys := keys_of (first_row data) in
  let xField :=
    if negb (no_field xField) && negb (mem (prop_key xField) dataKeys)
    then field_or (find (fun k => is_string (get (first_row data) k)) dataKeys)
                  (hd_error dataKeys)
    else xField in
  let yFields := filter (fun f => mem f dataKeys) yFields in
  let yFields :=
    if length yFields =? 0
    then filter (fun k => differs k xField
                          && is_number (get (first_row data) k)) dataKeys
    else yFields in
  (xField, yFields).

(** [renderBarChart(container, config, data)], up to [displayData]; [None]
    when it reports that the data has no usable fields. *)
Definition renderBarChart_displayData (config : ChartConfig)
    (data : list Row) : option (list Row) :=
  let (xField, yFields) := renderBarChart_fields config data in
  if no_field xField || (length yFields =? 0) then None
  else
    let sortedData := sortChartData data xField in
    if (maxBarItems <? length sortedData) && (0 <? length yFields)
    then Some (firstn maxBarItems
                      (js_sort (by_first_y_desc (hd_error yFields))
                               sortedData))
    else Some sortedData.

(** [/年|date|year|month|time/i] *)
Definition re_time_like : re :=
  alts [Chr (only 24180%N); chars_ci (lit "date"); chars_ci (lit "year");
        chars_ci (lit "month"); chars_ci (lit "time")].

(** [Array.from(new Set(l))] *)
Fixpoint dedupe (seen : list str) (l : list str) : list str :=
  match l with
  | [] => []
  | f :: l' =>
      if mem f seen then dedupe seen l' else f :: dedupe (f :: seen) l'
  end.

(** [parseChartFields(config, data)]: [xField] and [yFields]. *)
Definition parseChartFields (config : ChartConfig) (data : list Row)
  : option str * list str :=
  let dataSources := data_sources config in
  let xField :=
    match dataSources with
    | ds0 :: _ => field_or (xAxis ds0) (x_axis ds0)
    | [] => None
    end in
  let yFieldsSet := dedupe [] (flat_map y_fields_of dataSources) in
  let keys := keys_of (first_row data) in
  let xField :=
    if no_field xField || negb (mem (prop_key xField) keys)
    then field_or
           (find (fun k => test re_time_like k
                           && negb (is_number (get (first_row data) k))) keys)
           (field_or
              (find (fun k => is_string (get (first_row data) k)) keys)
              (hd_error keys))
    else xField in
  let yFields := filter (fun f => mem f keys) yFieldsSet in
  let yFields :=
    if length yFields =? 0
    then filter (fun k => differs k xField
                          && is_number (get (first_row data) k)) keys
    else yFields in
  (xField, yFields).

(** [d[xField] != null && d[xField] !== '' && d[xField] !== 'undefined'] *)
Definition has_x (xField : option str) (d : Row) : bool :=
  let v := get d (prop_key xField) in
  negb (nullish v)
  && match v with
     | Some (JStr s) => negb (is_empty s) && negb (str_eqb s (lit "undefined"))
     | _ => true
     end.

(** [buildBarOption(config, data)], up to [displayData]. *)
Definition buildBarOption_displayData (config : ChartConfig)
    (data : list Row) : list Row :=
  let (xField, yFields) := parseChartFields config data in
  let validData := filter (has_x xField) data in
  let sortedData := sortChartData validData xField in
  if 25 <? length sortedData
  then firstn 20 (js_sort (by_first_y_desc (hd_error yFields)) sortedData)
  else sortedData.

(** *** What the specification says of the results *)

(** Rows with a null x value come after all the others. *)
Fixpoint nulls_last (xField : str) (rows : list Row) : bool :=
  match rows with
  | [] => true
  | r :: rows' =>
      if nullish (get r xField)
      then forallb (fun r' => nullish (get r' xField)) rows'
      else nulls_last xField rows'
  end.

(** [a <= b] on numbers that are not NaN *)
Definition num_leb (a b : num) : bool := negb (num_ltb b a).

(** [display] is the top [n] of [data] by the first y value, in
    descending order: it has [n] rows, their values do not increase, and
    the rows of [data] left out have values no greater than any row
    kept. *)
Definition is_top (yField : option str) (n : nat)
    (display data : list Row) : Prop :=
  length display = n
  /\ StronglySorted
       (fun a b => num_leb (y_value yField b) (y_value yField a) = true)
       display
  /\ exists rest,
       Permutation data (display ++ rest)
       /\ Forall (fun r =>
                    Forall (fun d => num_leb (y_value yField r)
                                             (y_value yField d) = true)
                           display) rest.

End WithHost.

(** *** Ticks of the y axis

    [calculateYTicks] is arithmetic on doubles: its numbers are the
    primitive binary64 floats, whose [+], [-], [*], [/] and comparisons
    are the IEEE 754 operations of the source.  [Math.log10], [Math.pow]
    and [Math.round] are not among them; they are computed on the exact
    value of their argument.  The logarithm an engine computes is a
    double near the exact one: for an argument just below a power of
    ten it can be the whole number that the exact logarithm does not
    reach, and the magnitude the engine finds is then ten times the one
    found here. *)

(** The exact value of a double that is finite and not zero. *)
Definition exact_value (s : bool) (m : positive) (e : Z) : Q :=
  ((if s then -1 else 1) * inject_Z (Zpos m) * Qpower 2 e)%Q.

(** The double nearest to an integer. *)
Definition float_of_Z (z : Z) : float :=
  SF2Prim (binary_normalize prec emax z 0 false).

(** The floor of the decimal logarithm of a positive rational, by
    comparison with the powers of ten. *)
Fixpoint log10_up (fuel : nat) (x : Q) (k : Z) : Z :=
  match fuel with
  | O => k
  | S fuel' =>
      if Qle_bool (inject_Z (10 ^ (k + 1))) x
      then log10_up fuel' x (k + 1)%Z
      else k
  end.

Fixpoint log10_down (fuel : nat) (x : Q) (k : Z) : Z :=
  match fuel with
  | O => (- k)%Z
  | S fuel' =>
      if Qle_bool (1 # Z.to_pos (10 ^ k)) x
      then (- k)%Z
      else log10_down fuel' x (k + 1)%Z
  end.

Definition floor_log10 (x : Q) : Z :=
  if Qle_bool 1 x
  then log10_up (Z.to_nat (Z.log2 (Qnum x)) + 1) x 0
  else log10_down (Z.to_nat (Z.log2 (Zpos (Qden x))) + 2) x 1.

(** [Math.pow(10, k)] for an integer [k]: a power of ten, or its
    reciprocal. *)
Definition pow10 (k : Z) : float :=
  if (0 <=? k)%Z then float_of_Z (10 ^ k)
  else (1 / float_of_Z (10 ^ (- k)))%float.

(** [Math.pow(10, Math.floor(Math.log10(x)))]: the logarithm of zero is
    minus infinity, whose power is zero; a negative number has none. *)
Definition magnitude_of (x : float) : float :=
  match Prim2SF x with
  | S754_nan => nan
  | S754_zero _ => 0%float
  | S754_infinity negative => if negative then nan else infinity
  | S754_finite negative m e =>
      if negative then nan
      else pow10 (floor_log10 (exact_value false m e))
  end.

(** [Math.round(x)]: the nearest integer, a half upwards. *)
Definition round (x : float) : float :=
  match Prim2SF x with
  | S754_finite s m e =>
      let z := Qfloor (exact_value s m e + (1 # 2)) in
      if (z =? 0)%Z && s then neg_zero else float_of_Z z
  | _ => x
  end.

(** The step of [calculateYTicks]. *)
Definition niceStep (min max count : float) : float :=
  let range := (max - min)%float in
  let roughStep := (range / (count - 1))%float in
  let magnitude := magnitude_of roughStep in
  let residual := (roughStep / magnitude)%float in
  if (residual <=? 1.5)%float then (1 * magnitude)%float
  else if (residual <=? 3)%float then (2 * magnitude)%float
  else if (residual <=? 7)%float then (5 * magnitude)%float
  else (10 * magnitude)%float.

(** The [for] loop: [n] turns from index [i] on. *)
Fixpoint ticks_from (n : nat) (i : float) (step : float) : list float :=
  match n with
  | O => []
  | S n' =>
      (round (i * step * 100) / 100)%float :: ticks_from n' (i + 1)%float step
  end.

(** [calculateYTicks(min, max, count)] for a count that is a natural
    number. *)
Definition calculateYTicks (min max : float) (count : nat) : list float :=
  let step := niceStep min max (float_of_Z (Z.of_nat count)) in
  ticks_from count 0%float step.

(** *** A host for the examples.  On what the examples hold (numbers, and
    strings of one letter that are neither numbers nor dates) it does what
    a browser does: [parseFloat] returns a number as it is and NaN for
    such a string, no such string is a date, and two such strings compare
    by their code units. *)
Definition sample_chart_host : ChartHost :=
  {| parseFloat := fun v => match v with Some (JNum n) => n | _ => NaN end;
     Date_value := fun _ => NaN;
     number_to_string := fun _ => [];
     object_to_string := fun _ => lit "[object Object]";
     localeCompare := fun a b =>
       match a, b with
       | x :: _, y :: _ => Fin (inject_Z (Z.of_N x - Z.of_N y))
       | [], _ :: _ => Fin (-1)
       | _ :: _, [] => Fin 1
       | [], [] => Fin 0
       end |}.

(** A chart without [data_sources]. *)
Definition no_sources : ChartConfig := {| data_sources := [] |}.

(** Rows [{m: a, v: i}] for [i] from [n] down to 1. *)
Fixpoint sample_rows (n : nat) : list Row :=
  match n with
  | O => []
  | S n' =>
      [(lit "m", JStr (lit "a"));
       (lit "v", JNum (Fin (inject_Z (Z.of_nat n))))] :: sample_rows n'
  end.

End Charts.

(** ** Discoveries and their charts (the report page script) *)

Module Discovery.
Import Js Regex Markdown.

Record Chart := {
  chart_id : option str;
  chart_title : option str;
  chart_type : option str;
  rendered_data : Value.json
}.

Record DiscoveryData := {
  insight : option str;
  content : option str;
  title : option str;
  charts : list Chart;
  data_interpretation : option str
}.

(** What the page takes from the host: [marked], when the library is
    loaded, and the Base64 text of [encodeChartData]. *)
Class PageHost := {
  marked_parse : option (str -> str);
  encodeChartData : Chart -> str
}.

(** [a || b] on strings that may be absent *)
Definition text_or (a : option str) (b : str) : str :=
  match a with
  | Some s => if is_empty s then b else s
  | None => b
  end.

(** [escapeHtml(text)]: the serialization of a text node escapes the
    ampersand, the two angle brackets and the no-break space. *)
Definition escape_unit (c : N) : str :=
  if N.eqb c 38 then lit "&amp;"
  else if N.eqb c 60 then lit "&lt;"
  else if N.eqb c 62 then lit "&gt;"
  else if N.eqb c 160 then lit "&nbsp;"
  else [c].

Definition escapeHtml (text : str) : str := flat_map escape_unit text.

(** [s.replace(pattern, replacement)] for a string pattern: the first
    occurrence is replaced, and in the replacement [$$] stands for a
    dollar, [$&] for the match, [$`] for the text before it and [$'] for
    the text behind it. *)
Fixpoint substitution (matched before after replacement : str) : str :=
  match replacement with
  | [] => []
  | c :: r =>
      match r with
      | d :: r' =>
          if N.eqb c 36 && N.eqb d 36
          then 36%N :: substitution matched before after r'
          else if N.eqb c 36 && N.eqb d 38
          then matched ++ substitution matched before after r'
          else if N.eqb c 36 && N.eqb d 96
          then before ++ substitution matched before after r'
          else if N.eqb c 36 && N.eqb d 39
          then after ++ substitution matched before after r'
          else c :: substitution matched before after r
      | [] => [c]
      end
  end.

Definition replace_first (pattern replacement s : str) : str :=
  match cut_at pattern [] s with
  | Some (before, after) =>
      before ++ substitution pattern before after replacement ++ after
  | None => s
  end.

Definition q : str := [34%N].
Definition nl : str := [LF].
Definition indent (n : nat) : str := repeat 32%N n.

(** The fallback of [renderMarkdown]: [/\*\*(.*?)\*\*/g], [/\*(.*?)\*/g],
    the same between backquotes, and [/\n/g]. *)
Definition re_bold : re :=
  seqs [chars (lit "**"); Group 1 (Star false (Chr dot)); chars (lit "**")].
Definition re_em : re :=
  seqs [chars (lit "*"); Group 1 (Star false (Chr dot)); chars (lit "*")].
Definition re_code : re :=
  seqs [chars (lit "`"); Group 1 (Star false (Chr dot)); chars (lit "`")].
Definition re_newline : re := Chr (only LF).

Section WithHost.
Context {host : PageHost}.

(** [renderMarkdown(text)] *)
Definition renderMarkdown (text : str) : str :=
  if is_empty text then []
  else
    let cleanedText := cleanHtmlAndUrls text in
    let cleanedText := fixMarkdownTables cleanedText in
    match marked_parse with
    | Some parse => parse cleanedText
    | None =>
        let s := replace_all re_bold
                   [Text (lit "<strong>"); Ref 1; Text (lit "</strong>")]
                   cleanedText in
        let s := replace_all re_em
                   [Text (lit "<em>"); Ref 1; Text (lit "</em>")] s in
        let s := replace_all re_code
                   [Text (lit "<code>"); Ref 1; Text (lit "</code>")] s in
        replace_all re_newline [Text (lit "<br>")] s
    end.

(** [renderChartContainer(chart, chartId)] *)
Definition renderChartContainer (chart : Chart) (chartId : str) : str :=
  let encodedData := encodeChartData chart in
  nl ++ indent 8 ++ lit "<div class=" ++ q ++ lit "chart-container" ++ q
  ++ lit ">" ++ nl
  ++ indent 12 ++ lit "<h4 class=" ++ q ++ lit "chart-title" ++ q ++ lit ">"
  ++ escapeHtml (text_or (chart_title chart) [22270; 34920]%N)
  ++ lit "</h4>" ++ nl
  ++ indent 12 ++ lit "<div class=" ++ q ++ lit "chart-wrapper" ++ q
  ++ lit " id=" ++ q ++ chartId ++ q
  ++ lit " data-chart=" ++ q ++ encodedData ++ q ++ lit "></div>" ++ nl
  ++ indent 8 ++ lit "</div>" ++ nl ++ indent 4.

(** [`chart-${index}-${cIndex}`] *)
Definition container_id (index cIndex : nat) : str :=
  lit "chart-" ++ nat_to_str index ++ lit "-" ++ nat_to_str cIndex.

(** [`id="${chartContainerId}"`] *)
Definition id_attribute (index cIndex : nat) : str :=
  lit "id=" ++ q ++ container_id index cIndex ++ q.

(** [`{{CHART:${chartId}}}`] *)
Definition placeholder_of (chart : Chart) (index cIndex : nat) : str :=
  lit "{{CHART:" ++ text_or (chart_id chart) (container_id index cIndex)
  ++ lit "}}".

(** Body of the first [forEach]: the chart's token, or its escaped form,
    is replaced by the chart's container. *)
Definition place_chart (index cIndex : nat) (chart : Chart)
    (insightHtml : str) : str :=
  let placeholder := placeholder_of chart index cIndex in
  let chartHtml := renderChartContainer chart (container_id index cIndex) in
  if includes placeholder insightHtml
  then replace_first placeholder chartHtml insightHtml
  else if includes (escapeHtml placeholder) insightHtml
  then replace_first (escapeHtml placeholder) chartHtml insightHtml
  else insightHtml.

Fixpoint place_charts (index cIndex : nat) (charts : list Chart)
    (insightHtml : str) : str :=
  match charts with
  | [] => insightHtml
  | chart :: charts' =>
      place_charts index (S cIndex) charts'
                   (place_chart index cIndex chart insightHtml)
  end.

(** The second [forEach]: the containers of the charts whose container id
    is not in the insight. *)
Fixpoint append_missing (index cIndex : nat) (charts : list Chart)
    (insightHtml : str) : str :=
  match charts with
  | [] => []
  | chart :: charts' =>
      (if negb (includes (id_attribute index cIndex) insightHtml)
       then renderChartContainer chart (container_id index cIndex)
       else [])
      ++ append_missing index (S cIndex) charts' insightHtml
  end.

(** The insight after the tokens have been replaced. *)
Definition insight_with_charts (discovery : DiscoveryData) (index : nat)
  : str :=
  let insightContent :=
    text_or (insight discovery) (text_or (content discovery) []) in
  place_charts index 0 (charts discovery) (renderMarkdown insightContent).

(** The block that holds the title and the insight. *)
Definition discovery_block (discovery : DiscoveryData) (index : nat)
    (insightHtml : str) : str :=
  nl ++ indent 8 ++ lit "<div class=" ++ q ++ lit "discovery" ++ q
  ++ lit ">" ++ nl
  ++ indent 12 ++ lit "<h3 class=" ++ q ++ lit "discovery-title" ++ q
  ++ lit ">"
  ++ escapeHtml (text_or (title discovery)
                         ([21457; 29616; 32]%N ++ nat_to_str (index + 1)))
  ++ lit "</h3>" ++ nl
  ++ indent 12 ++ lit "<div class=" ++ q
  ++ lit "discovery-content markdown-content" ++ q ++ lit ">" ++ nl
  ++ indent 16 ++ insightHtml ++ nl
  ++ indent 12 ++ lit "</div>" ++ nl ++ indent 4.

(** The interpretation line, behind the lamp sign (U+1F4A1). *)
Definition interpretation_block (discovery : DiscoveryData) : str :=
  match data_interpretation discovery with
  | Some text =>
      if is_empty text then []
      else lit "<div class=" ++ q ++ lit "discovery-interpretation" ++ q
           ++ lit ">" ++ [55357; 56481; 32]%N ++ escapeHtml text
           ++ lit "</div>"
  | None => []
  end.

(** [renderDiscovery(discovery, index)] *)
Definition renderDiscovery (discovery : DiscoveryData) (index : nat) : str :=
  let insightHtml := insight_with_charts discovery index in
  discovery_block discovery index insightHtml
  ++ append_missing index 0 (charts discovery) insightHtml
  ++ interpretation_block discovery
  ++ lit "</div>".

(** The part of a container that carries the chart: its wrapper with the
    encoded chart. *)
Definition wrapper_of (chart : Chart) (index cIndex : nat) : str :=
  id_attribute index cIndex ++ lit " data-chart=" ++ q
  ++ encodeChartData chart ++ q.

End WithHost.

(** A host for the examples: [marked] is not loaded, and the encoding of
    a chart is its id between two signs. *)
Definition sample_page_host : PageHost :=
  {| marked_parse := None;
     encodeChartData := fun chart =>
       lit "B64+" ++ text_or (chart_id chart) [] ++ lit "=" |}.

Definition sample_chart (id title : str) : Chart :=
  {| chart_id := Some id; chart_title := Some title;
     chart_type := Some (lit "bar"); rendered_data := Value.JArr [] |}.

End Discovery.

(** ** Sending a message and reading a report stream (app.js) *)

Module Chat.
Import Js Value Stream.

(** The assistant message of [sendMessage] when there is no data session
    (请先在「数据」页面上传 CSV 文件，然后再开始对话。), and the one that
    reports a request that failed (发生错误: 请求失败). *)
Definition no_session_text : str :=
  [35831; 20808; 22312; 12300; 25968; 25454; 12301; 39029; 38754; 19978;
   20256; 32; 67; 83; 86; 32; 25991; 20214; 65292; 28982; 21518; 20877;
   24320; 22987; 23545; 35805; 12290]%N.

Definition request_failed_text : str :=
  [21457; 29983; 38169; 35823; 58; 32; 35831; 27714; 22833; 36133]%N.

(** [!state.sessionId] *)
Definition no_session (app : AppState) : bool :=
  match sessionId app with
  | Some s => is_empty s
  | None => true
  end.

Definition user_message (content : str) : Message :=
  {| role := lit "user"; text := content |}.

Definition assistant_message (content : str) : Message :=
  {| role := lit "assistant"; text := content |}.

Section WithHost.
Context {host : JsonHost}.

(** [sendMessage()], given the value of the chat input: the request it
    sends, if it sends one, and the session state it leaves.  Every
    [addMessage] pushes its message on [state.messages]. *)
Definition sendMessage (value : str) (response : Response) (app : AppState)
  : option Sent * AppState :=
  let content := trim value in
  if is_empty content || isLoading app then (None, app)
  else if no_session app
  then (None, push_message (assistant_message no_session_text) app)
  else
    let app := push_message (user_message content) app in
    let app := set_loading true app in
    match sendMessageStream content response app with
    | (sent, inl app) => (Some sent, set_loading false app)
    | (sent, inr app) =>
        (* the throw is caught: an assistant message reports it *)
        (Some sent,
         set_loading false
           (push_message (assistant_message request_failed_text) app))
    end.

End WithHost.

(** What [frames] does with a payload: it is added to the log. *)
Definition log_step : str -> list str -> list str :=
  fun data log => log ++ [data].

(** The payloads of the [data: ] lines of a text, in order and without
    the [DONE] sentinel: what the body of [for (const line of lines)]
    hands on, line by line. *)
Definition data_lines (text : str) : list str :=
  fold_left (on_line log_step) (split [LF] text) [].

(** A payload as the server frames it, and a sequence of them. *)
Definition sse_frame (payload : str) : str :=
  data_marker ++ payload ++ frame_delimiter.

Definition sse_text (payloads : list str) : str :=
  flat_map sse_frame payloads.

Definition not_done (payload : str) : bool :=
  negb (str_eqb payload done_sentinel).

(** *** The read loop of [generateReport]: the buffer is cut at every
    line feed, and each line is handled as soon as it is complete. *)

Section ReportLoop.
Variable St : Type.
Variable on_data : str -> St -> St.

Definition report_on_chunk (buffer : str) (value : str) (s : St) : str * St :=
  let buffer := buffer ++ value in
  let (lines, rest) := pop (split [LF] buffer) in
  (rest, fold_left (on_line on_data) lines s).

Fixpoint report_read_loop (chunks : list str) (buffer : str) (s : St) : St :=
  match chunks with
  | [] => s
  | value :: chunks' =>
      let (buffer', s') := report_on_chunk buffer value s in
      report_read_loop chunks' buffer' s'
  end.

End ReportLoop.

(** The payloads the report reader hands on, in order. *)
Definition report_frames (chunks : list str) : list str :=
  report_read_loop log_step chunks [] [].

(** A session that holds twelve messages, [a] to [l]. *)
Definition long_session : AppState :=
  {| sessionId := Some (lit "s1");
     messages := map (fun n => user_message [N.of_nat (97 + n)]) (seq 0 12);
     pendingClarification := None; currentReportId := None;
     currentReport := None; isLoading := false |}.

(** A session in which a clarification is pending. *)
Definition sample_pending : ClarificationState :=
  {| rewritten_request := lit "r"; original_intent := lit "i";
     original_request := lit "o"; messages_context := JNull;
     tool_call_id := Some (lit "t") |}.

End Chat.

(** ** The chart attribute: [encodeChartData] and [decodeChartData]
       (the report page script)

    The two functions are compositions of built-ins, which are modelled
    here as the standards define them: [encodeURIComponent] and
    [decodeURIComponent] (ECMAScript, Encode and Decode), [escape] and
    [unescape] (ECMAScript, Annex B), [btoa] and [atob] (HTML, forgiving
    Base64).  A built-in that throws returns [None]. *)

Module Codec.
Import Js.

Local Open Scope N_scope.

(** *** Hexadecimal digits *)

(** The upper-case digit of a value below 16. *)
Definition hex_digit (d : N) : N :=
  if d <? 10 then 48 + d else 55 + d.

(** The value of a digit in either case. *)
Definition hex_value (c : N) : option N :=
  if (48 <=? c) && (c <=? 57) then Some (c - 48)
  else if (65 <=? c) && (c <=? 70) then Some (c - 55)
  else if (97 <=? c) && (c <=? 102) then Some (c - 87)
  else None.

Definition PERCENT : N := 37.

(** [%XX] for an octet *)
Definition percent_octet (b : N) : str :=
  [PERCENT; hex_digit (b / 16); hex_digit (b mod 16)].

Definition percent_octets (l : list N) : str := flat_map percent_octet l.

(** The value of the two hexadecimal digits at the head of a text. *)
Definition hex2 (s : str) : option N :=
  match s with
  | h :: l :: _ =>
      match hex_value h, hex_value l with
      | Some x, Some y => Some (16 * x + y)
      | _, _ => None
      end
  | _ => None
  end.

(** The value of the four hexadecimal digits at the head of a text. *)
Definition hex4 (s : str) : option N :=
  match s with
  | a :: b :: s' =>
      match hex2 (a :: b :: s'), hex2 s' with
      | Some x, Some y => Some (256 * x + y)
      | _, _ => None
      end
  | _ => None
  end.

(** *** UTF-16 and UTF-8 *)

Definition is_high_surrogate (c : N) : bool := (55296 <=? c) && (c <=? 56319).
Definition is_low_surrogate (c : N) : bool := (56320 <=? c) && (c <=? 57343).

(** The code point of a surrogate pair. *)
Definition pair_code_point (lead trail : N) : N :=
  (lead - 55296) * 1024 + (trail - 56320) + 65536.

(** The code units of a code point. *)
Definition utf16 (cp : N) : str :=
  if cp <? 65536 then [cp]
  else [55296 + (cp - 65536) / 1024; 56320 + (cp - 65536) mod 1024].

(** The octets of a code point. *)
Definition utf8 (cp : N) : list N :=
  if cp <? 128 then [cp]
  else if cp <? 2048 then [192 + cp / 64; 128 + cp mod 64]
  else if cp <? 65536
  then [224 + cp / 4096; 128 + (cp / 64) mod 64; 128 + cp mod 64]
  else [240 + cp / 262144; 128 + (cp / 4096) mod 64;
        128 + (cp / 64) mod 64; 128 + cp mod 64].

(** The number of leading 1 bits of an octet, as far as it matters: more
    than four is five. *)
Definition leading_ones (b : N) : nat :=
  if b <? 128 then 0%nat
  else if b <? 192 then 1%nat
  else if b <? 224 then 2%nat
  else if b <? 240 then 3%nat
  else if b <? 248 then 4%nat
  else 5%nat.

Definition is_continuation (b : N) : bool := (128 <=? b) && (b <? 192).

(** The code point of a sequence of octets, when the sequence is the
    UTF-8 encoding of one: the shortest encoding of a code point that is
    no surrogate and not above U+10FFFF. *)
Definition utf8_decode (octets : list N) : option N :=
  match octets with
  | [b1; b2] =>
      let cp := (b1 - 192) * 64 + (b2 - 128) in
      if (leading_ones b1 =? 2)%nat && is_continuation b2 && (128 <=? cp)
      then Some cp else None
  | [b1; b2; b3] =>
      let cp := (b1 - 224) * 4096 + (b2 - 128) * 64 + (b3 - 128) in
      if (leading_ones b1 =? 3)%nat && is_continuation b2
         && is_continuation b3 && (2048 <=? cp)
         && negb ((55296 <=? cp) && (cp <=? 57343))
      then Some cp else None
  | [b1; b2; b3; b4] =>
      let cp := (b1 - 240) * 262144 + (b2 - 128) * 4096 + (b3 - 128) * 64
                + (b4 - 128) in
      if (leading_ones b1 =? 4)%nat && is_continuation b2
         && is_continuation b3 && is_continuation b4
         && (65536 <=? cp) && (cp <=? 1114111)
      then Some cp else None
  | _ => None
  end.

(** The code points of a string; [None] when a surrogate is unpaired. *)
Fixpoint code_points (s : str) : option (list N) :=
  match s with
  | [] => Some []
  | c :: rest =>
      if is_low_surrogate c then None
      else if is_high_surrogate c
      then match rest with
           | d :: rest' =>
               if is_low_surrogate d
               then option_map (cons (pair_code_point c d))
                               (code_points rest')
               else None
           | [] => None
           end
      else option_map (cons c) (code_points rest)
  end.

(** *** [encodeURIComponent] and [unescape] *)

Definition alphanumeric (c : N) : bool :=
  ((48 <=? c) && (c <=? 57)) || ((65 <=? c) && (c <=? 90))
  || ((97 <=? c) && (c <=? 122)).

(** The characters [encodeURIComponent] leaves as they are. *)
Definition uri_unescaped (c : N) : bool :=
  alphanumeric c
  || existsb (N.eqb c) [45; 95; 46; 33; 126; 42; 39; 40; 41].

(** [encodeURIComponent(s)]: a character that is not left as it is is
    replaced by the escaped octets of its code point; an unpaired
    surrogate throws. *)
Fixpoint encodeURIComponent (s : str) : option str :=
  match s with
  | [] => Some []
  | c :: rest =>
      if uri_unescaped c
      then option_map (cons c) (encodeURIComponent rest)
      else if is_low_surrogate c then None
      else if is_high_surrogate c
      then match rest with
           | d :: rest' =>
               if is_low_surrogate d
               then option_map
                      (app (percent_octets (utf8 (pair_code_point c d))))
                      (encodeURIComponent rest')
               else None
           | [] => None
           end
      else option_map (app (percent_octets (utf8 c)))
                      (encodeURIComponent rest)
  end.

(** [unescape(s)]: [%uXXXX] and [%XX] stand for the code unit of that
    value; [skip] counts the code units of an escape still to pass
    over. *)
Fixpoint unescape_from (skip : nat) (s : str) : str :=
  match s with
  | [] => []
  | c :: rest =>
      match skip with
      | S k => unescape_from k rest
      | O =>
          if c =? PERCENT
          then
            match rest with
            | u :: digits =>
                match (if u =? 117 then hex4 digits else None) with
                | Some v => v :: unescape_from 5 rest
                | None =>
                    match hex2 rest with
                    | Some v => v :: unescape_from 2 rest
                    | None => c :: unescape_from 0 rest
                    end
                end
            | [] => [c]
            end
          else c :: unescape_from 0 rest
      end
  end.

Definition unescape (s : str) : str := unescape_from 0 s.

(** *** [escape] and [decodeURIComponent] *)

(** The characters [escape] leaves as they are. *)
Definition escape_unescaped (c : N) : bool :=
  alphanumeric c || existsb (N.eqb c) [64; 42; 95; 43; 45; 46; 47].

Definition escape_unit (c : N) : str :=
  if escape_unescaped c then [c]
  else if c <? 256 then percent_octet c
  else [PERCENT; 117; hex_digit (c / 4096); hex_digit ((c / 256) mod 16);
        hex_digit ((c / 16) mod 16); hex_digit (c mod 16)].

(** [escape(s)] *)
Definition escape (s : str) : str := flat_map escape_unit s.

(** The octets of [n] escapes [%XX] in a row at the head of a text. *)
Fixpoint percent_run (n : nat) (s : str) : option (list N) :=
  match n with
  | O => Some []
  | S n' =>
      match s with
      | p :: rest =>
          if p =? PERCENT
          then match hex2 rest with
               | Some b => option_map (cons b) (percent_run n' (skipn 2 rest))
               | None => None
               end
          else None
      | [] => None
      end
  end.

(** [decodeURIComponent(s)]: an escape below 128 stands for that
    character; an escape with [n] leading 1 bits starts a sequence of [n]
    escapes that stand for the code point they encode in UTF-8.  Anything
    else behind a percent sign throws. *)
Fixpoint decodeURIComponent_from (skip : nat) (s : str) : option str :=
  match s with
  | [] => Some []
  | c :: rest =>
      match skip with
      | S k => decodeURIComponent_from k rest
      | O =>
          if c =? PERCENT
          then
            match hex2 rest with
            | None => None
            | Some b =>
                match leading_ones b with
                | O => option_map (cons b) (decodeURIComponent_from 2 rest)
                | S O => None
                | S (S m) =>
                    if (2 <? m)%nat then None
                    else
                      match percent_run (S m) (skipn 2 rest) with
                      | None => None
                      | Some more =>
                          match utf8_decode (b :: more) with
                          | None => None
                          | Some cp =>
                              option_map
                                (app (utf16 cp))
                                (decodeURIComponent_from (3 * S m + 2) rest)
                          end
                      end
                end
            end
          else option_map (cons c) (decodeURIComponent_from 0 rest)
      end
  end.

Definition decodeURIComponent (s : str) : option str :=
  decodeURIComponent_from 0 s.

(** *** Base64 *)

Definition EQUALS : N := 61.

(** The character of a 6-bit value. *)
Definition b64_char (v : N) : N :=
  if v <? 26 then 65 + v
  else if v <? 52 then 71 + v
  else if v <? 62 then v - 4
  else if v =? 62 then 43
  else 47.

(** The 6-bit value of a character of the alphabet. *)
Definition b64_value (c : N) : option N :=
  if (65 <=? c) && (c <=? 90) then Some (c - 65)
  else if (97 <=? c) && (c <=? 122) then Some (c - 71)
  else if (48 <=? c) && (c <=? 57) then Some (c + 4)
  else if c =? 43 then Some 62
  else if c =? 47 then Some 63
  else None.

Fixpoint btoa_octets (l : list N) : str :=
  match l with
  | [] => []
  | [a] => [b64_char (a / 4); b64_char ((a mod 4) * 16); EQUALS; EQUALS]
  | [a; b] =>
      [b64_char (a / 4); b64_char ((a mod 4) * 16 + b / 16);
       b64_char ((b mod 16) * 4); EQUALS]
  | a :: b :: c :: rest =>
      b64_char (a / 4) :: b64_char ((a mod 4) * 16 + b / 16)
      :: b64_char ((b mod 16) * 4 + c / 64) :: b64_char (c mod 64)
      :: btoa_octets rest
  end.

(** [btoa(s)]: a code unit above 255 throws. *)
Definition btoa (s : str) : option str :=
  if forallb (fun c => c <=? 255) s then Some (btoa_octets s) else None.

Definition ascii_whitespace (c : N) : bool :=
  existsb (N.eqb c) [9; 10; 12; 13; 32].

(** A text whose length is a multiple of four loses one or two equals
    signs at its end. *)
Definition strip_padding (s : str) : str :=
  if (length s mod 4 =? 0)%nat
  then match rev s with
       | x :: y :: r =>
           if x =? EQUALS
           then if y =? EQUALS then rev r else rev (y :: r)
           else s
       | [x] => if x =? EQUALS then [] else s
       | [] => s
       end
  else s.

(** The 6-bit values of a text of the alphabet. *)
Fixpoint b64_values (s : str) : option (list N) :=
  match s with
  | [] => Some []
  | c :: s' =>
      match b64_value c, b64_values s' with
      | Some v, Some l => Some (v :: l)
      | _, _ => None
      end
  end.

(** The octets of a sequence of 6-bit values: three of every four, and
    of a rest of two or three values the whole octets they hold. *)
Fixpoint atob_octets (l : list N) : list N :=
  match l with
  | a :: b :: c :: d :: rest =>
      (a * 4 + b / 16) :: ((b mod 16) * 16 + c / 4) :: ((c mod 4) * 64 + d)
      :: atob_octets rest
  | [a; b; c] => [a * 4 + b / 16; (b mod 16) * 16 + c / 4]
  | [a; b] => [a * 4 + b / 16]
  | _ => []
  end.

(** [atob(s)]: a length that leaves a rest of one, or a character that
    is not of the alphabet, throws. *)
Definition atob (s : str) : option str :=
  let data := filter (fun c => negb (ascii_whitespace c)) s in
  let data := strip_padding data in
  if (length data mod 4 =? 1)%nat then None
  else option_map atob_octets (b64_values data).

(** *** The two functions *)

(** [JSON.stringify] and [JSON.parse] of the host, on the values that
    charts are; [None] is a throw (and, for [parse], a null). *)
Class JsonText (A : Type) := {
  JSON_stringify : A -> option str;
  JSON_parse : str -> option A
}.

(** [btoa(unescape(encodeURIComponent(jsonStr)))] *)
Definition encode_text (jsonStr : str) : option str :=
  match encodeURIComponent jsonStr with
  | Some escaped => btoa (unescape escaped)
  | None => None
  end.

(** [decodeURIComponent(escape(atob(encoded)))] *)
Definition decode_text (encoded : str) : option str :=
  match atob encoded with
  | Some binary => decodeURIComponent (escape binary)
  | None => None
  end.

Section WithHost.
Context {A : Type} {host : JsonText A}.

(** [encodeChartData(chart)]: the empty string when anything throws. *)
Definition encodeChartData (chart : A) : str :=
  match JSON_stringify chart with
  | Some jsonStr =>
      match encode_text jsonStr with
      | Some encoded => encoded
      | None => []
      end
  | None => []
  end.

(** [decodeChartData(encoded)]: null when anything throws. *)
Definition decodeChartData (encoded : str) : option A :=
  match decode_text encoded with
  | Some jsonStr => JSON_parse jsonStr
  | None => None
  end.

End WithHost.

(** A scalar value: a code point that is no surrogate. *)
Definition scalar (cp : N) : Prop :=
  cp < 1114112 /\ ~ (55296 <= cp <= 57343).

(** A string of 16-bit code units in which every surrogate is paired. *)
Definition well_formed (s : str) : bool :=
  forallb (fun c => c <? 65536) s
  && match code_points s with Some _ => true | None => false end.

(** A character of the Base64 alphabet, or the padding sign. *)
Definition b64_safe (c : N) : bool :=
  match b64_value c with
  | Some _ => true
  | None => c =? EQUALS
  end.

(** A host for the examples: a chart is its JSON text. *)
Definition text_host : JsonText str :=
  {| JSON_stringify := fun s => Some s; JSON_parse := fun s => Some s |}.

End Codec.

(** ** Preparing chart data: sampling and order (the report page script) *)

Module ChartPrep.
Import Js Value Regex Charts.

(** [CHART_CONFIG.maxLineItems] *)
Definition maxLineItems : nat := 30.

(** [Math.ceil(a / b)] on array lengths.  An array length is an integer
    below 2^32, and the double nearest to the quotient of two such
    integers lies above the same integers as the quotient itself. *)
Definition ceil_div (a b : nat) : nat := (a + b - 1) / b.

(** [a.filter((_, i) => i % step === 0)], on the elements from index [i]
    on. *)
Fixpoint every_nth {A : Type} (step i : nat) (l : list A) : list A :=
  match l with
  | [] => []
  | x :: l' =>
      if i mod step =? 0 then x :: every_nth step (S i) l'
      else every_nth step (S i) l'
  end.

(** The down-sampling of [renderLineChart]. *)
Definition downsample {A : Type} (sortedData : list A) : list A :=
  let maxItems := maxLineItems in
  if maxItems <? length sortedData
  then
    let step := ceil_div (length sortedData) maxItems in
    firstn maxItems (every_nth step 0 sortedData)
  else sortedData.

Section WithHost.
Context {host : ChartHost}.

(** [renderLineChart(container, config, data)], up to [displayData]; the
    fields are parsed by the statements [renderBarChart] parses them
    with.  [None] when it reports that the data has no usable fields. *)
Definition renderLineChart_displayData (config : ChartConfig)
    (data : list Row) : option (list Row) :=
  let (xField, yFields) := renderBarChart_fields config data in
  if no_field xField || (length yFields =? 0) then None
  else Some (downsample (sortChartData data xField)).

(** The number the comparator of [sortChartData] takes from a row in the
    date mode and in the number mode. *)
Definition sort_key (mode : SortMode) (xField : str) (row : Row) : num :=
  match mode with
  | ByDate =>
      Date_value (replace_all re_slash [Text (lit "-")]
                              (to_string (get row xField)))
  | ByNumber => parseFloat (get row xField)
  | ByText => NaN
  end.

(** A row has an x value whose key is a number. *)
Definition keyed (mode : SortMode) (xField : str) (row : Row) : Prop :=
  nullish (get row xField) = false
  /\ is_NaN (sort_key mode xField row) = false.

(** [a] may stand before [b]: its key is not the greater one. *)
Definition in_order (mode : SortMode) (xField : str) (a b : Row) : Prop :=
  num_leb (sort_key mode xField a) (sort_key mode xField b) = true.

(** The key of a row is the number [v]: neither is less than the
    other. *)
Definition has_key (mode : SortMode) (xField : str) (v : num) (row : Row)
  : bool :=
  negb (is_NaN v)
  && negb (num_ltb (sort_key mode xField row) v)
  && negb (num_ltb v (sort_key mode xField row)).

End WithHost.

(** Rows [{x: i}] for [i] from [n] down to 1. *)
Fixpoint countdown_rows (n : nat) : list Row :=
  match n with
  | O => []
  | S n' =>
      [(lit "x", JNum (Fin (inject_Z (Z.of_nat n))));
       (lit "v", JNum (Fin 1))] :: countdown_rows n'
  end.

End ChartPrep.

(** ** Runs of a character class *)

Module Runs.
Import Js Regex Markdown.

(** What is left of a text behind the longest run of [p] at its head: the
    end of a greedy match of [[p]*]. *)
Fixpoint skip_while (p : N -> bool) (s : str) : str :=
  match s with
  | c :: s' => if p c then skip_while p s' else s
  | [] => []
  end.

(** The first code unit of a text is not in [p]. *)
Definition head_outside (p : N -> bool) (s : str) : bool :=
  match s with
  | c :: _ => negb (p c)
  | [] => true
  end.

(** No tab, and no two spaces in a row. *)
Definition squeezed (s : str) : bool :=
  free_of (only TAB) s && no_adjacent (only 32%N) s.

End Runs.

(* ================================================================== *)
(** * Part II. Properties                                               *)
(* ================================================================== *)

(** ** Splitting on a separator *)

Module SplitFacts.
Import Js.

Lemma startsWith_app (p v : str) : startsWith p (p ++ v) = true.
Proof.
  induction p as [|x p IH]; simpl; [reflexivity|].
  now rewrite N.eqb_refl, IH.
Qed.

Lemma startsWith_inv (p s : str) :
  startsWith p s = true -> s = p ++ skipn (length p) s.
Proof.
  revert s; induction p as [|x p IH]; intros [|y s]; simpl; try easy.
  intros H. apply andb_prop in H as [Hxy Hp].
  apply N.eqb_eq in Hxy. subst y. f_equal. now apply IH.
Qed.

(** Whether [p] starts a text is decided by the first [length p] code
    units of the text. *)
Lemma startsWith_long (p a x y : str) :
  length p <= length a ->
  startsWith p (a ++ x) = startsWith p (a ++ y).
Proof.
  revert a; induction p as [|c p IH]; intros [|d a] Hlen; simpl in *;
    try reflexivity; try lia.
  rewrite (IH a) by lia. reflexivity.
Qed.

Lemma split_scan_skip (sep w v acc : str) :
  split_scan sep (length w) acc (w ++ v) = split_scan sep 0 acc v.
Proof.
  induction w as [|c w IH]; simpl; [|exact IH].
  destruct v; reflexivity.
Qed.

(** At a position where the separator starts, the segment is emitted and
    the scan goes on behind the separator. *)
Lemma split_scan_match (x : N) (sep' acc v : str) :
  split_scan (x :: sep') 0 acc ((x :: sep') ++ v)
  = rev acc :: split_scan (x :: sep') 0 [] v.
Proof.
  simpl. rewrite N.eqb_refl, startsWith_app. simpl.
  rewrite Nat.sub_0_r. f_equal. apply split_scan_skip.
Qed.

Lemma includes_nil_false (x : N) (sep' : str) :
  includes (x :: sep') [] = false.
Proof. reflexivity. Qed.

(** A text without the separator is a single segment. *)
Lemma split_scan_absent (sep t acc : str) :
  includes sep t = false ->
  split_scan sep 0 acc t = [rev acc ++ t].
Proof.
  revert acc; induction t as [|c t IH]; intros acc H.
  - simpl. now rewrite app_nil_r.
  - simpl in H. apply orb_false_iff in H as [Hs Hi].
    change (split_scan sep 0 acc (c :: t))
      with (if startsWith sep (c :: t)
            then rev acc :: split_scan sep (length sep - 1) [] t
            else split_scan sep 0 (c :: acc) t).
    rewrite Hs, IH by assumption. simpl. now rewrite <- app_assoc.
Qed.

(** A text with the separator splits at its first occurrence, whatever
    follows the occurrence. *)
Lemma split_scan_first (x : N) (sep' t acc : str) :
  includes (x :: sep') t = true ->
  exists u v,
    t = u ++ (x :: sep') ++ v /\
    forall w, split_scan (x :: sep') 0 acc (u ++ (x :: sep') ++ w)
              = (rev acc ++ u) :: split_scan (x :: sep') 0 [] w.
Proof.
  set (sep := x :: sep').
  revert acc; induction t as [|c t IH]; intros acc H.
  - discriminate.
  - cbn [includes] in H.
    destruct (startsWith sep (c :: t)) eqn:Hs.
    + exists [], (skipn (length sep) (c :: t)). split.
      * exact (startsWith_inv sep (c :: t) Hs).
      * intros w. rewrite app_nil_r. apply split_scan_match.
    + simpl in H. destruct (IH (c :: acc) H) as (u & v & Ht & Hw).
      exists (c :: u), v. split.
      * simpl. now rewrite Ht.
      * intros w.
        change (split_scan sep 0 acc ((c :: u) ++ sep ++ w))
          with (if startsWith sep (c :: (u ++ sep ++ w))
                then rev acc :: split_scan sep (length sep - 1) []
                                           (u ++ sep ++ w)
                else split_scan sep 0 (c :: acc) (u ++ sep ++ w)).
        assert (Hs' : startsWith sep (c :: u ++ sep ++ w) = false).
        { rewrite <- Hs, Ht.
          change (c :: u ++ sep ++ w) with ((c :: u) ++ sep ++ w).
          change (c :: u ++ sep ++ v) with ((c :: u) ++ sep ++ v).
          rewrite !app_assoc.
          apply startsWith_long. rewrite length_app. simpl. lia. }
        rewrite Hs', Hw. simpl. now rewrite <- app_assoc.
Qed.

Lemma split_scan_nonempty (sep : str) k acc t : split_scan sep k acc t <> [].
Proof.
  revert k acc; induction t as [|c t IH]; intros k acc; simpl.
  - discriminate.
  - destruct k; [|apply IH].
    destruct (startsWith sep (c :: t)); [discriminate|apply IH].
Qed.

Lemma removelast_cons_ne {A} (a : A) (l : list A) :
  l <> [] -> removelast (a :: l) = a :: removelast l.
Proof. destruct l; [easy|reflexivity]. Qed.

Lemma last_cons_ne {A} (a d : A) (l : list A) :
  l <> [] -> last (a :: l) d = last l d.
Proof. destruct l; [easy|reflexivity]. Qed.

Lemma removelast_app_ne {A} (l1 l2 : list A) :
  l2 <> [] -> removelast (l1 ++ l2) = l1 ++ removelast l2.
Proof. intros H. now apply removelast_app. Qed.

(** Splitting a text that arrives in two parts: the complete segments of
    the first part are final, and its last segment is split again with
    the second part behind it. *)
Lemma split_scan_app (x : N) (sep' : str) (t1 t2 : str) :
  let sep := x :: sep' in
  split_scan sep 0 [] (t1 ++ t2)
  = removelast (split_scan sep 0 [] t1)
    ++ split_scan sep 0 [] (last (split_scan sep 0 [] t1) [] ++ t2).
Proof.
  intros sep.
  remember (length t1) as n eqn:Hn.
  revert t1 Hn. induction n as [n IH] using lt_wf_ind. intros t1 Hn.
  destruct (includes sep t1) eqn:Hi.
  - destruct (split_scan_first x sep' t1 [] Hi) as (u & v & Ht & Hw).
    fold sep in Ht, Hw. subst t1.
    rewrite <- !app_assoc. rewrite (Hw (v ++ t2)), (Hw v).
    rewrite removelast_cons_ne by apply split_scan_nonempty.
    rewrite last_cons_ne by apply split_scan_nonempty.
    rewrite <- app_comm_cons. f_equal.
    apply (IH (length v)); [|reflexivity].
    rewrite Hn, !length_app. simpl. lia.
  - rewrite (split_scan_absent sep t1 [] Hi). reflexivity.
Qed.

(** The segment kept as the new buffer holds no separator. *)
Lemma split_scan_last_absent (x : N) (sep' : str) (t : str) :
  includes (x :: sep') (last (split_scan (x :: sep') 0 [] t) []) = false.
Proof.
  set (sep := x :: sep').
  remember (length t) as n eqn:Hn.
  revert t Hn. induction n as [n IH] using lt_wf_ind. intros t Hn.
  destruct (includes sep t) eqn:Hi.
  - destruct (split_scan_first x sep' t [] Hi) as (u & v & Ht & Hw).
    fold sep in Ht, Hw. subst t. rewrite (Hw v).
    rewrite last_cons_ne by apply split_scan_nonempty.
    apply (IH (length v)); [|reflexivity].
    rewrite Hn, !length_app. simpl. lia.
  - rewrite (split_scan_absent sep t [] Hi). simpl. exact Hi.
Qed.

End SplitFacts.

(** ** Frame reassembly *)

Module FrameFacts.
Import Js Stream SplitFacts.

Section Loop.
Variable St : Type.
Variable on_data : str -> St -> St.

(** The loop applies the message handler to the complete segments of the
    text that the buffer and the chunks make up. *)
Lemma read_loop_spec (chunks : list str) (buffer : str) (s : St) :
  includes frame_delimiter buffer = false ->
  read_loop on_data chunks buffer s
  = fold_left (on_message on_data)
              (complete_messages (buffer ++ concat chunks)) s.
Proof.
  revert buffer s; induction chunks as [|c cs IH]; intros buffer s Hb.
  - simpl. rewrite app_nil_r. unfold complete_messages, split; simpl.
    change (split_scan frame_delimiter 0 [] buffer)
      with (split_scan frame_delimiter 0 [] buffer).
    unfold frame_delimiter in *.
    rewrite (split_scan_absent _ buffer [] Hb). reflexivity.
  - simpl. unfold on_chunk, pop.
    rewrite IH.
    + rewrite <- fold_left_app. f_equal.
      unfold complete_messages, split, frame_delimiter.
      rewrite (app_assoc buffer c (concat cs)).
      rewrite (split_scan_app LF [LF] (buffer ++ c) (concat cs)).
      cbv zeta.
      rewrite removelast_app_ne by apply split_scan_nonempty.
      reflexivity.
    + unfold split, frame_delimiter. apply split_scan_last_absent.
Qed.

End Loop.

(** C1. Frame reassembly does not depend on how the stream is cut into
    chunks: whatever is done with the payloads, the read loop fed the
    chunks one after the other ends in the state it ends in when fed the
    whole text at once; in particular the sequence of frames is the same,
    also when the text arrives one code unit at a time, and so is the
    sequence of decoded events for any JSON parser. *)
Theorem frame_reassembly_chunking_invariant :
  (forall (St : Type) (on_data : str -> St -> St) (chunks : list str) (s : St),
      read_loop on_data chunks [] s
      = read_loop on_data [concat chunks] [] s)
  /\ (forall chunks : list str, frames chunks = frames [concat chunks])
  /\ (forall text : str,
         frames (map (fun c => [c]) text) = frames [text])
  /\ (forall (host : JsonHost) (chunks : list str),
         decoded_frames chunks = decoded_frames [concat chunks]).
Proof.
  assert (H : forall (St : Type) (on_data : str -> St -> St) chunks (s : St),
             read_loop on_data chunks [] s
             = read_loop on_data [concat chunks] [] s).
  { intros St on_data chunks s.
    rewrite !read_loop_spec by reflexivity.
    simpl. now rewrite app_nil_r. }
  split; [exact H|].
  split; [intros chunks; apply H|].
  split.
  - intros text. unfold frames. rewrite H.
    replace (concat (map (fun c => [c]) text)) with text; [reflexivity|].
    induction text as [|c t IHt]; simpl; [reflexivity|now f_equal].
  - intros host chunks. unfold decoded_frames, frames. now rewrite H.
Qed.

End FrameFacts.

(** ** Event dispatch and the draft *)

Module DispatchFacts.
Import Js Value Stream Dispatch FrameFacts SplitFacts.

Lemma apply_events_app (xs ys : list StreamEvent) st :
  apply_events (xs ++ ys) st = apply_events ys (apply_events xs st).
Proof. unfold apply_events. apply fold_left_app. Qed.

Lemma apply_events_cons e (es : list StreamEvent) st :
  apply_events (e :: es) st = apply_events es (handleStreamEvent e st).
Proof. reflexivity. Qed.

(** The fields of the draft after an event sequence, from any draft. *)
Lemma draft_after_events (events : list StreamEvent) :
  forall (app : AppState) (d : StreamState),
    let d' := snd (apply_events events (app, d)) in
    thinking d' = thinking d ++ thinking_deltas events
    /\ analysis d' = analysis d ++ analysis_deltas events
    /\ sql d'
       = fold_left (fun acc e => match e with EvSql s => Some s | _ => acc end)
                   events (sql d)
    /\ data d'
       = fold_left (fun acc e => match e with EvData j => j | _ => acc end)
                   events (data d)
    /\ content d'
       = match after_last_clarification events with
         | Some post => waiting_for_confirmation ++ content_deltas post
         | None => content d ++ content_deltas events
         end.
Proof.
  induction events as [|e es IH]; intros app d.
  - simpl. now rewrite !app_nil_r.
  - cbv zeta. rewrite apply_events_cons.
    destruct (handleStreamEvent e (app, d)) as [app1 d1] eqn:He.
    specialize (IH app1 d1). cbv zeta in IH.
    destruct IH as (Ht & Ha & Hs & Hd & Hc).
    rewrite Ht, Ha, Hs, Hd, Hc. clear Ht Ha Hs Hd Hc.
    cbn [after_last_clarification].
    destruct (after_last_clarification es) as [post|];
      destruct e; simpl in He;
      try (destruct report as [r|]; [destruct (truthy r)|]);
      inversion He; subst; simpl;
      rewrite <- ?app_assoc; repeat split; reflexivity.
Qed.

(** The read loop hands the decoded frames, in order, to the
    dispatcher. *)
Lemma on_line_log (St : Type) (on_data : str -> St -> St) line :
  forall (s : St) (log : list str),
    on_line on_data s line
    = fold_left (fun s d => on_data d s)
                (on_line (fun d l => l ++ [d]) [] line) s
    /\ on_line (fun d l => l ++ [d]) log line
       = log ++ on_line (fun d l => l ++ [d]) [] line.
Proof.
  intros s log. unfold on_line.
  destruct (startsWith data_marker line); cbn [negb];
    [|split; [reflexivity|now rewrite app_nil_r]].
  destruct (str_eqb (slice_from 6 line) done_sentinel);
    [split; [reflexivity|now rewrite app_nil_r]|]. split; reflexivity.
Qed.

Lemma fold_log (A St : Type) (step : St -> A -> St)
      (logstep : list str -> A -> list str) (on_data : str -> St -> St) :
  (forall s log a,
      step s a = fold_left (fun s d => on_data d s) (logstep [] a) s
      /\ logstep log a = log ++ logstep [] a) ->
  forall (l : list A) s log,
    fold_left step l s
    = fold_left (fun s d => on_data d s) (fold_left logstep l []) s
    /\ fold_left logstep l log = log ++ fold_left logstep l [].
Proof.
  intros H l. induction l as [|a l IH]; intros s log.
  - simpl. split; [reflexivity|now rewrite app_nil_r].
  - simpl. destruct (H s log a) as [H1 H2].
    destruct (IH (step s a) (logstep log a)) as [I1 I2].
    destruct (IH s (logstep [] a)) as [_ I3].
    split.
    + rewrite I1, I3, fold_left_app, <- H1. reflexivity.
    + rewrite I2, I3, H2. now rewrite app_assoc.
Qed.

Lemma on_message_log (St : Type) (on_data : str -> St -> St) :
  forall (s : St) (log : list str) message,
    on_message on_data s message
    = fold_left (fun s d => on_data d s)
                (on_message (fun d l => l ++ [d]) [] message) s
    /\ on_message (fun d l => l ++ [d]) log message
       = log ++ on_message (fun d l => l ++ [d]) [] message.
Proof.
  intros s log message. unfold on_message.
  destruct (is_empty (trim message));
    [simpl; split; [reflexivity|now rewrite app_nil_r]|].
  refine (fold_log (on_line on_data) (on_line (fun d l => l ++ [d])) on_data
                   _ _ s log).
  intros s0 log0 a. apply on_line_log.
Qed.

Lemma read_loop_frames (St : Type) (on_data : str -> St -> St)
      (chunks : list str) (s : St) :
  read_loop on_data chunks [] s
  = fold_left (fun s d => on_data d s) (frames chunks) s.
Proof.
  unfold frames. rewrite !read_loop_spec by reflexivity.
  refine (proj1 (fold_log (on_message on_data)
                          (on_message (fun d l => l ++ [d])) on_data
                          _ _ s [])).
  intros s0 log0 a. apply on_message_log.
Qed.

Lemma read_loop_dispatch (host : JsonHost) (chunks : list str) st :
  read_loop dispatch_payload chunks [] st
  = apply_events (decoded_frames chunks) st.
Proof.
  rewrite read_loop_frames. unfold decoded_frames, apply_events.
  generalize (frames chunks) st. clear.
  induction l as [|d l IH]; intros st; [reflexivity|].
  simpl. rewrite fold_left_app, <- IH. f_equal.
  unfold dispatch_payload. destruct (JSON_parse d); reflexivity.
Qed.

(** C2 as stated fails: a [clarification] event overwrites the content
    accumulated so far, so the final content is not the concatenation of
    the content deltas. *)
Lemma draft_fields_counterexample :
  let c := {| ev_rewritten_request := None; ev_original_intent := None;
              ev_original_request := None; ev_messages_context := None;
              ev_tool_call_id := None |} in
  let events := [EvContent (lit "a"); EvClarification c] in
  content (snd (apply_events events (idle_session, fresh_draft)))
  = waiting_for_confirmation
  /\ content_deltas events = lit "a"
  /\ content (snd (apply_events events (idle_session, fresh_draft)))
     <> content_deltas events.
Proof.
  cbv zeta. split; [reflexivity|]. split; [reflexivity|].
  vm_compute. discriminate.
Qed.

(** C2, amended.  For every event sequence applied to a fresh draft:
    thinking and analysis are the in-order concatenations of their delta
    payloads; sql is the payload of the last [sql] event and data the
    payload of the last [data] event (null without one); content is the
    concatenation of the content deltas when the sequence has no
    [clarification] event, and otherwise the waiting text followed by the
    content deltas behind the last [clarification] event. *)
Theorem draft_fields_after_events :
  forall (events : list StreamEvent) (app : AppState),
    let d := snd (apply_events events (app, fresh_draft)) in
    thinking d = thinking_deltas events
    /\ analysis d = analysis_deltas events
    /\ sql d = last_sql events
    /\ data d = last_data events
    /\ content d
       = match after_last_clarification events with
         | Some post => waiting_for_confirmation ++ content_deltas post
         | None => content_deltas events
         end.
Proof.
  intros events app.
  exact (draft_after_events events app fresh_draft).
Qed.

(** C9 as stated fails: the dispatcher has no terminal state, and a
    [content] event behind an [error] event is appended to the draft; the
    read loop goes on after an [error] frame as well. *)
Lemma error_not_terminal_counterexample :
  let events := [EvError None; EvContent (lit "x")] in
  snd (apply_events events (idle_session, fresh_draft))
  <> snd (apply_events [EvError None] (idle_session, fresh_draft))
  /\ content (snd (apply_events events (idle_session, fresh_draft))) = lit "x"
  /\ content (snd (@read_loop _ (@dispatch_payload sample_host)
                     [lit "data: " ++ sample_error_payload ++ [LF; LF]
                      ++ lit "data: " ++ sample_content_payload ++ [LF; LF]]
                     [] (idle_session, fresh_draft))) = lit "x".
Proof.
  cbv zeta. split; [vm_compute; discriminate|].
  split; vm_compute; reflexivity.
Qed.

(** C9, amended.  An [error] event changes neither the draft nor the
    session state, and it does not end the exchange: the events around it
    are applied as if it were not there, and the read loop applies every
    decoded frame of the stream, whatever comes before it. *)
Theorem error_event_leaves_draft :
  (forall message st, handleStreamEvent (EvError message) st = st)
  /\ (forall message before after st,
         apply_events (before ++ EvError message :: after) st
         = apply_events (before ++ after) st)
  /\ (forall (host : JsonHost) chunks st,
         read_loop dispatch_payload chunks [] st
         = apply_events (decoded_frames chunks) st).
Proof.
  split; [intros message [app d]; reflexivity|].
  split.
  - intros message before after st.
    rewrite !apply_events_app, apply_events_cons.
    destruct (apply_events before st); reflexivity.
  - intros host chunks st. apply read_loop_dispatch.
Qed.

(** Only a [clarification] event assigns [state.pendingClarification]. *)
Lemma pending_kept (e : StreamEvent) (st : AppState * StreamState) :
  is_clarification e = false ->
  pendingClarification (fst (handleStreamEvent e st))
  = pendingClarification (fst st).
Proof.
  destruct st as [app d]. intros H.
  destruct e; try discriminate; try reflexivity.
  simpl. destruct report as [r|]; [destruct (truthy r)|]; reflexivity.
Qed.

Lemma pending_kept_events (es : list StreamEvent) :
  forall st,
    forallb (fun e => negb (is_clarification e)) es = true ->
    pendingClarification (fst (apply_events es st))
    = pendingClarification (fst st).
Proof.
  induction es as [|e es IH]; intros st H; [reflexivity|].
  simpl in H. apply andb_prop in H as [He Hes].
  rewrite apply_events_cons, IH by assumption.
  apply pending_kept. now destruct (is_clarification e).
Qed.

(** C3. After a [clarification] event, and whatever other events follow
    it in the stream, a confirmation with a non-blank text sends a request
    whose [original_request], [messages_context] and [tool_call_id] are
    the values the event was snapshotted with (the event's own values,
    with [''] or [null] in place of an absent or falsy one), and
    [state.pendingClarification] is already null when the request is
    sent.  A reply typed into the chat box instead takes the same values
    along and clears the state as well. *)
Theorem clarification_round_trip :
  forall (host : JsonHost) (ev : ClarificationEvent)
         (later : list StreamEvent) (app : AppState) (d : StreamState)
         (value : str) (response : Response),
    forallb (fun e => negb (is_clarification e)) later = true ->
    is_empty (trim value) = false ->
    let app1 := fst (apply_events (EvClarification ev :: later) (app, d)) in
    pendingClarification app1 = Some (snapshot ev)
    /\ (exists sent app2,
           confirmClarification (Some value) response app1 = (Some sent, app2)
           /\ req_original_request (body sent)
              = Some (str_or_empty (ev_original_request ev))
           /\ req_messages_context (body sent)
              = Some (json_or_null (ev_messages_context ev))
           /\ req_tool_call_id (body sent)
              = Some (str_or_null (ev_tool_call_id ev))
           /\ pendingClarification (state_at_send sent) = None)
    /\ (let sent := fst (sendMessageStream value response app1) in
        req_original_request (body sent)
        = Some (str_or_empty (ev_original_request ev))
        /\ req_messages_context (body sent)
           = Some (json_or_null (ev_messages_context ev))
        /\ req_tool_call_id (body sent)
           = Some (str_or_null (ev_tool_call_id ev))
        /\ pendingClarification (state_at_send sent) = None)
    /\ (forall s, ev_original_request ev = Some s ->
                  str_or_empty (ev_original_request ev) = s)
    /\ (forall j, ev_messages_context ev = Some j -> truthy j = true ->
                  json_or_null (ev_messages_context ev) = j)
    /\ (forall s, ev_tool_call_id ev = Some s -> is_empty s = false ->
                  str_or_null (ev_tool_call_id ev) = Some s).
Proof.
  intros host ev later app d value response Hlater Hvalue app1.
  assert (Hp : pendingClarification app1 = Some (snapshot ev)).
  { unfold app1. rewrite apply_events_cons.
    rewrite pending_kept_events by assumption. reflexivity. }
  split; [exact Hp|]. split; [|split].
  - unfold confirmClarification. rewrite Hp, Hvalue.
    destruct (negb (ok response)).
    + eexists; eexists. split; [reflexivity|]. simpl. repeat split.
    + destruct (read_loop dispatch_payload (chunks response) [] _)
        as [app3 d3].
      eexists; eexists. split; [reflexivity|]. simpl. repeat split.
  - cbv zeta. unfold sendMessageStream. rewrite Hp.
    destruct (negb (ok response)); simpl.
    + repeat split.
    + destruct (read_loop dispatch_payload (chunks response) [] _)
        as [app3 d3]. simpl. repeat split.
  - split; [|split].
    + intros s Hs. now rewrite Hs.
    + intros j Hj Ht. rewrite Hj. simpl. now rewrite Ht.
    + intros s Hs He. rewrite Hs. simpl. now rewrite He.
Qed.

(** A clarification followed by other events, and a confirmation. *)
Lemma clarification_round_trip_witness :
  let ev := {| ev_rewritten_request := Some (lit "sales by region");
               ev_original_intent := Some (lit "report");
               ev_original_request := Some (lit "sales");
               ev_messages_context := Some (JArr [JStr (lit "m1")]);
               ev_tool_call_id := Some (lit "call_1") |} in
  let app1 :=
    fst (apply_events [EvClarification ev; EvContent (lit "x"); EvDone]
                      (idle_session, fresh_draft)) in
  exists sent app2,
    @confirmClarification sample_host (Some (lit " go ahead "))
                          {| ok := true; chunks := [] |} app1
    = (Some sent, app2)
    /\ req_original_request (body sent) = Some (lit "sales")
    /\ req_messages_context (body sent) = Some (JArr [JStr (lit "m1")])
    /\ req_tool_call_id (body sent) = Some (Some (lit "call_1"))
    /\ pendingClarification (state_at_send sent) = None.
Proof.
  cbv zeta.
  exact (proj1 (proj2
    (@clarification_round_trip sample_host
       {| ev_rewritten_request := Some (lit "sales by region");
          ev_original_intent := Some (lit "report");
          ev_original_request := Some (lit "sales");
          ev_messages_context := Some (JArr [JStr (lit "m1")]);
          ev_tool_call_id := Some (lit "call_1") |}
       [EvContent (lit "x"); EvDone] idle_session fresh_draft
       (lit " go ahead ") {| ok := true; chunks := [] |}
       eq_refl eq_refl))).
Defined.

End DispatchFacts.

(** ** Patterns that cannot match *)

Module RegexFacts.
Import Js Regex.

Lemma suffix_refl (s : str) : suffix s s.
Proof. now exists []. Qed.

Lemma suffix_trans (a b c : str) : suffix a b -> suffix b c -> suffix a c.
Proof.
  intros [p Hp] [q Hq]. exists (q ++ p). now rewrite Hq, Hp, app_assoc.
Qed.

Lemma suffix_tl (c : N) (s : str) : suffix s (c :: s).
Proof. now exists [c]. Qed.

(** If the continuation fails on every suffix of the input, so does the
    match. *)
Lemma m_fails (r : re) :
  forall s caps k,
    (forall s' caps', suffix s' s -> k s' caps' = None) ->
    m r s caps k = None.
Proof.
  induction r as [|p|a IHa b IHb|a IHa b IHb|g a IHa|i a IHa];
    intros s caps k Hk; simpl.
  - apply Hk, suffix_refl.
  - destruct s as [|c s']; [reflexivity|].
    destruct (p c); [|reflexivity]. apply Hk, suffix_tl.
  - apply IHa. intros s' caps' Hs'. apply IHb. intros s'' caps'' Hs''.
    apply Hk. eapply suffix_trans; eassumption.
  - rewrite IHa, IHb by assumption. reflexivity.
  - generalize (length s) as n. intros n. revert s caps Hk.
    induction n as [|n IHn]; intros s caps Hk.
    + apply Hk, suffix_refl.
    + rewrite (IHa s caps).
      * rewrite (Hk s caps (suffix_refl s)). now destruct g.
      * intros s' caps' Hs'. destruct (length s' <? length s); [|reflexivity].
        apply IHn. intros s'' caps'' Hs''. apply Hk.
        eapply suffix_trans; eassumption.
  - apply IHa. intros s' caps' Hs'. apply Hk. assumption.
Qed.

Lemma free_of_suffix P (s' s : str) :
  suffix s' s -> free_of P s = true -> free_of P s' = true.
Proof.
  intros [p ->]. unfold free_of. rewrite forallb_app.
  intros H. now apply andb_prop in H.
Qed.

Lemma free_of_app P (a b : str) :
  free_of P (a ++ b) = free_of P a && free_of P b.
Proof. apply forallb_app. Qed.

Lemma free_of_rev P (a : str) : free_of P (rev a) = free_of P a.
Proof.
  induction a as [|c a IH]; [reflexivity|].
  simpl. rewrite free_of_app, IH. simpl. now rewrite andb_true_r, andb_comm.
Qed.

Lemma no_match P (r : re) :
  Needs P r ->
  forall s caps k, free_of P s = true -> m r s caps k = None.
Proof.
  induction 1 as [p Hp|a b _ IH|a b _ IH|a b _ IHa _ IHb|i a _ IH];
    intros s caps k Hs; simpl.
  - destruct s as [|c s']; [reflexivity|].
    destruct (p c) eqn:Hc; [|reflexivity].
    apply Hp in Hc. simpl in Hs. now rewrite Hc in Hs.
  - now apply IH.
  - apply m_fails. intros s' caps' Hs'. apply IH.
    eapply free_of_suffix; eassumption.
  - now rewrite IHa, IHb.
  - now apply IH.
Qed.

Lemma search_none P (r : re) (s : str) :
  Needs P r -> free_of P s = true ->
  forall before, search r before s = None.
Proof.
  intros Hr. induction s as [|c s IH]; intros Hs before; simpl.
  - now rewrite (no_match Hr).
  - rewrite (no_match Hr) by assumption. apply IH.
    simpl in Hs. now apply andb_prop in Hs.
Qed.

Lemma replace_all_none P (r : re) (template : list piece) (s : str) :
  Needs P r -> free_of P s = true -> replace_all r template s = s.
Proof.
  intros Hr Hs. unfold replace_all. simpl.
  now rewrite (search_none s Hr Hs).
Qed.

Lemma test_whole_none P (r : re) (s : str) :
  Needs P r -> free_of P s = true -> test_whole r s = false.
Proof.
  intros Hr Hs. unfold test_whole. now rewrite (no_match Hr).
Qed.

(** Where the required code unit sits in the patterns of the source. *)
Lemma Needs_chars P (s : str) :
  existsb P s = true -> Needs P (chars s).
Proof.
  induction s as [|c s IH]; [discriminate|]. simpl. intros H.
  destruct (P c) eqn:Hc.
  - assert (Hchr : Needs P (Chr (only c))).
    { constructor. intros x Hx. apply N.eqb_eq in Hx. now subst. }
    destruct s; [exact Hchr|now apply Needs_seq_l].
  - simpl in H. destruct s as [|d s]; [discriminate|].
    apply Needs_seq_r, IH, H.
Qed.

Lemma is_ci_nonletter (c x : N) :
  letter c = false -> is_ci c x = true -> x = c.
Proof.
  unfold is_ci, fold_case, letter, upper, lower. intros Hc H.
  apply orb_false_iff in Hc as [Hu Hl]. rewrite Hl in H.
  destruct ((97 <=? x) && (x <=? 122))%N eqn:Hx.
  - apply N.eqb_eq in H. subst c.
    apply andb_prop in Hx as [H1 H2]. apply N.leb_le in H1, H2.
    apply andb_false_iff in Hu as [Hu|Hu]; apply N.leb_gt in Hu; lia.
  - now apply N.eqb_eq in H.
Qed.

Lemma Needs_chars_ci P (s : str) :
  existsb (fun c => P c && negb (letter c)) s = true ->
  Needs P (chars_ci s).
Proof.
  induction s as [|c s IH]; [discriminate|]. simpl. intros H.
  destruct (P c && negb (letter c)) eqn:Hc.
  - assert (Hchr : Needs P (Chr (is_ci c))).
    { constructor. intros x Hx.
      apply andb_prop in Hc as [HP Hl]. apply negb_true_iff in Hl.
      now rewrite (is_ci_nonletter c x Hl Hx). }
    destruct s; [exact Hchr|now apply Needs_seq_l].
  - simpl in H. destruct s as [|d s]; [discriminate|].
    apply Needs_seq_r, IH, H.
Qed.

Lemma Needs_seqs P (l : list re) :
  Exists (Needs P) l -> Needs P (seqs l).
Proof.
  induction 1 as [a l Ha|a l Hl IH].
  - destruct l; [exact Ha|now apply Needs_seq_l].
  - destruct l as [|b l]; [inversion Hl|].
    now apply Needs_seq_r.
Qed.

Lemma Needs_weaken (P Q : N -> bool) (r : re) :
  (forall c, P c = true -> Q c = true) -> Needs P r -> Needs Q r.
Proof.
  intros HPQ.
  induction 1;
    [ constructor; auto | now apply Needs_seq_l | now apply Needs_seq_r
    | now constructor | now constructor ].
Qed.

End RegexFacts.

(** ** Markdown repair *)

Module MarkdownFacts.
Import Js Regex Markdown SplitFacts RegexFacts.

Ltac needs_here :=
  first
    [ apply Needs_chr;
      let c := fresh "c" in let Hc := fresh "Hc" in
      intros c Hc; unfold only in Hc; apply N.eqb_eq in Hc; subst c;
      reflexivity
    | apply Needs_chars; reflexivity
    | apply Needs_chars_ci; reflexivity
    | apply Needs_group; needs_here
    | apply Needs_seqs; needs_in_list ]
with needs_in_list :=
  first
    [ apply Exists_cons_hd; needs_here
    | apply Exists_cons_tl; needs_in_list ].

(** Every pattern of the sanitizer before the white-space passes needs a
    markup character. *)
Lemma sanitizer_patterns_need_markup :
  Forall (Needs markup_char)
         [re_anchor_element; re_anchor_open; re_anchor_close; re_known_open;
          re_known_close; re_any_open; re_any_close; re_steam_url;
          re_file_url; re_url; re_md_link; re_quoted_url DQUOTE;
          re_quoted_url SQUOTE; re_pct22; re_pct27; re_named_entity;
          re_numeric_entity].
Proof.
  repeat (apply Forall_cons; [needs_here|]). apply Forall_nil.
Qed.

(** Every pattern of the table repair needs a pipe. *)
Lemma table_patterns_need_pipe :
  Forall (Needs (only PIPE))
         [re_separator_row; re_lone_cell; re_sentence_then_pipe;
          re_text_then_table; re_table_then_text].
Proof.
  repeat (apply Forall_cons; [needs_here|]). apply Forall_nil.
Qed.

Lemma str_eqb_eq (a b : str) : str_eqb a b = true -> a = b.
Proof.
  revert b; induction a as [|x a IH]; intros [|y b]; simpl; try easy.
  intros H. apply andb_prop in H as [Hxy Hab].
  apply N.eqb_eq in Hxy. subst. f_equal. now apply IH.
Qed.

Lemma free_of_trimStart P (s : str) :
  free_of P s = true -> free_of P (trimStart s) = true.
Proof.
  induction s as [|c s IH]; [easy|]. intros H. simpl.
  destruct (is_space c); [|exact H].
  apply IH. simpl in H. now apply andb_prop in H.
Qed.

Lemma free_of_trim P (s : str) :
  free_of P s = true -> free_of P (trim s) = true.
Proof.
  intros H. unfold trim, trimEnd.
  rewrite free_of_rev. apply free_of_trimStart.
  rewrite free_of_rev. now apply free_of_trimStart.
Qed.

Lemma free_of_weaken (P Q : N -> bool) (s : str) :
  (forall c, Q c = true -> P c = true) ->
  free_of P s = true -> free_of Q s = true.
Proof.
  intros HQP. induction s as [|c s IH]; [easy|]. simpl. intros H.
  apply andb_prop in H as [Hc Hs]. rewrite IH by assumption.
  destruct (Q c) eqn:HQ; [|reflexivity].
  apply HQP in HQ. now rewrite HQ in Hc.
Qed.

(** *** Lines of a text *)

Lemma join_cons_ne (sep x : str) (l : list str) :
  l <> [] -> join sep (x :: l) = x ++ sep ++ join sep l.
Proof. destruct l; [easy|reflexivity]. Qed.

Lemma join_split_scan (x : N) (sep' : str) (s : str) :
  join (x :: sep') (split_scan (x :: sep') 0 [] s) = s.
Proof.
  set (sep := x :: sep').
  remember (length s) as n eqn:Hn.
  revert s Hn. induction n as [n IH] using lt_wf_ind. intros s Hn.
  destruct (includes sep s) eqn:Hi.
  - destruct (split_scan_first x sep' s [] Hi) as (u & v & Hs & Hw).
    fold sep in Hs, Hw. rewrite Hs at 1. rewrite (Hw v).
    rewrite join_cons_ne by apply split_scan_nonempty.
    rewrite (IH (length v)); [now rewrite Hs|idtac|reflexivity].
    rewrite Hn, Hs, !length_app. simpl. lia.
  - rewrite (split_scan_absent sep s [] Hi). reflexivity.
Qed.

Lemma split_scan_free P (x : N) (sep' : str) (s : str) :
  free_of P s = true ->
  Forall (fun l => free_of P l = true) (split_scan (x :: sep') 0 [] s).
Proof.
  set (sep := x :: sep').
  remember (length s) as n eqn:Hn.
  revert s Hn. induction n as [n IH] using lt_wf_ind. intros s Hn Hs.
  destruct (includes sep s) eqn:Hi.
  - destruct (split_scan_first x sep' s [] Hi) as (u & v & Hsv & Hw).
    fold sep in Hsv, Hw. rewrite Hsv at 1. rewrite (Hw v).
    rewrite Hsv, !free_of_app in Hs.
    apply andb_prop in Hs as [Hu Hs]. apply andb_prop in Hs as [_ Hv].
    constructor; [exact Hu|].
    apply (IH (length v)); [|reflexivity|exact Hv].
    rewrite Hn, Hsv, !length_app. simpl. lia.
  - rewrite (split_scan_absent sep s [] Hi). constructor; [exact Hs|constructor].
Qed.

(** *** Table repair on text without a pipe *)

Lemma is_separator_row_pipe_free (s : str) :
  pipe_free s = true -> is_separator_row s = false.
Proof.
  intros H. apply (test_whole_none (P := only PIPE)); [|exact H].
  exact (Forall_inv table_patterns_need_pipe).
Qed.

Lemma is_lone_cell_pipe_free (s : str) :
  pipe_free s = true -> is_lone_cell s = false.
Proof.
  intros H. apply (test_whole_none (P := only PIPE)); [|exact H].
  exact (Forall_inv (Forall_inv_tail table_patterns_need_pipe)).
Qed.

Lemma find_expectedCols_pipe_free (lines : list str) :
  Forall (fun l => pipe_free l = true) lines ->
  find_expectedCols lines = 0%Z.
Proof.
  induction 1 as [|l lines Hl _ IH]; [reflexivity|]. simpl.
  rewrite is_separator_row_pipe_free; [exact IH|].
  now apply free_of_trim.
Qed.

Lemma merge_lines_pipe_free (fuel : nat) :
  forall rest merged,
    length rest <= fuel ->
    Forall (fun l => pipe_free l = true) rest ->
    merge_lines fuel 0 rest merged = merged ++ rest.
Proof.
  induction fuel as [|fuel IH]; intros rest merged Hlen Hfree.
  - destruct rest; [now rewrite app_nil_r|simpl in Hlen; lia].
  - destruct rest as [|line rest']; [now rewrite app_nil_r|].
    inversion Hfree as [|? ? Hline Hrest']; subst.
    cbn [merge_lines].
    rewrite (is_lone_cell_pipe_free (trim line)) by now apply free_of_trim.
    cbn [andb]. rewrite andb_false_r.
    destruct rest' as [|next rest''].
    + rewrite IH; [now rewrite <- app_assoc|simpl; lia|constructor].
    + cbv zeta.
      rewrite (is_lone_cell_pipe_free (trim next))
        by (apply free_of_trim; now inversion Hrest').
      cbn [andb].
      rewrite IH; [now rewrite <- app_assoc|simpl in *; lia|assumption].
Qed.

(** Text without a pipe is returned as it is by the table repair. *)
Lemma fixMarkdownTables_pipe_free (y : str) :
  pipe_free y = true -> fixMarkdownTables y = y.
Proof.
  intros Hy. unfold fixMarkdownTables.
  destruct (is_empty y) eqn:He; [now destruct y|].
  assert (Hlines : Forall (fun l => pipe_free l = true) (split [LF] y)).
  { unfold split. now apply split_scan_free. }
  rewrite (find_expectedCols_pipe_free Hlines).
  rewrite merge_lines_pipe_free by (auto; lia).
  simpl app. unfold split. rewrite join_split_scan.
  pose proof table_patterns_need_pipe as Hp.
  inversion Hp as [|? ? _ Hp1]; subst. inversion Hp1 as [|? ? _ Hp2]; subst.
  inversion Hp2 as [|? ? H1 Hp3]; subst.
  inversion Hp3 as [|? ? H2 Hp4]; subst.
  inversion Hp4 as [|? ? H3 _]; subst.
  rewrite (replace_all_none _ y H1 Hy).
  rewrite (replace_all_none _ y H2 Hy).
  now rewrite (replace_all_none _ y H3 Hy).
Qed.

(** *** The white-space passes of the sanitizer *)

Lemma search_before (r : re) (s : str) :
  forall before,
    search r before s = option_map (shift (rev before)) (search r [] s).
Proof.
  induction s as [|c s IH]; intros before; simpl.
  - destruct (m r [] [] accept) as [[s' caps]|]; simpl;
      [now rewrite app_nil_r|reflexivity].
  - destruct (m r (c :: s) [] accept) as [[s' caps]|]; simpl.
    + now rewrite app_nil_r.
    + rewrite (IH (c :: before)), (IH [c]).
      destruct (search r [] s) as [[[[b mt] rest] caps]|]; simpl;
        [|reflexivity].
      now rewrite <- app_assoc.
Qed.

(** A code unit at which the pattern does not match is copied. *)
Lemma replace_fuel_skip (r : re) (template : list piece) (c : N) (s : str)
      (fuel : nat) :
  m r (c :: s) [] accept = None ->
  replace_fuel (S fuel) r template (c :: s)
  = c :: replace_fuel (S fuel) r template s.
Proof.
  intros Hm. cbn [replace_fuel]. cbn [search]. rewrite Hm.
  rewrite (search_before r s [c]).
  destruct (search r [] s) as [[[[b mt] rest] caps]|]; reflexivity.
Qed.

Lemma m_blanks_none (c : N) (s : str) :
  blank c = false -> m re_blanks (c :: s) [] accept = None.
Proof.
  intros Hc. unfold re_blanks, Plus. fold blank.
  remember blank as bl eqn:Hbl. simpl. now rewrite Hc.
Qed.

Lemma m_blanks_one (s : str) :
  match s with [] => true | d :: _ => negb (blank d) end = true ->
  m re_blanks (32%N :: s) [] accept = Some (s, []).
Proof.
  intros Hs. unfold re_blanks, Plus. fold blank.
  assert (H32 : blank 32%N = true) by reflexivity.
  remember blank as bl eqn:Hbl. simpl. rewrite H32.
  destruct s as [|d s]; [reflexivity|].
  simpl. apply negb_true_iff in Hs. now rewrite Hs.
Qed.

Lemma replace_fuel_blank (s : str) (fuel : nat) :
  match s with [] => true | d :: _ => negb (blank d) end = true ->
  replace_fuel (S (S fuel)) re_blanks [Text (lit " ")] (32%N :: s)
  = 32%N :: replace_fuel (S fuel) re_blanks [Text (lit " ")] s.
Proof.
  intros Hs.
  change (replace_fuel (S (S fuel)) re_blanks [Text (lit " ")] (32%N :: s))
    with (match search re_blanks [] (32%N :: s) with
          | None => 32%N :: s
          | Some (before, matched, rest, caps) =>
              before ++ expand [Text (lit " ")] caps ++
              match matched, rest with
              | [], c :: rest' =>
                  c :: replace_fuel (S fuel) re_blanks [Text (lit " ")] rest'
              | [], [] => []
              | _ :: _, _ =>
                  replace_fuel (S fuel) re_blanks [Text (lit " ")] rest
              end
          end).
  cbn [search]. rewrite (m_blanks_one s Hs).
  replace (length (32%N :: s) - length s) with 1
    by (change (length (32%N :: s)) with (S (length s)); lia).
  reflexivity.
Qed.

Lemma replace_blanks_fixed (s : str) :
  forall fuel,
    length s <= fuel ->
    free_of (only TAB) s = true ->
    no_adjacent (only 32%N) s = true ->
    replace_fuel (S fuel) re_blanks [Text (lit " ")] s = s.
Proof.
  induction s as [|c s IH]; intros fuel Hlen Htab Hadj; [reflexivity|].
  simpl in Htab. apply andb_prop in Htab as [Hc Htab].
  assert (Hadj' : no_adjacent (only 32%N) s = true).
  { simpl in Hadj. destruct s; [reflexivity|].
    now apply andb_prop in Hadj. }
  destruct (N.eqb c 32) eqn:Hsp.
  - apply N.eqb_eq in Hsp. subst c.
    assert (Hnext : match s with [] => true | d :: _ => negb (blank d) end
                    = true).
    { destruct s as [|d s']; [reflexivity|].
      cbn [no_adjacent] in Hadj. apply andb_prop in Hadj as [Hd _].
      cbn [free_of forallb] in Htab. apply andb_prop in Htab as [Hdt _].
      unfold blank, one_of, only, TAB in *. simpl in Hd, Hdt |- *.
      destruct (N.eqb d 32); destruct (N.eqb d 9);
        simpl in *; try discriminate; reflexivity. }
    destruct fuel as [|fuel]; [simpl in Hlen; lia|].
    rewrite (replace_fuel_blank s fuel Hnext).
    rewrite IH; [reflexivity|simpl in Hlen; lia|assumption|assumption].
  - rewrite replace_fuel_skip.
    + rewrite IH; [reflexivity|simpl in Hlen; lia|assumption|assumption].
    + apply m_blanks_none. unfold blank, one_of, only, TAB in *.
      simpl in Hc |- *.
      destruct (N.eqb c 9); simpl in *; try discriminate.
      now rewrite Hsp.
Qed.

Lemma m_newlines3_none (s : str) :
  startsWith [LF; LF; LF] s = false ->
  m re_newlines3 s [] accept = None.
Proof.
  intros H. unfold re_newlines3, AtLeast.
  assert (E : forall a, only LF a = N.eqb LF a).
  { intros a. apply N.eqb_sym. }
  remember (only LF) as nl eqn:Hnl.
  destruct s as [|a s]; [reflexivity|].
  cbn [m]. rewrite E. cbn [startsWith] in H.
  destruct (N.eqb LF a); [|reflexivity].
  destruct s as [|b s]; [reflexivity|].
  rewrite E. destruct (N.eqb LF b); [|reflexivity].
  destruct s as [|c s]; [reflexivity|].
  rewrite E. destruct (N.eqb LF c); [|reflexivity].
  discriminate.
Qed.

Lemma search_newlines3_none (s : str) :
  includes [LF; LF; LF] s = false ->
  forall before, search re_newlines3 before s = None.
Proof.
  induction s as [|c s IH]; intros H before.
  - reflexivity.
  - cbn [includes] in H. apply orb_false_iff in H as [Hs Hi].
    cbn [search]. rewrite (m_newlines3_none _ Hs). now apply IH.
Qed.

(** The sanitizer returns plain prose as it is. *)
Lemma cleanHtmlAndUrls_plain (y : str) :
  plain_text y = true -> cleanHtmlAndUrls y = y.
Proof.
  unfold plain_text. intros H.
  apply andb_prop in H as [H Htrim]. apply andb_prop in H as [H Hnl].
  apply andb_prop in H as [Hfree Hadj].
  change (forallb (fun c => negb (markup_char c)) y)
    with (free_of markup_char y) in Hfree.
  unfold cleanHtmlAndUrls.
  destruct (is_empty y) eqn:He; [now destruct y|].
  pose proof sanitizer_patterns_need_markup as Hp.
  repeat match type of Hp with
         | Forall _ (_ :: _) =>
             let Hr := fresh "Hr" in
             let Hp' := fresh "Hp" in
             inversion Hp as [|? ? Hr Hp']; subst; clear Hp;
             rewrite (replace_all_none _ y Hr Hfree); clear Hr;
             rename Hp' into Hp
         end.
  unfold replace_all at 2.
  rewrite replace_blanks_fixed;
    [|lia
     |apply (free_of_weaken markup_char (only TAB)); [|exact Hfree];
      intros c Hc; unfold only in Hc; apply N.eqb_eq in Hc; subst c;
      reflexivity
     |exact Hadj].
  unfold replace_all. cbn [replace_fuel].
  apply negb_true_iff in Hnl.
  rewrite (search_newlines3_none y Hnl).
  now apply str_eqb_eq.
Qed.

Lemma plain_text_pipe_free (y : str) :
  plain_text y = true -> pipe_free y = true.
Proof.
  unfold plain_text. intros H.
  apply andb_prop in H as [H _]. apply andb_prop in H as [H _].
  apply andb_prop in H as [Hfree _].
  apply (free_of_weaken markup_char (only PIPE)); [|exact Hfree].
  intros c Hc. unfold only in Hc. apply N.eqb_eq in Hc. now subst c.
Qed.

(** Plain prose is a fixed point of the repair. *)
Lemma repair_plain (y : str) : plain_text y = true -> repair y = y.
Proof.
  intros H. unfold repair. rewrite (cleanHtmlAndUrls_plain y H).
  apply fixMarkdownTables_pipe_free. now apply plain_text_pipe_free.
Qed.

(** C4. On the four lines [A | B |], [|---|---|], [| x ] and [| y |] the
    table repair joins the broken row with its tail: the result is the
    header, the separator and the single row [| x | y |], which is
    complete for the two columns of the separator and has the cells [x]
    and [y]; the sanitizer before it changes nothing, of the input as of
    the result. *)
Theorem table_repair_joins_split_row :
  let input := text_of_lines [lit "A | B |"; lit "|---|---|"; lit "| x ";
                              lit "| y |"] in
  let output := text_of_lines [lit "A | B |"; lit "|---|---|";
                               lit "| x | y |"] in
  fixMarkdownTables input = output
  /\ repair input = output
  /\ find_expectedCols (split [LF] input) = 2%Z
  /\ is_complete_row 2 (lit "| x | y |") = true
  /\ row_cells (lit "| x | y |") = [lit "x"; lit "y"]
  /\ fixMarkdownTables output = output.
Proof.
  cbv zeta. repeat split; vm_compute; reflexivity.
Qed.

(** C5.  The code breaks the claim, and with it its own word that it
    removes every tag: the sanitizer removes the tags before it removes
    [%22], so that [<%22b>] comes out as the tag [<b>], which only a
    second application removes; and so for any tag that has [%22] or
    [%27] behind its angle bracket. *)
Lemma repair_not_idempotent :
  repair (lit "<%22b>") = lit "<b>"
  /\ repair (repair (lit "<%22b>")) = []
  /\ repair (repair (lit "<%22b>")) <> repair (lit "<%22b>")
  /\ repair (lit "<%22img src=x onerror=alert(1)>")
     = lit "<img src=x onerror=alert(1)>"
  /\ repair (lit "<%27i>text</i>") = lit "<i>text".
Proof.
  split; [vm_compute; reflexivity|].
  split; [vm_compute; reflexivity|].
  split; [vm_compute; discriminate|].
  split; vm_compute; reflexivity.
Qed.

End MarkdownFacts.
(** ** Sorting *)

Unset Implicit Arguments.

Module SortFacts.
Import Js Value Charts.

(** *** Lists cut at an index *)

Lemma firstn_length_app (A : Type) (l1 l2 : list A) :
  firstn (length l1) (l1 ++ l2) = l1.
Proof.
  induction l1 as [|a l1 IH]; simpl; [reflexivity|now rewrite IH].
Qed.

Lemma skipn_length_app (A : Type) (l1 l2 : list A) :
  skipn (length l1) (l1 ++ l2) = l2.
Proof. induction l1 as [|a l1 IH]; simpl; [reflexivity|exact IH]. Qed.

Lemma forallb_cut (A : Type) (f : A -> bool) (i : nat) (l : list A) :
  forallb f l = true ->
  forallb f (firstn i l) = true /\ forallb f (skipn i l) = true.
Proof.
  intros H. rewrite <- (firstn_skipn i l), forallb_app in H.
  now apply andb_prop in H.
Qed.

Lemma firstn_In (A : Type) (n : nat) (l : list A) (e : A) :
  In e (firstn n l) -> In e l.
Proof.
  intros H. rewrite <- (firstn_skipn n l). apply in_or_app. now left.
Qed.

Lemma forallb_rev (A : Type) (p : A -> bool) (l : list A) :
  forallb p (rev l) = forallb p l.
Proof.
  induction l as [|a l IH]; [reflexivity|].
  simpl. rewrite forallb_app, IH. simpl. now rewrite andb_true_r, andb_comm.
Qed.

Lemma StronglySorted_snoc (A : Type) (R : A -> A -> Prop) (l : list A)
    (a : A) :
  StronglySorted R l -> Forall (fun b => R b a) l ->
  StronglySorted R (l ++ [a]).
Proof.
  induction 1 as [|b l Hl IH Hb]; simpl; intros H.
  - constructor; constructor.
  - inversion H; subst. constructor; [now apply IH|].
    apply Forall_app. split; [exact Hb|now constructor].
Qed.

Lemma StronglySorted_rev (A : Type) (R : A -> A -> Prop) (l : list A) :
  StronglySorted (fun a b => R b a) l -> StronglySorted R (rev l).
Proof.
  induction 1 as [|a l Hl IH Ha]; simpl; [constructor|].
  apply StronglySorted_snoc; [exact IH|].
  rewrite Forall_forall in *. intros b Hb. apply Ha.
  now apply in_rev.
Qed.

(** The head of a sorted list against its tail. *)
Lemma StronglySorted_split (A : Type) (R : A -> A -> Prop) (l1 l2 : list A) :
  StronglySorted R (l1 ++ l2) ->
  StronglySorted R l1
  /\ Forall (fun b => Forall (fun a => R a b) l1) l2.
Proof.
  induction l1 as [|a l1 IH]; simpl; intros H.
  - split; [constructor|]. apply Forall_forall. intros; constructor.
  - inversion H as [|? ? Hs Ha]; subst.
    destruct (IH Hs) as [H1 H2]. apply Forall_app in Ha as [Ha1 Ha2].
    split; [now constructor|].
    rewrite Forall_forall in *. intros b Hb.
    constructor; [now apply Ha2|now apply H2].
Qed.

Lemma StronglySorted_tail (A : Type) (R : A -> A -> Prop) (l1 l2 : list A) :
  StronglySorted R (l1 ++ l2) -> StronglySorted R l2.
Proof.
  induction l1 as [|a l1 IH]; simpl; intros H; [exact H|].
  inversion H; subst. now apply IH.
Qed.

Lemma StronglySorted_join (A : Type) (R : A -> A -> Prop) (l1 l2 : list A) :
  StronglySorted R l1 -> StronglySorted R l2 ->
  Forall (fun a => Forall (R a) l2) l1 ->
  StronglySorted R (l1 ++ l2).
Proof.
  induction 1 as [|a l1 Hl IH Ha]; simpl; intros H2 H; [exact H2|].
  inversion H as [|? ? Hx Hrest]; subst.
  constructor; [now apply IH|].
  apply Forall_app. now split.
Qed.

(** The two sides of an equation between pairs. *)
Ltac split_pair H :=
  let H1 := fresh in
  let H2 := fresh in
  pose proof (f_equal fst H) as H1;
  pose proof (f_equal snd H) as H2;
  cbn [fst snd] in H1, H2; clear H; subst.

Section Insertion.
Variable A : Type.
Variable comparefn : A -> A -> num.

(** *** The search *)

Ltac midpoint left right :=
  pose proof (Nat.div_mod_eq (right - left) 2);
  pose proof (Nat.mod_upper_bound (right - left) 2 ltac:(lia)).

(** As many turns as the interval is wide are enough: with more of them
    the search ends at the same place. *)
Lemma insertion_point_enough (pivot : A) (sorted : list A) :
  forall turns more left right,
    right - left <= turns ->
    insertion_point comparefn (turns + more) pivot sorted left right
    = insertion_point comparefn turns pivot sorted left right.
Proof.
  induction turns as [|turns IH]; intros more left right Ht.
  - cbn [Nat.add insertion_point]. destruct more as [|more]; [reflexivity|].
    cbn [insertion_point].
    destruct (left <? right) eqn:Hlt; [|reflexivity].
    apply Nat.ltb_lt in Hlt. lia.
  - cbn [Nat.add insertion_point].
    destruct (left <? right) eqn:Hlt; [|reflexivity].
    apply Nat.ltb_lt in Hlt. midpoint left right.
    destruct (nth_error sorted (left + (right - left) / 2)) as [e|];
      [|reflexivity].
    destruct (num_neg (comparefn pivot e)); apply IH; lia.
Qed.

(** The search stops at or before an index from which on the pivot comes
    before every element. *)
Lemma insertion_point_le (pivot : A) (sorted : list A) (bound : nat) :
  (forall mid e, bound <= mid -> nth_error sorted mid = Some e ->
                 num_neg (comparefn pivot e) = true) ->
  forall turns left right,
    left <= bound ->
    insertion_point comparefn turns pivot sorted left right <= bound.
Proof.
  intros Hb. induction turns as [|turns IH]; intros left right Hl;
    cbn [insertion_point]; [exact Hl|].
  destruct (left <? right); [|exact Hl].
  destruct (nth_error sorted (left + (right - left) / 2)) as [e|] eqn:He;
    [|exact Hl].
  destruct (num_neg (comparefn pivot e)) eqn:Hn; [now apply IH|].
  apply IH.
  destruct (Nat.le_gt_cases bound (left + (right - left) / 2)) as [Hc|Hc];
    [|lia].
  rewrite (Hb _ _ Hc He) in Hn. discriminate Hn.
Qed.

(** With turns enough it stops behind every index up to which the pivot
    comes before no element. *)
Lemma insertion_point_ge (pivot : A) (sorted : list A) (bound : nat) :
  (forall mid e, mid < bound -> nth_error sorted mid = Some e ->
                 num_neg (comparefn pivot e) = false) ->
  forall turns left right,
    right - left <= turns -> left <= right -> right <= length sorted ->
    bound <= right ->
    bound <= insertion_point comparefn turns pivot sorted left right.
Proof.
  intros Hb. induction turns as [|turns IH];
    intros left right Ht Hlr Hr Hbr; cbn [insertion_point]; [lia|].
  destruct (left <? right) eqn:Hlt; [|apply Nat.ltb_ge in Hlt; lia].
  apply Nat.ltb_lt in Hlt. midpoint left right.
  destruct (nth_error sorted (left + (right - left) / 2)) as [e|] eqn:He.
  - destruct (num_neg (comparefn pivot e)) eqn:Hn.
    + apply IH; try lia.
      destruct (Nat.le_gt_cases bound (left + (right - left) / 2))
        as [Hc|Hc]; [exact Hc|].
      rewrite (Hb _ _ Hc He) in Hn. discriminate Hn.
    + apply IH; lia.
  - apply nth_error_None in He. lia.
Qed.

Lemma insertion_point_right (pivot : A) (sorted : list A) :
  forall turns left right,
    left <= right ->
    insertion_point comparefn turns pivot sorted left right <= right.
Proof.
  induction turns as [|turns IH]; intros left right Hlr;
    cbn [insertion_point]; [exact Hlr|].
  destruct (left <? right) eqn:Hlt; [|exact Hlr].
  apply Nat.ltb_lt in Hlt. midpoint left right.
  destruct (nth_error sorted (left + (right - left) / 2)) as [e|];
    [|exact Hlr].
  destruct (num_neg (comparefn pivot e)).
  - etransitivity; [apply IH|]; lia.
  - apply IH. lia.
Qed.

(** Where the elements the pivot does not come before are all in front
    of those it comes before, the pivot is put between the two. *)
Lemma insert_sorted_partition (pivot : A) (l1 l2 : list A) :
  Forall (fun e => num_neg (comparefn pivot e) = false) l1 ->
  Forall (fun e => num_neg (comparefn pivot e) = true) l2 ->
  insert_sorted comparefn pivot (l1 ++ l2) = l1 ++ pivot :: l2.
Proof.
  intros H1 H2. unfold insert_sorted. cbv zeta.
  assert (E : insertion_point comparefn (length (l1 ++ l2)) pivot (l1 ++ l2)
                              0 (length (l1 ++ l2)) = length l1).
  { apply Nat.le_antisymm.
    - apply insertion_point_le; [|lia].
      intros mid e Hmid He.
      rewrite nth_error_app2 in He by exact Hmid.
      rewrite Forall_forall in H2. apply H2.
      eapply nth_error_In, He.
    - apply insertion_point_ge; try lia.
      + intros mid e Hmid He.
        rewrite nth_error_app1 in He by exact Hmid.
        rewrite Forall_forall in H1. apply H1.
        eapply nth_error_In, He.
      + rewrite length_app. lia. }
  rewrite E. now rewrite firstn_length_app, skipn_length_app.
Qed.

(** *** The sort returns a permutation of the array, whatever the
    comparator *)

Lemma insert_sorted_perm (x : A) (l : list A) :
  Permutation (x :: l) (insert_sorted comparefn x l).
Proof.
  unfold insert_sorted. cbv zeta.
  set (i := insertion_point comparefn (length l) x l 0 (length l)).
  rewrite <- (firstn_skipn i l) at 1. apply Permutation_middle.
Qed.

Lemma fold_insert_perm (rest : list A) :
  forall run,
    Permutation (run ++ rest)
      (fold_left (fun sorted pivot => insert_sorted comparefn pivot sorted)
                 rest run).
Proof.
  induction rest as [|x rest IH]; intros run; simpl;
    [now rewrite app_nil_r|].
  rewrite <- IH. rewrite <- insert_sorted_perm.
  symmetry. apply Permutation_middle.
Qed.

(** The run and the rest, in terms of the length of the run. *)
Lemma count_and_make_run_eq (e0 e1 : A) (rest : list A) :
  count_and_make_run comparefn (e0 :: e1 :: rest)
  = let d := num_neg (comparefn e1 e0) in
    let n := S (run_length comparefn d e0 (e1 :: rest)) in
    (if d then rev (firstn n (e0 :: e1 :: rest))
     else firstn n (e0 :: e1 :: rest),
     skipn n (e0 :: e1 :: rest)).
Proof.
  unfold count_and_make_run. cbv zeta. cbn [run_length].
  now rewrite Bool.eqb_reflx.
Qed.

Lemma count_and_make_run_perm (a run rest : list A) :
  count_and_make_run comparefn a = (run, rest) ->
  Permutation a (run ++ rest).
Proof.
  destruct a as [|e0 [|e1 a]]; intros H.
  - inversion H. reflexivity.
  - inversion H. reflexivity.
  - rewrite count_and_make_run_eq in H. cbv zeta in H. split_pair H.
    match goal with
    | |- context [skipn ?n _] =>
        rewrite <- (firstn_skipn n (e0 :: e1 :: a)) at 1
    end.
    apply Permutation_app_tail.
    destruct (num_neg (comparefn e1 e0));
      [apply Permutation_rev|reflexivity].
Qed.

Lemma js_sort_perm (l : list A) : Permutation l (js_sort comparefn l).
Proof.
  unfold js_sort.
  destruct (count_and_make_run comparefn l) as [run rest] eqn:E.
  rewrite (count_and_make_run_perm _ _ _ E). apply fold_insert_perm.
Qed.

Lemma js_sort_length (l : list A) :
  length (js_sort comparefn l) = length l.
Proof. symmetry. apply Permutation_length, js_sort_perm. Qed.

(** *** Elements the comparator always puts last *)

Variable last_class : A -> bool.

Hypothesis last_after :
  forall a b, last_class a = true -> num_neg (comparefn a b) = false.
Hypothesis other_before :
  forall a b, last_class a = false -> last_class b = true ->
              num_neg (comparefn a b) = true.

Lemma class_last_app (l1 l2 : list A) :
  forallb (fun b => negb (last_class b)) l1 = true ->
  forallb last_class l2 = true ->
  class_last last_class (l1 ++ l2) = true.
Proof.
  intros H1 H2. induction l1 as [|a l1 IH]; simpl.
  - destruct l2 as [|b l2]; [reflexivity|].
    simpl in *. apply andb_prop in H2 as [Hb H2]. now rewrite Hb.
  - simpl in H1. apply andb_prop in H1 as [Ha H1].
    apply negb_true_iff in Ha. rewrite Ha. now apply IH.
Qed.

Lemma class_last_split (l : list A) :
  class_last last_class l = true ->
  exists l1 l2,
    l = l1 ++ l2
    /\ forallb (fun b => negb (last_class b)) l1 = true
    /\ forallb last_class l2 = true.
Proof.
  induction l as [|a l IH]; simpl; intros H.
  - now exists [], [].
  - destruct (last_class a) eqn:Ha.
    + exists [], (a :: l). simpl. now rewrite Ha.
    + destruct (IH H) as (l1 & l2 & -> & H1 & H2).
      exists (a :: l1), l2. simpl. now rewrite Ha.
Qed.

Lemma insert_class_last (x : A) (l : list A) :
  class_last last_class l = true ->
  class_last last_class (insert_sorted comparefn x l) = true.
Proof.
  intros H. destruct (class_last_split l H) as (l1 & l2 & -> & H1 & H2).
  destruct (last_class x) eqn:Hx.
  - replace (l1 ++ l2) with ((l1 ++ l2) ++ []) by apply app_nil_r.
    rewrite insert_sorted_partition.
    + rewrite <- app_assoc. apply class_last_app; [exact H1|].
      rewrite forallb_app, H2. simpl. now rewrite Hx.
    + apply Forall_forall. intros e _. now apply last_after.
    + constructor.
  - unfold insert_sorted. cbv zeta.
    set (i := insertion_point comparefn (length (l1 ++ l2)) x (l1 ++ l2) 0
                              (length (l1 ++ l2))).
    assert (Hi : i <= length l1).
    { apply insertion_point_le; [|lia].
      intros mid e Hmid He.
      rewrite nth_error_app2 in He by exact Hmid.
      apply other_before; [exact Hx|].
      rewrite forallb_forall in H2. apply H2.
      eapply nth_error_In, He. }
    rewrite firstn_app, skipn_app.
    replace (i - length l1) with 0 by lia.
    rewrite firstn_O, skipn_O, app_nil_r.
    destruct (forallb_cut _ _ i l1 H1) as [Hf Hs].
    change (firstn i l1 ++ x :: skipn i l1 ++ l2)
      with (firstn i l1 ++ (x :: skipn i l1) ++ l2).
    rewrite app_assoc. apply class_last_app; [|exact H2].
    rewrite forallb_app, Hf. simpl. now rewrite Hx, Hs.
Qed.

Lemma fold_class_last (rest : list A) :
  forall run,
    class_last last_class run = true ->
    class_last last_class
      (fold_left (fun sorted pivot => insert_sorted comparefn pivot sorted)
                 rest run) = true.
Proof.
  induction rest as [|x rest IH]; intros run H; simpl; [exact H|].
  apply IH. now apply insert_class_last.
Qed.

(** In an ascending run an element of the class is followed by elements
    of the class only. *)
Lemma ascending_run_class (rest : list A) :
  forall previous,
    last_class previous = true ->
    forallb last_class
      (firstn (S (run_length comparefn false previous rest))
              (previous :: rest)) = true.
Proof.
  induction rest as [|current rest IH]; intros previous Hp;
    cbn [run_length firstn forallb].
  - now rewrite Hp.
  - rewrite Hp. cbn [andb].
    destruct (num_neg (comparefn current previous)) eqn:Hn; cbn [Bool.eqb];
      [reflexivity|].
    destruct (last_class current) eqn:Hc.
    + now apply IH.
    + rewrite (other_before current previous Hc Hp) in Hn. discriminate Hn.
Qed.

Lemma ascending_run_class_last (rest : list A) :
  forall previous,
    class_last last_class
      (firstn (S (run_length comparefn false previous rest))
              (previous :: rest)) = true.
Proof.
  induction rest as [|current rest IH]; intros previous.
  - cbn. now destruct (last_class previous).
  - destruct (last_class previous) eqn:Hp.
    + pose proof (ascending_run_class (current :: rest) previous Hp) as H.
      cbn [firstn] in H |- *. cbn [forallb] in H.
      apply andb_prop in H as [_ H].
      cbn [class_last]. now rewrite Hp.
    + cbn [run_length].
      destruct (Bool.eqb (num_neg (comparefn current previous)) false).
      * cbn [firstn class_last]. rewrite Hp. apply IH.
      * cbn [firstn class_last]. now rewrite Hp.
Qed.

(** A descending run holds no element of the class behind its first
    one. *)
Lemma descending_run_others (rest : list A) :
  forall previous,
    forallb (fun b => negb (last_class b))
      (firstn (run_length comparefn true previous rest) rest) = true.
Proof.
  induction rest as [|current rest IH]; intros previous; [reflexivity|].
  cbn [run_length].
  destruct (num_neg (comparefn current previous)) eqn:Hn; cbn [Bool.eqb];
    [|reflexivity].
  cbn [firstn forallb]. rewrite IH, andb_true_r.
  destruct (last_class current) eqn:Hc; [|reflexivity].
  rewrite (last_after current previous Hc) in Hn. discriminate Hn.
Qed.

Lemma count_and_make_run_class_last (a run rest : list A) :
  count_and_make_run comparefn a = (run, rest) ->
  class_last last_class run = true.
Proof.
  destruct a as [|e0 [|e1 a]]; intros H.
  - inversion H. reflexivity.
  - inversion H. cbn. now destruct (last_class e0).
  - rewrite count_and_make_run_eq in H. cbv zeta in H.
    destruct (num_neg (comparefn e1 e0)) eqn:Hd; split_pair H.
    + cbn [firstn rev].
      pose proof (descending_run_others (e1 :: a) e0) as Ho.
      destruct (last_class e0) eqn:H0.
      * apply class_last_app; [|cbn; now rewrite H0].
        now rewrite forallb_rev.
      * rewrite <- (app_nil_r (rev _ ++ [e0])).
        apply class_last_app; [|reflexivity].
        rewrite forallb_app, forallb_rev, Ho. cbn. now rewrite H0.
    + apply ascending_run_class_last.
Qed.

Lemma js_sort_class_last (l : list A) :
  class_last last_class (js_sort comparefn l) = true.
Proof.
  unfold js_sort.
  destruct (count_and_make_run comparefn l) as [run rest] eqn:E.
  apply fold_class_last. eapply count_and_make_run_class_last, E.
Qed.

End Insertion.

(** *** A comparator that is a consistent order on the elements sorted *)

Section Ordered.
Variable A : Type.
Variable comparefn : A -> A -> num.
Variable P : A -> Prop.

Hypothesis before_total :
  forall a b, P a -> P b ->
              num_neg (comparefn a b) = true -> before comparefn a b.
Hypothesis before_trans :
  forall a b c, P a -> P b -> P c ->
                before comparefn a b -> before comparefn b c ->
                before comparefn a c.

(** A sorted list falls into the elements the pivot does not come before
    and those it comes before. *)
Lemma sorted_partition (pivot : A) (l : list A) :
  P pivot -> Forall P l ->
  StronglySorted (before comparefn) l ->
  exists l1 l2,
    l = l1 ++ l2
    /\ Forall (fun e => num_neg (comparefn pivot e) = false) l1
    /\ Forall (fun e => num_neg (comparefn pivot e) = true) l2.
Proof.
  intros Hp HP Hs. induction Hs as [|a l Hl IH Ha].
  - exists [], []. repeat split; constructor.
  - inversion HP as [|? ? Pa Pl]; subst.
    destruct (num_neg (comparefn pivot a)) eqn:Hn.
    + exists [], (a :: l). split; [reflexivity|]. split; [constructor|].
      constructor; [exact Hn|].
      rewrite Forall_forall in *. intros e He.
      destruct (num_neg (comparefn pivot e)) eqn:Hne; [reflexivity|].
      assert (Hae : before comparefn a pivot).
      { apply (before_trans a e pivot); auto. }
      unfold before in Hae. rewrite Hae in Hn. discriminate Hn.
    + destruct (IH Pl) as (l1 & l2 & -> & H1 & H2).
      exists (a :: l1), l2. split; [reflexivity|].
      split; [now constructor|exact H2].
Qed.

Lemma insert_sorted_sorted (x : A) (l : list A) :
  P x -> Forall P l ->
  StronglySorted (before comparefn) l ->
  StronglySorted (before comparefn) (insert_sorted comparefn x l).
Proof.
  intros Hx HP Hs.
  destruct (sorted_partition x l Hx HP Hs) as (l1 & l2 & -> & H1 & H2).
  rewrite insert_sorted_partition by assumption.
  apply Forall_app in HP as [P1 P2].
  destruct (StronglySorted_split _ _ _ _ Hs) as [S1 S12].
  apply StronglySorted_tail in Hs.
  apply StronglySorted_join; [exact S1| |].
  - constructor; [exact Hs|].
    rewrite Forall_forall in *. intros e He.
    apply before_total; auto.
  - rewrite Forall_forall in *. intros a Ha.
    constructor; [exact (H1 a Ha)|].
    rewrite Forall_forall. intros b Hb.
    specialize (S12 b Hb). rewrite Forall_forall in S12. now apply S12.
Qed.

Lemma fold_insert_sorted (rest : list A) :
  forall run,
    Forall P run -> Forall P rest ->
    StronglySorted (before comparefn) run ->
    StronglySorted (before comparefn)
      (fold_left (fun sorted pivot => insert_sorted comparefn pivot sorted)
                 rest run).
Proof.
  induction rest as [|x rest IH]; intros run Hrun Hrest Hs; simpl;
    [exact Hs|].
  inversion Hrest; subst.
  apply IH; [|assumption|now apply insert_sorted_sorted].
  eapply Permutation_Forall; [apply insert_sorted_perm|].
  now constructor.
Qed.

(** A run is a chain: each element stands to the next as the first two
    do. *)
Lemma run_chain (d : bool) (R : A -> A -> Prop) (rest : list A) :
  (forall a b c, P a -> P b -> P c -> R a b -> R b c -> R a c) ->
  (forall previous current,
      P previous -> P current ->
      Bool.eqb (num_neg (comparefn current previous)) d = true ->
      R previous current) ->
  forall previous,
    P previous -> Forall P rest ->
    StronglySorted R
      (firstn (S (run_length comparefn d previous rest)) (previous :: rest)).
Proof.
  intros Htrans Hstep.
  induction rest as [|current rest IH]; intros previous Hp HP.
  - cbn. constructor; constructor.
  - inversion HP as [|? ? Hc Hrest]; subst. cbn [run_length].
    destruct (Bool.eqb (num_neg (comparefn current previous)) d) eqn:E.
    + specialize (IH current Hc Hrest).
      change (firstn (S (S (run_length comparefn d current rest)))
                     (previous :: current :: rest))
        with (previous
                :: firstn (S (run_length comparefn d current rest))
                          (current :: rest)).
      constructor; [exact IH|].
      assert (Hpc : R previous current) by now apply Hstep.
      cbn [firstn] in IH |- *.
      inversion IH as [|? ? _ Hall]; subst.
      constructor; [exact Hpc|].
      rewrite Forall_forall in *. intros e He.
      apply (Htrans previous current e); auto.
      apply Hrest. eapply firstn_In, He.
    + cbn. constructor; constructor.
Qed.

Lemma count_and_make_run_sorted (a run rest : list A) :
  Forall P a ->
  count_and_make_run comparefn a = (run, rest) ->
  StronglySorted (before comparefn) run.
Proof.
  intros HP. destruct a as [|e0 [|e1 a]]; intros H.
  - inversion H. constructor.
  - inversion H. constructor; constructor.
  - rewrite count_and_make_run_eq in H. cbv zeta in H.
    inversion HP as [|? ? P0 Prest]; subst.
    destruct (num_neg (comparefn e1 e0)) eqn:Hd; split_pair H.
    + apply StronglySorted_rev.
      apply (run_chain true (fun a b => before comparefn b a));
        try assumption.
      * intros x y z Px Py Pz Hxy Hyz.
        apply (before_trans z y x); assumption.
      * intros previous current Pp Pc E.
        apply Bool.eqb_prop in E. now apply before_total.
    + apply (run_chain false (before comparefn)); try assumption.
      intros previous current Pp Pc E.
      apply Bool.eqb_prop in E. exact E.
Qed.

Lemma js_sort_sorted (l : list A) :
  Forall P l -> StronglySorted (before comparefn) (js_sort comparefn l).
Proof.
  intros HP. unfold js_sort.
  destruct (count_and_make_run comparefn l) as [run rest] eqn:E.
  assert (Hall : Forall P (run ++ rest)).
  { eapply Permutation_Forall; [|exact HP].
    exact (count_and_make_run_perm A comparefn _ _ _ E). }
  apply Forall_app in Hall as [Hrun Hrest].
  apply fold_insert_sorted; try assumption.
  exact (count_and_make_run_sorted l run rest HP E).
Qed.

(** *** The sort is stable: elements the comparator does not tell apart
    keep their order *)

Variable same : A -> bool.

Hypothesis same_level :
  forall a b, P a -> P b -> same a = true -> same b = true ->
              num_neg (comparefn a b) = false.

Lemma insert_sorted_filter (x : A) (l : list A) :
  P x -> Forall P l ->
  StronglySorted (before comparefn) l ->
  filter same (insert_sorted comparefn x l)
  = filter same l ++ filter same [x].
Proof.
  intros Hx HP Hs.
  destruct (sorted_partition x l Hx HP Hs) as (l1 & l2 & -> & H1 & H2).
  rewrite insert_sorted_partition by assumption.
  apply Forall_app in HP as [_ P2].
  rewrite !filter_app. cbn [filter].
  destruct (same x) eqn:Sx; [|now rewrite app_nil_r].
  assert (E : filter same l2 = []).
  { clear - H2 P2 Sx Hx same_level.
    induction l2 as [|e l2 IH]; [reflexivity|].
    inversion H2; subst. inversion P2; subst. cbn [filter].
    destruct (same e) eqn:Se; [|now apply IH].
    rewrite (same_level x e) in H1 by assumption. discriminate H1. }
  rewrite E. now rewrite <- app_assoc.
Qed.

Lemma fold_insert_filter (rest : list A) :
  forall run,
    Forall P run -> Forall P rest ->
    StronglySorted (before comparefn) run ->
    filter same
      (fold_left (fun sorted pivot => insert_sorted comparefn pivot sorted)
                 rest run)
    = filter same run ++ filter same rest.
Proof.
  induction rest as [|x rest IH]; intros run Hrun Hrest Hs; simpl fold_left;
    [cbn; now rewrite app_nil_r|].
  inversion Hrest; subst.
  rewrite IH; [| |assumption|now apply insert_sorted_sorted].
  - rewrite insert_sorted_filter by assumption.
    rewrite <- app_assoc, <- filter_app. reflexivity.
  - eapply Permutation_Forall; [apply insert_sorted_perm|].
    now constructor.
Qed.

(** Of the elements of a run that descends, no two are on a level. *)
Lemma descending_filter (l : list A) :
  Forall P l ->
  StronglySorted (fun a b => num_neg (comparefn b a) = true) l ->
  rev (filter same l) = filter same l.
Proof.
  intros HP Hs. induction Hs as [|a l Hl IH Ha]; [reflexivity|].
  inversion HP as [|? ? Pa Pl]; subst. cbn [filter].
  destruct (same a) eqn:Sa; [|now apply IH].
  assert (E : filter same l = []).
  { clear - Ha Pl Pa Sa same_level.
    induction l as [|e l IH]; [reflexivity|].
    inversion Ha; subst. inversion Pl; subst. cbn [filter].
    destruct (same e) eqn:Se; [|now apply IH].
    rewrite (same_level e a) in H1 by assumption. discriminate H1. }
  now rewrite E.
Qed.

Lemma count_and_make_run_filter (a run rest : list A) :
  Forall P a ->
  count_and_make_run comparefn a = (run, rest) ->
  filter same run ++ filter same rest = filter same a.
Proof.
  intros HP. destruct a as [|e0 [|e1 a]]; intros H.
  - inversion H. reflexivity.
  - inversion H. now rewrite app_nil_r.
  - rewrite count_and_make_run_eq in H. cbv zeta in H.
    inversion HP as [|? ? P0 Prest]; subst.
    destruct (num_neg (comparefn e1 e0)) eqn:Hd; split_pair H.
    + rewrite filter_rev, descending_filter.
      * now rewrite <- filter_app, firstn_skipn.
      * apply Forall_forall. intros e He.
        rewrite Forall_forall in HP. apply HP. eapply firstn_In, He.
      * apply (run_chain true
                 (fun a b => num_neg (comparefn b a) = true));
          try assumption.
        -- intros x y z Px Py Pz Hyx Hzy.
           destruct (num_neg (comparefn z x)) eqn:Hzx; [reflexivity|].
           assert (Hyz : before comparefn y z).
           { apply (before_trans y x z); auto. }
           unfold before in Hyz. rewrite Hyz in Hzy. discriminate Hzy.
        -- intros previous current Pp Pc E.
           now apply Bool.eqb_prop in E.
    + now rewrite <- filter_app, firstn_skipn.
Qed.

Lemma js_sort_stable (l : list A) :
  Forall P l -> filter same (js_sort comparefn l) = filter same l.
Proof.
  intros HP. unfold js_sort.
  destruct (count_and_make_run comparefn l) as [run rest] eqn:E.
  assert (Hall : Forall P (run ++ rest)).
  { eapply Permutation_Forall; [|exact HP].
    exact (count_and_make_run_perm A comparefn _ _ _ E). }
  apply Forall_app in Hall as [Hrun Hrest].
  rewrite fold_insert_filter; try assumption.
  - exact (count_and_make_run_filter l run rest HP E).
  - exact (count_and_make_run_sorted l run rest HP E).
Qed.

End Ordered.

End SortFacts.

(** ** Chart data *)

Module ChartFacts.
Import Js Value Charts SortFacts.

(** *** Numbers *)

Lemma Qle_bool_false (x y : Q) : Qle_bool x y = false <-> (y < x)%Q.
Proof.
  split; intros H.
  - apply Qnot_le_lt. intros Hle. apply Qle_bool_iff in Hle.
    now rewrite Hle in H.
  - destruct (Qle_bool x y) eqn:E; [|reflexivity].
    apply Qle_bool_iff in E. exfalso. apply (Qlt_not_le _ _ H E).
Qed.

Lemma Qle_bool_sub_r (x y : Q) : Qle_bool 0 (x - y) = Qle_bool y x.
Proof.
  destruct (Qle_bool y x) eqn:E.
  - apply Qle_bool_iff in E. apply Qle_bool_iff.
    apply (Qplus_le_l _ _ y). ring_simplify. exact E.
  - apply Qle_bool_false in E. apply Qle_bool_false.
    apply (Qplus_lt_l _ _ y). ring_simplify. exact E.
Qed.

Lemma num_neg_sub (a b : num) :
  is_NaN a = false -> is_NaN b = false ->
  num_neg (num_sub a b) = num_ltb a b.
Proof.
  destruct a as [|s|x], b as [|t|y]; try discriminate; intros _ _; simpl.
  - destruct s, t; reflexivity.
  - reflexivity.
  - reflexivity.
  - now rewrite Qle_bool_sub_r.
Qed.

Lemma num_ltb_asym (a b : num) : num_ltb a b = true -> num_ltb b a = false.
Proof.
  destruct a as [|s|x], b as [|t|y]; simpl; try easy.
  - destruct s, t; easy.
  - intros ->. reflexivity.
  - intros H. apply negb_true_iff in H. now rewrite H.
  - intros H. apply negb_true_iff, Qle_bool_false in H.
    apply negb_false_iff, Qle_bool_iff. now apply Qlt_le_weak.
Qed.

Lemma num_ltb_cotrans (a b c : num) :
  is_NaN a = false -> is_NaN b = false -> is_NaN c = false ->
  num_ltb a b = false -> num_ltb b c = false -> num_ltb a c = false.
Proof.
  destruct a as [|s|x], b as [|t|y], c as [|u|z]; simpl; try easy;
    intros _ _ _ H1 H2;
    try destruct s; try destruct t; try destruct u; simpl in *; try easy.
  apply negb_false_iff in H1, H2. apply Qle_bool_iff in H1, H2.
  apply negb_false_iff, Qle_bool_iff. eapply Qle_trans; eassumption.
Qed.

Section WithHost.
Context {host : ChartHost}.

Lemma y_value_number (yField : option str) (r : Row) :
  is_NaN (y_value yField r) = false.
Proof.
  unfold y_value, num_or_zero.
  destruct (parseFloat (get r (prop_key yField))) as [|s|q]; simpl;
    try reflexivity.
  now destruct (negb (Qeq_bool q 0)).
Qed.

(** The comparator of the cut puts [a] before [b] exactly when the value
    of [a] is greater than the value of [b]. *)
Lemma by_first_y_desc_neg (yField : option str) (a b : Row) :
  num_neg (by_first_y_desc yField a b)
  = num_ltb (y_value yField b) (y_value yField a).
Proof.
  unfold by_first_y_desc. apply num_neg_sub; apply y_value_number.
Qed.

Lemma by_first_y_desc_before (yField : option str) (a b : Row) :
  before (by_first_y_desc yField) a b
  <-> num_leb (y_value yField b) (y_value yField a) = true.
Proof.
  unfold before, num_leb. rewrite by_first_y_desc_neg.
  split; intros H; [now rewrite H|now apply negb_true_iff in H].
Qed.

Lemma StronglySorted_weaken (A : Type) (R R' : A -> A -> Prop) (l : list A) :
  (forall a b, R a b -> R' a b) -> StronglySorted R l -> StronglySorted R' l.
Proof.
  intros HR. induction 1 as [|a l Hl IH Ha]; constructor; [exact IH|].
  eapply Forall_impl; [|exact Ha]. intros b. apply HR.
Qed.

(** The cut: the first [n] rows of the rows sorted by the first y value
    are the top [n]. *)
Lemma cut_is_top (yField : option str) (n : nat) (data sorted : list Row) :
  Permutation data sorted -> n <= length sorted ->
  is_top yField n
         (firstn n (js_sort (by_first_y_desc yField) sorted)) data.
Proof.
  intros Hperm Hn.
  set (l := js_sort (by_first_y_desc yField) sorted).
  assert (Hl : StronglySorted (before (by_first_y_desc yField)) l).
  { apply (js_sort_sorted Row (by_first_y_desc yField) (fun _ => True)).
    - intros a b _ _ H. unfold before. rewrite by_first_y_desc_neg in *.
      now apply num_ltb_asym.
    - intros a b c _ _ _. unfold before. rewrite !by_first_y_desc_neg.
      apply num_ltb_cotrans; apply y_value_number.
    - apply Forall_forall. intros; exact I. }
  rewrite <- (firstn_skipn n l) in Hl.
  apply StronglySorted_split in Hl as [Hfirst Hrest].
  split; [|split].
  - apply firstn_length_le. unfold l. now rewrite js_sort_length.
  - eapply StronglySorted_weaken; [|exact Hfirst].
    intros a b. apply by_first_y_desc_before.
  - exists (skipn n l). split.
    + rewrite firstn_skipn. rewrite Hperm. apply js_sort_perm.
    + eapply Forall_impl; [|exact Hrest]. intros r Hr.
      eapply Forall_impl; [|exact Hr]. intros d.
      apply by_first_y_desc_before.
Qed.

(** *** [sortChartData] *)

Lemma sortChartData_perm (data : list Row) (xField : option str) :
  Permutation data (sortChartData data xField).
Proof.
  unfold sortChartData.
  destruct ((length data =? 0) || no_field xField); [reflexivity|].
  apply js_sort_perm.
Qed.

Lemma class_last_nulls_last (k : str) (rows : list Row) :
  class_last (fun r => nullish (get r k)) rows = nulls_last k rows.
Proof.
  induction rows as [|r rows IH]; [reflexivity|].
  simpl. now rewrite IH.
Qed.

(** A row without x value comes before no row, and every row with an x
    value comes before it. *)
Lemma compare_rows_null_first (mode : SortMode) (k : str) (a b : Row) :
  nullish (get a k) = true -> num_neg (compare_rows mode k a b) = false.
Proof. intros H. unfold compare_rows. now rewrite H. Qed.

Lemma compare_rows_null_second (mode : SortMode) (k : str) (a b : Row) :
  nullish (get a k) = false -> nullish (get b k) = true ->
  num_neg (compare_rows mode k a b) = true.
Proof. intros Ha Hb. unfold compare_rows. now rewrite Ha, Hb. Qed.

Lemma sortChartData_unfold (k : str) (first : Row) (rest : list Row) :
  is_empty k = false ->
  sortChartData (first :: rest) (Some k)
  = js_sort (compare_rows (sort_mode (get first k)) k) (first :: rest).
Proof.
  intros Hk. unfold sortChartData. simpl. now rewrite Hk.
Qed.

Lemma nulls_last_none (k : str) (rows : list Row) :
  Forall (fun r => nullish (get r k) = false) rows ->
  nulls_last k rows = true.
Proof.
  induction 1 as [|r rows Hr _ IH]; [reflexivity|].
  cbn [nulls_last]. now rewrite Hr.
Qed.

(** The rows [buildBarOption] and the other builders of chart options
    hand to [sortChartData] all have an x value. *)
Lemma valid_rows_have_x (xField : option str) (data : list Row) :
  Forall (fun r => nullish (get r (prop_key xField)) = false)
         (filter (has_x xField) data).
Proof.
  apply Forall_forall. intros r Hr. apply filter_In in Hr as [_ Hr].
  unfold has_x in Hr. cbv zeta in Hr. apply andb_prop in Hr as [Hr _].
  now apply negb_true_iff in Hr.
Qed.

End WithHost.

(** C10.  [sortChartData] returns a permutation of its input in which
    the rows with a null (or missing) x value come after all the others,
    and the comparator it sorts by is the one of the mode of the first
    row's x value.  This holds whenever a field name is given or no row
    lacks its x value, which is so at every call: the renderers return
    before the call when they have no x field, and the builders of chart
    options drop the rows without x value first.  (Without a field name
    the guard returns the rows as they are.) *)
Theorem sortChartData_sorts :
  forall (host : ChartHost) (xField : option str) (data : list Row),
    no_field xField = false
    \/ Forall (fun r => nullish (get r (prop_key xField)) = false) data ->
    Permutation data (sortChartData data xField)
    /\ nulls_last (prop_key xField) (sortChartData data xField) = true
    /\ (forall first rest,
           data = first :: rest -> no_field xField = false ->
           sortChartData data xField
           = js_sort (compare_rows (sort_mode (get first (prop_key xField)))
                                   (prop_key xField))
                     data)
    /\ (no_field xField = true -> sortChartData data xField = data).
Proof.
  intros host xField data Hpre.
  split; [apply sortChartData_perm|]. split; [|split].
  - unfold sortChartData.
    destruct ((length data =? 0) || no_field xField) eqn:Hguard.
    + destruct Hpre as [Hk|Hall]; [|now apply nulls_last_none].
      rewrite Hk, orb_false_r in Hguard.
      destruct data; [reflexivity|discriminate Hguard].
    + cbv zeta. rewrite <- class_last_nulls_last.
      apply js_sort_class_last.
      * intros a b. apply compare_rows_null_first.
      * intros a b. apply compare_rows_null_second.
  - intros first rest -> Hk. unfold sortChartData.
    cbn [length Nat.eqb orb]. now rewrite Hk.
  - intros Hk. unfold sortChartData. now rewrite Hk, orb_true_r.
Qed.

(** Four rows, two of them without an x value: these two come last, in
    the order they had. *)
Lemma sortChartData_sorts_witness :
  let data := [[(lit "m", JNull); (lit "v", JNum (Fin 3))];
               [(lit "m", JStr (lit "b")); (lit "v", JNum (Fin 1))];
               [(lit "v", JNum (Fin 7))];
               [(lit "m", JStr (lit "a")); (lit "v", JNum (Fin 2))]] in
  no_field (Some (lit "m")) = false
  /\ Permutation data
       (@sortChartData sample_chart_host data (Some (lit "m")))
  /\ nulls_last (lit "m")
       (@sortChartData sample_chart_host data (Some (lit "m"))) = true
  /\ @sortChartData sample_chart_host data (Some (lit "m"))
     = [[(lit "m", JStr (lit "a")); (lit "v", JNum (Fin 2))];
        [(lit "m", JStr (lit "b")); (lit "v", JNum (Fin 1))];
        [(lit "m", JNull); (lit "v", JNum (Fin 3))];
        [(lit "v", JNum (Fin 7))]].
Proof.
  cbv zeta.
  destruct (sortChartData_sorts sample_chart_host (Some (lit "m"))
              [[(lit "m", JNull); (lit "v", JNum (Fin 3))];
               [(lit "m", JStr (lit "b")); (lit "v", JNum (Fin 1))];
               [(lit "v", JNum (Fin 7))];
               [(lit "m", JStr (lit "a")); (lit "v", JNum (Fin 2))]]
              (or_introl eq_refl))
    as (H1 & H2 & _).
  split; [reflexivity|]. split; [exact H1|]. split; [exact H2|].
  vm_compute. reflexivity.
Defined.

(** *** The cap on bar charts *)

(** C6 as stated fails on the ECharts path: [buildBarOption] only cuts
    when more than 25 rows are left, so 21 rows are all displayed; and
    [renderBarChart] displays no row at all when no field is usable (here
    21 rows without a numeric column). *)
Lemma bar_cap_counterexample :
  length (@buildBarOption_displayData sample_chart_host no_sources
            (sample_rows 21)) = 21
  /\ @renderBarChart_displayData sample_chart_host no_sources
       (repeat [(lit "m", JStr (lit "a"))] 21) = None.
Proof. split; vm_compute; reflexivity. Qed.

(** C6, amended.  [renderBarChart], when it finds usable fields and is
    given more than 20 rows, displays exactly 20 rows, the top 20 of its
    input by the first y value in descending order.  [buildBarOption]
    first drops the rows without an x value; when more than 25 rows are
    left it displays exactly 20, the top 20 of those by the first y value,
    and otherwise all of them. *)
Theorem bar_chart_cap :
  forall (host : ChartHost) (config : ChartConfig) (data : list Row),
    (forall display,
        renderBarChart_displayData config data = Some display ->
        maxBarItems < length data ->
        is_top (hd_error (snd (renderBarChart_fields config data)))
               maxBarItems display data)
    /\ (let xField := fst (parseChartFields config data) in
        let yFields := snd (parseChartFields config data) in
        let valid := filter (has_x xField) data in
        (25 < length valid ->
         is_top (hd_error yFields) 20
                (buildBarOption_displayData config data) valid)
        /\ (length valid <= 25 ->
            buildBarOption_displayData config data
            = sortChartData valid xField)).
Proof.
  intros host config data. split.
  - intros display Hd Hlen. unfold renderBarChart_displayData in Hd.
    destruct (renderBarChart_fields config data) as [xField yFields].
    destruct (no_field xField || (length yFields =? 0)) eqn:Hno;
      [discriminate|].
    assert (Hs : length (sortChartData data xField) = length data).
    { symmetry. apply Permutation_length, sortChartData_perm. }
    rewrite Hs in Hd.
    cbn [snd].
    apply Nat.ltb_lt in Hlen. rewrite Hlen in Hd. cbn [andb] in Hd.
    destruct (0 <? length yFields) eqn:Hy.
    + injection Hd as <-.
      apply (cut_is_top (hd_error yFields) maxBarItems data
                        (sortChartData data xField)).
      * apply sortChartData_perm.
      * rewrite Hs. apply Nat.ltb_lt in Hlen. lia.
    + destruct yFields; [|discriminate Hy].
      cbn [length Nat.eqb] in Hno. now rewrite orb_true_r in Hno.
  - cbv zeta. unfold buildBarOption_displayData.
    destruct (parseChartFields config data) as [xField yFields].
    cbn [fst snd].
    set (valid := filter (has_x xField) data).
    assert (Hs : length (sortChartData valid xField) = length valid).
    { symmetry. apply Permutation_length, sortChartData_perm. }
    rewrite Hs. split; intros Hlen.
    + apply Nat.ltb_lt in Hlen. rewrite Hlen.
      apply (cut_is_top (hd_error yFields) 20 valid
                        (sortChartData valid xField));
        [apply sortChartData_perm|].
      rewrite Hs. apply Nat.ltb_lt in Hlen. lia.
    + apply Nat.ltb_ge in Hlen. now rewrite Hlen.
Qed.

(** 1,000 rows resolve to 20 on both paths. *)
Lemma bar_chart_cap_witness :
  let data := sample_rows 1000 in
  (exists display,
      @renderBarChart_displayData sample_chart_host no_sources data
      = Some display
      /\ length display = 20)
  /\ length (@buildBarOption_displayData sample_chart_host no_sources data)
     = 20.
Proof.
  cbv zeta.
  destruct (bar_chart_cap sample_chart_host no_sources (sample_rows 1000))
    as [H1 H2].
  split.
  - exists (firstn 20 (sample_rows 1000)).
    assert (E : @renderBarChart_displayData sample_chart_host no_sources
                  (sample_rows 1000)
                = Some (firstn 20 (sample_rows 1000)))
      by (vm_compute; reflexivity).
    split; [exact E|].
    refine (proj1 (H1 _ E _)). vm_compute. lia.
  - cbv zeta in H2. destruct H2 as [H2 _].
    refine (proj1 (H2 _)). vm_compute. lia.
Defined.

(** *** Ticks *)

(** C7.  For the input (0, 93, 5) the rough step is 23.25, its magnitude
    is 10 and its residual lies between 1.5 and 3, so the step chosen is
    20 = 2 x 10^1, a member of the nice set and not 18.6; the result is
    the five ticks 0, 20, 40, 60, 80, the multiples of the step from 0
    on. *)
Theorem ticks_0_93_5 :
  calculateYTicks 0 93 5 = [0; 20; 40; 60; 80]%float
  /\ length (calculateYTicks 0 93 5) = 5
  /\ niceStep 0 93 5 = 20%float
  /\ (93 / 4 = 23.25)%float
  /\ magnitude_of 23.25 = pow10 1
  /\ pow10 1 = 10%float
  /\ niceStep 0 93 5 = (2 * pow10 1)%float
  /\ calculateYTicks 0 93 5
     = map (fun i => (i * niceStep 0 93 5)%float) [0; 1; 2; 3; 4]%float.
Proof.
  repeat split; vm_compute; reflexivity.
Qed.

End ChartFacts.

(** ** Discoveries *)

Module DiscoveryFacts.
Import Js Regex Markdown Discovery SplitFacts RegexFacts.

Lemma startsWith_app_l (p a b : str) :
  startsWith p a = true -> startsWith p (a ++ b) = true.
Proof.
  revert a; induction p as [|x p IH]; intros [|y a]; simpl; try easy.
  intros H. apply andb_prop in H as [Hxy Hp]. now rewrite Hxy, IH.
Qed.

Lemma includes_app_l (p a b : str) :
  includes p a = true -> includes p (a ++ b) = true.
Proof.
  induction a as [|c a IH]; intros H.
  - destruct p; [destruct b; reflexivity|discriminate].
  - cbn [includes] in H. apply orb_prop in H as [H|H].
    + change ((c :: a) ++ b) with (c :: (a ++ b)). cbn [includes].
      change (c :: (a ++ b)) with ((c :: a) ++ b).
      now rewrite (startsWith_app_l p (c :: a) b H).
    + change ((c :: a) ++ b) with (c :: (a ++ b)). cbn [includes].
      rewrite (IH H). apply orb_true_r.
Qed.

Lemma includes_app_r (p a b : str) :
  includes p b = true -> includes p (a ++ b) = true.
Proof.
  intros H. induction a as [|c a IH]; [exact H|].
  change ((c :: a) ++ b) with (c :: (a ++ b)). cbn [includes].
  rewrite IH. apply orb_true_r.
Qed.

Lemma includes_prefix (p b : str) : includes p (p ++ b) = true.
Proof.
  destruct (p ++ b) eqn:E; cbn [includes]; rewrite <- E, startsWith_app;
    reflexivity.
Qed.

Lemma includes_mid (p a b : str) : includes p (a ++ p ++ b) = true.
Proof. apply includes_app_r, includes_prefix. Qed.



Section WithHost.
Context {host : PageHost}.

(** A container holds its wrapper, and the wrapper starts with the id
    attribute. *)
Lemma container_holds_wrapper (chart : Chart) (index cIndex : nat) :
  exists pre post,
    renderChartContainer chart (container_id index cIndex)
    = pre ++ wrapper_of chart index cIndex ++ post.
Proof.
  exists (nl ++ indent 8 ++ lit "<div class=" ++ q ++ lit "chart-container"
          ++ q ++ lit ">" ++ nl ++ indent 12 ++ lit "<h4 class=" ++ q
          ++ lit "chart-title" ++ q ++ lit ">"
          ++ escapeHtml (text_or (chart_title chart) [22270; 34920]%N)
          ++ lit "</h4>" ++ nl ++ indent 12 ++ lit "<div class=" ++ q
          ++ lit "chart-wrapper" ++ q ++ lit " "),
         (lit "></div>" ++ nl ++ indent 8 ++ lit "</div>" ++ nl ++ indent 4).
  unfold renderChartContainer, wrapper_of, id_attribute.
  repeat rewrite <- app_assoc. reflexivity.
Qed.

Lemma container_includes_id (chart : Chart) (index cIndex : nat) :
  includes (id_attribute index cIndex)
           (renderChartContainer chart (container_id index cIndex)) = true.
Proof.
  destruct (container_holds_wrapper chart index cIndex) as (pre & post & ->).
  unfold wrapper_of. rewrite <- !app_assoc.
  apply includes_mid.
Qed.




End WithHost.


(** The page means to append every chart that no token has placed, and
    takes a chart for placed when the text of its container id occurs in
    the insight.  Where that text occurs without the chart, here in the
    title of the chart before it, the chart is not rendered at all. *)
Lemma chart_lost_behind_id_text :
  let second := sample_chart (lit "b") (lit "B") in
  let shadowed :=
    {| insight := Some (lit "see {{CHART:a}}"); content := None;
       title := None;
       charts := [sample_chart (lit "a")
                               (lit "id=" ++ q ++ lit "chart-0-1" ++ q);
                  second];
       data_interpretation := None |} in
  includes (@wrapper_of sample_page_host second 0 1)
           (@renderDiscovery sample_page_host shadowed 0) = false.
Proof. vm_compute. reflexivity. Qed.



End DiscoveryFacts.

(** ** Sending a message *)

Module ChatFacts.
Import Js Value Stream Dispatch Chat SplitFacts FrameFacts DispatchFacts.

(** No stream event touches the message history, the session id or the
    loading flag. *)
Lemma handleStreamEvent_keeps (e : StreamEvent) (st : AppState * StreamState) :
  messages (fst (handleStreamEvent e st)) = messages (fst st)
  /\ sessionId (fst (handleStreamEvent e st)) = sessionId (fst st)
  /\ isLoading (fst (handleStreamEvent e st)) = isLoading (fst st).
Proof.
  destruct st as [app d]. destruct e; simpl; auto.
  destruct report as [r|]; [destruct (truthy r)|]; simpl; auto.
Qed.

Lemma apply_events_keeps (es : list StreamEvent) :
  forall st : AppState * StreamState,
    messages (fst (apply_events es st)) = messages (fst st)
    /\ sessionId (fst (apply_events es st)) = sessionId (fst st)
    /\ isLoading (fst (apply_events es st)) = isLoading (fst st).
Proof.
  induction es as [|e es IH]; intros st; [simpl; auto|].
  rewrite apply_events_cons.
  destruct (IH (handleStreamEvent e st)) as (H1 & H2 & H3).
  destruct (handleStreamEvent_keeps e st) as (K1 & K2 & K3).
  rewrite H1, H2, H3. auto.
Qed.

Section WithHost.
Context {host : JsonHost}.

(** The state in which [sendMessageStream] sends: the session with the
    pending clarification taken out. *)
Lemma sendMessageStream_sent (userContent : str) (response : Response)
      (app : AppState) :
  let sent := fst (sendMessageStream userContent response app) in
  message (body sent) = userContent
  /\ history (body sent) = Some (last_n 10 (messages app))
  /\ session_id (body sent) = sessionId app
  /\ state_at_send sent = set_pending None app.
Proof.
  unfold sendMessageStream.
  destruct (pendingClarification app) as [p|] eqn:Hp;
    destruct (ok response); cbn [negb];
    repeat match goal with
           | |- context [read_loop ?f ?c ?b ?s] =>
               destruct (read_loop f c b s)
           end;
    cbn [fst body state_at_send message history session_id];
    repeat split; try reflexivity;
    destruct app; simpl in *; now subst.
Qed.

(** What [sendMessageStream] leaves: on a response that is not ok the
    state at the throw, otherwise the state after the events with the
    draft's content pushed as the assistant's message. *)
Lemma sendMessageStream_result (userContent : str) (response : Response)
      (app : AppState) :
  let out := sendMessageStream userContent response app in
  let sent := fst out in
  let final := apply_events (decoded_frames (chunks response))
                            (state_at_send sent, fresh_draft) in
  snd out
  = if ok response
    then inl (push_message (assistant_message (content (snd final)))
                           (fst final))
    else inr (state_at_send sent).
Proof.
  cbv zeta.
  pose proof (sendMessageStream_sent userContent response app) as Hs.
  cbv zeta in Hs. destruct Hs as (_ & _ & _ & Hs). rewrite Hs. clear Hs.
  unfold sendMessageStream.
  destruct (pendingClarification app) as [p|] eqn:Hp.
  - destruct (ok response); cbn [negb snd]; [|reflexivity].
    rewrite read_loop_dispatch.
    destruct (apply_events (decoded_frames (chunks response))
                           (set_pending None app, fresh_draft)); reflexivity.
  - replace (set_pending None app) with app
      by (destruct app; simpl in *; now subst).
    destruct (ok response); cbn [negb snd]; [|reflexivity].
    rewrite read_loop_dispatch.
    destruct (apply_events (decoded_frames (chunks response))
                           (app, fresh_draft)); reflexivity.
Qed.

End WithHost.

Lemma last_skipn {A} (d : A) (l : list A) (k : nat) :
  k < length l -> last (skipn k l) d = last l d.
Proof.
  revert k; induction l as [|a l IH]; intros k Hk; [simpl in Hk; lia|].
  destruct k as [|k]; [reflexivity|].
  simpl in Hk. cbn [skipn]. rewrite IH by lia.
  destruct l; [simpl in Hk; lia|reflexivity].
Qed.

Lemma last_n_last {A} (d a : A) (l : list A) (n : nat) :
  0 < n -> last (last_n n (l ++ [a])) d = a.
Proof.
  intros Hn. unfold last_n. rewrite last_skipn.
  - apply last_last.
  - rewrite length_app. simpl. lia.
Qed.

(** X1. [sendMessage] sends a request exactly when the trimmed input is
    not empty, no request is in flight and a data session exists.  A
    blank input, or a request in flight, leaves the session as it is; and
    in the state a request is sent in, a second call sends nothing. *)
Theorem sendMessage_sends_iff :
  forall (host : JsonHost) (value : str) (response : Response)
         (app : AppState),
    (fst (sendMessage value response app) = None
     <-> is_empty (trim value) = true \/ isLoading app = true
         \/ no_session app = true)
    /\ (is_empty (trim value) = true \/ isLoading app = true ->
        sendMessage value response app = (None, app))
    /\ (forall sent app',
           sendMessage value response app = (Some sent, app') ->
           isLoading (state_at_send sent) = true
           /\ forall value2 response2,
               sendMessage value2 response2 (state_at_send sent)
               = (None, state_at_send sent)).
Proof.
  intros host value response app. unfold sendMessage.
  destruct (is_empty (trim value)) eqn:Hv; cbn [orb].
  { split; [split; auto|]. split; [reflexivity|]. intros ? ? H; discriminate H. }
  destruct (isLoading app) eqn:Hl.
  { split; [split; auto|]. split; [reflexivity|]. intros ? ? H; discriminate H. }
  destruct (no_session app) eqn:Hs.
  { split; [split; auto|]. split; [intros [H|H]; discriminate H|].
    intros ? ? H; discriminate H. }
  set (app1 := set_loading true
                 (push_message (user_message (trim value)) app)).
  pose proof (sendMessageStream_sent (trim value) response app1) as Hsent.
  cbv zeta in Hsent. destruct Hsent as (_ & _ & _ & Hat).
  destruct (sendMessageStream (trim value) response app1) as [sent res].
  cbn [fst] in Hat.
  split; [|split].
  - split; [destruct res; discriminate|].
    intros [H|[H|H]]; discriminate.
  - intros [H|H]; discriminate.
  - intros sent0 app' H.
    assert (sent0 = sent) by (destruct res; now inversion H). subst sent0.
    assert (Hload : isLoading (state_at_send sent) = true)
      by (rewrite Hat; reflexivity).
    split; [exact Hload|]. intros value2 response2.
    rewrite Hload, orb_true_r. reflexivity.
Qed.

(** A request sent from a session without pending clarification, and the
    second call made while it is in flight. *)
Lemma sendMessage_sends_iff_witness :
  exists sent app',
    @sendMessage sample_host (lit " hi ") {| ok := true; chunks := [] |}
                 idle_session = (Some sent, app')
    /\ isLoading (state_at_send sent) = true
    /\ @sendMessage sample_host (lit "again") {| ok := true; chunks := [] |}
                    (state_at_send sent)
       = (None, state_at_send sent).
Proof.
  destruct (@sendMessage sample_host (lit " hi ")
              {| ok := true; chunks := [] |} idle_session)
    as [[sent|] app'] eqn:H; [|discriminate H].
  exists sent, app'. split; [reflexivity|].
  destruct (sendMessage_sends_iff sample_host (lit " hi ")
              {| ok := true; chunks := [] |} idle_session)
    as (_ & _ & Hre).
  destruct (Hre sent app' H) as [Hload Hagain].
  split; [exact Hload|apply Hagain].
Defined.

(** X2. The request of [sendMessage] carries the trimmed input as its
    message and, as its history, the last ten messages of the session
    with the user's own message counted in ([state.messages.slice(-10)],
    taken after [addMessage] has pushed it): all the messages when they
    are ten at most, and otherwise the ten most recent ones in their
    order, the older ones left out.  The user's message is its last
    entry. *)
Theorem sendMessage_history :
  forall (host : JsonHost) (value : str) (response : Response)
         (app : AppState) (sent : Sent) (app' : AppState),
    sendMessage value response app = (Some sent, app') ->
    let all := messages app ++ [user_message (trim value)] in
    message (body sent) = trim value
    /\ session_id (body sent) = sessionId app
    /\ history (body sent) = Some (skipn (length all - 10) all)
    /\ (length all <= 10 -> history (body sent) = Some all)
    /\ (10 <= length all ->
        exists older recent,
          all = older ++ recent /\ length recent = 10
          /\ history (body sent) = Some recent)
    /\ last (skipn (length all - 10) all) (user_message [])
       = user_message (trim value).
Proof.
  intros host value response app sent app' H all. unfold sendMessage in H.
  destruct (is_empty (trim value) || isLoading app); [discriminate|].
  destruct (no_session app); [discriminate|].
  set (app1 := set_loading true
                 (push_message (user_message (trim value)) app)) in H.
  pose proof (sendMessageStream_sent (trim value) response app1) as Hsent.
  cbv zeta in Hsent. destruct Hsent as (Hm & Hh & Hi & _).
  destruct (sendMessageStream (trim value) response app1) as [sent1 res].
  cbn [fst] in Hm, Hh, Hi.
  assert (sent = sent1) by (destruct res; now inversion H). subst sent1.
  assert (Hhist : history (body sent) = Some (skipn (length all - 10) all))
    by exact Hh.
  split; [exact Hm|]. split; [exact Hi|]. split; [exact Hhist|].
  split; [|split].
  - intros Hlen. rewrite Hhist.
    replace (length all - 10) with 0 by lia. reflexivity.
  - intros Hlen.
    exists (firstn (length all - 10) all), (skipn (length all - 10) all).
    split; [symmetry; apply firstn_skipn|].
    split; [rewrite length_skipn; lia|exact Hhist].
  - apply (last_n_last (user_message []) (user_message (trim value))
                       (messages app) 10). lia.
Qed.

(** After twelve messages the history is the last nine of them and the
    new message: the first three are left out. *)
Lemma sendMessage_history_witness :
  exists sent app',
    @sendMessage sample_host (lit " hi ") {| ok := false; chunks := [] |}
                 long_session = (Some sent, app')
    /\ message (body sent) = lit "hi"
    /\ history (body sent)
       = Some (map (fun n => user_message [N.of_nat (97 + n)]) (seq 3 9)
               ++ [user_message (lit "hi")]).
Proof.
  destruct (@sendMessage sample_host (lit " hi ")
              {| ok := false; chunks := [] |} long_session)
    as [[sent|] app'] eqn:H; [|discriminate H].
  exists sent, app'. split; [reflexivity|].
  destruct (sendMessage_history sample_host (lit " hi ")
              {| ok := false; chunks := [] |} long_session sent app' H)
    as (Hm & _ & Hh & _).
  split; [exact Hm|]. rewrite Hh. reflexivity.
Defined.

(** X3. A call of [sendMessage] that sends a request appends exactly two
    messages to the history: the user's, then the assistant's.  The
    assistant's text is the content the draft holds after the decoded
    events of the response, or the failure text when the response is not
    ok.  The session id is kept and the loading flag is lowered again. *)
Theorem sendMessage_appends_two :
  forall (host : JsonHost) (value : str) (response : Response)
         (app : AppState) (sent : Sent) (app' : AppState),
    sendMessage value response app = (Some sent, app') ->
    let reply :=
      if ok response
      then content (snd (apply_events (decoded_frames (chunks response))
                                      (state_at_send sent, fresh_draft)))
      else request_failed_text in
    messages app'
    = messages app ++ [user_message (trim value); assistant_message reply]
    /\ sessionId app' = sessionId app
    /\ isLoading app' = false.
Proof.
  intros host value response app sent app' H. cbv zeta.
  unfold sendMessage in H.
  destruct (is_empty (trim value) || isLoading app); [discriminate|].
  destruct (no_session app); [discriminate|].
  set (app1 := set_loading true
                 (push_message (user_message (trim value)) app)) in H.
  pose proof (sendMessageStream_sent (trim value) response app1) as Hsent.
  pose proof (sendMessageStream_result (trim value) response app1) as Hres.
  cbv zeta in Hsent, Hres. destruct Hsent as (_ & _ & _ & Hat).
  destruct (sendMessageStream (trim value) response app1) as [sent1 res].
  cbn [fst snd] in Hat, Hres.
  assert (sent = sent1) by (destruct res; now inversion H). subst sent1.
  subst res.
  destruct (ok response).
  - inversion H; subst app'. clear H.
    destruct (apply_events_keeps (decoded_frames (chunks response))
                                 (state_at_send sent, fresh_draft))
      as (K1 & K2 & K3).
    cbn [fst] in K1, K2, K3.
    cbn [set_loading push_message messages sessionId isLoading].
    rewrite K1, K2, Hat. cbn. rewrite <- app_assoc. auto.
  - inversion H; subst app'. clear H. rewrite Hat.
    cbn. rewrite <- app_assoc. auto.
Qed.

Lemma sendMessage_appends_two_witness :
  exists sent app',
    @sendMessage sample_host (lit "hi")
       {| ok := true;
          chunks := [data_marker ++ sample_content_payload
                     ++ frame_delimiter] |}
       idle_session = (Some sent, app')
    /\ messages app'
       = [user_message (lit "hi"); assistant_message (lit "x")].
Proof.
  set (response := {| ok := true;
                      chunks := [data_marker ++ sample_content_payload
                                 ++ frame_delimiter] |}).
  destruct (@sendMessage sample_host (lit "hi") response idle_session)
    as [[sent|] app'] eqn:H; [|discriminate H].
  exists sent, app'. split; [reflexivity|].
  destruct (sendMessage_appends_two sample_host (lit "hi") response
              idle_session sent app' H) as (Hm & _ & _).
  rewrite Hm. vm_compute in H. inversion H. subst. reflexivity.
Defined.

(** X4. A pending clarification is answered at most once.  When
    [confirmClarification] has sent its request the pending state is
    already cleared, so a second confirmation in flight sends nothing;
    it stays cleared after the exchange unless the response brings a new
    clarification, and then every further confirmation, and every
    confirmation after [cancelClarification], sends nothing. *)
Theorem clarification_answered_once :
  forall (host : JsonHost) (value : str) (response : Response)
         (app : AppState) (sent : Sent) (app' : AppState),
    confirmClarification (Some value) response app = (Some sent, app') ->
    (ok response = true ->
     forallb (fun e => negb (is_clarification e))
             (decoded_frames (chunks response)) = true) ->
    (forall textarea response2,
        confirmClarification textarea response2 (state_at_send sent)
        = (None, state_at_send sent))
    /\ pendingClarification app' = None
    /\ (forall textarea response2,
           confirmClarification textarea response2 app' = (None, app'))
    /\ (forall textarea response2,
           confirmClarification textarea response2 (cancelClarification app)
           = (None, cancelClarification app)).
Proof.
  intros host value response app sent app' H Hno.
  assert (Hnone : forall a textarea response2,
             pendingClarification a = None ->
             confirmClarification textarea response2 a = (None, a)).
  { intros a textarea response2 Ha. unfold confirmClarification.
    rewrite Ha. destruct textarea; reflexivity. }
  unfold confirmClarification in H.
  destruct (pendingClarification app) as [pending|] eqn:Hp; [|discriminate].
  destruct (is_empty (trim value)); [discriminate|].
  destruct (ok response) eqn:Hok; cbn [negb] in H.
  - rewrite read_loop_dispatch in H.
    specialize (Hno eq_refl).
    match type of H with
    | context [apply_events ?es ?st] =>
        pose proof (pending_kept_events es st Hno) as Hkeep;
        destruct (apply_events es st) as [app2 d2] eqn:Hev
    end.
    cbn [fst] in Hkeep.
    inversion H; subst sent app'. clear H.
    cbn [state_at_send].
    assert (Hfinal : pendingClarification
                       (set_loading false
                          (if is_empty (content d2) then app2
                           else push_message
                                  {| role := lit "assistant";
                                     text := content d2 |} app2)) = None).
    { destruct (is_empty (content d2)); cbn; exact Hkeep. }
    repeat split.
    + intros; now apply Hnone.
    + exact Hfinal.
    + intros; now apply Hnone.
    + intros; now apply Hnone.
  - inversion H; subst sent app'. clear H. cbn [state_at_send].
    repeat split; intros; now apply Hnone.
Qed.

Lemma clarification_answered_once_witness :
  let app := set_pending (Some sample_pending) idle_session in
  exists sent app',
    @confirmClarification sample_host (Some (lit "go"))
       {| ok := true; chunks := [] |} app = (Some sent, app')
    /\ pendingClarification app' = None
    /\ @confirmClarification sample_host (Some (lit "go"))
         {| ok := true; chunks := [] |} app' = (None, app').
Proof.
  cbv zeta.
  set (app := set_pending (Some sample_pending) idle_session).
  set (response := {| ok := true; chunks := [] |}).
  destruct (@confirmClarification sample_host (Some (lit "go")) response app)
    as [[sent|] app'] eqn:H; [|discriminate H].
  exists sent, app'. split; [reflexivity|].
  destruct (clarification_answered_once sample_host (lit "go") response app
              sent app' H (fun _ => eq_refl)) as (_ & Hp & Hagain & _).
  split; [exact Hp|apply Hagain].
Defined.

End ChatFacts.

(** ** What the two stream readers deliver *)

Module ReaderFacts.
Import Js Value Stream Dispatch Chat SplitFacts FrameFacts DispatchFacts.

(** *** Lines *)

(** A text in which the first code unit of the separator does not occur
    is the first segment of whatever it is followed by. *)
Lemma split_scan_head_free (x : N) (sep' u acc w : str) :
  ~ In x u ->
  split_scan (x :: sep') 0 acc (u ++ (x :: sep') ++ w)
  = (rev acc ++ u) :: split_scan (x :: sep') 0 [] w.
Proof.
  revert acc; induction u as [|c u IH]; intros acc Hu.
  - rewrite app_nil_r. apply split_scan_match.
  - assert (Hc : N.eqb x c = false).
    { apply N.eqb_neq. intros ->. apply Hu. now left. }
    change (split_scan (x :: sep') 0 acc ((c :: u) ++ (x :: sep') ++ w))
      with (if startsWith (x :: sep') (c :: (u ++ (x :: sep') ++ w))
            then rev acc :: split_scan (x :: sep') (length (x :: sep') - 1) []
                                       (u ++ (x :: sep') ++ w)
            else split_scan (x :: sep') 0 (c :: acc)
                            (u ++ (x :: sep') ++ w)).
    cbn [startsWith]. rewrite Hc. cbn [andb].
    rewrite IH by (intros H; apply Hu; now right).
    simpl. now rewrite <- app_assoc.
Qed.

Lemma includes_single (x : N) (s : str) :
  includes [x] s = false -> ~ In x s.
Proof.
  induction s as [|c s IH]; [easy|].
  cbn [includes startsWith]. rewrite andb_true_r.
  intros H. apply orb_false_iff in H as [Hc Hs].
  intros [->|Hin]; [now rewrite N.eqb_refl in Hc|now apply IH].
Qed.

Lemma not_in_includes (x : N) (y : str) (s : str) :
  ~ In x s -> includes (x :: y) s = false.
Proof.
  induction s as [|c s IH]; [easy|]. intros Hn.
  cbn [includes startsWith].
  assert (Hc : N.eqb x c = false).
  { apply N.eqb_neq. intros ->. apply Hn. now left. }
  rewrite Hc. cbn [andb orb]. apply IH. intros H. apply Hn. now right.
Qed.

(** The lines of a text with a line feed in it are the lines before the
    line feed and the lines behind it. *)
Lemma lines_app (u w : str) :
  split [LF] (u ++ LF :: w) = split [LF] u ++ split [LF] w.
Proof.
  unfold split.
  rewrite (split_scan_app LF [] u (LF :: w)). cbv zeta.
  set (r := last (split_scan [LF] 0 [] u) []).
  assert (Hr : ~ In LF r).
  { apply includes_single. apply (split_scan_last_absent LF [] u). }
  change (r ++ LF :: w) with (r ++ [LF] ++ w).
  rewrite (split_scan_head_free LF [] r [] w Hr). cbn [rev app].
  rewrite (app_removelast_last [] (split_scan_nonempty [LF] 0 [] u)) at 2.
  fold r. now rewrite <- app_assoc.
Qed.

Lemma lines_single (u : str) : ~ In LF u -> split [LF] u = [u].
Proof.
  intros Hu. unfold split.
  now rewrite (split_scan_absent [LF] u [] (not_in_includes LF [] u Hu)).
Qed.

(** *** Payloads of the data lines *)

Lemma log_lines (lines : list str) (log : list str) :
  fold_left (on_line log_step) lines log
  = log ++ fold_left (on_line log_step) lines [].
Proof.
  refine (proj2 (fold_log (on_line log_step) (on_line log_step) log_step
                          _ lines log log)).
  intros s l a. destruct (on_line_log log_step a s l) as [_ H2].
  split; [|exact H2].
  destruct (on_line_log log_step a s []) as [_ H3].
  unfold on_line. destruct (startsWith data_marker a); cbn [negb];
    [|reflexivity].
  destruct (str_eqb (slice_from 6 a) done_sentinel); reflexivity.
Qed.

Lemma data_lines_app (u w : str) :
  data_lines (u ++ LF :: w) = data_lines u ++ data_lines w.
Proof.
  unfold data_lines. rewrite lines_app, fold_left_app.
  apply (log_lines (split [LF] w)).
Qed.

Lemma data_lines_nil : data_lines [] = [].
Proof. reflexivity. Qed.

(** A line of white space is no data line. *)
Lemma space_line_skipped (line : str) (log : list str) :
  forallb is_space line = true -> on_line log_step log line = log.
Proof.
  intros H. unfold on_line.
  destruct line as [|c line]; [reflexivity|].
  cbn [forallb] in H. apply andb_prop in H as [Hc _].
  assert (Hd : startsWith data_marker (c :: line) = false).
  { cbn [data_marker lit list_ascii_of_string map startsWith].
    destruct (N.eqb (N_of_ascii "d") c) eqn:E; [|reflexivity].
    apply N.eqb_eq in E. subst c. discriminate Hc. }
  now rewrite Hd.
Qed.

Lemma trimStart_nil (s : str) :
  trimStart s = [] -> forallb is_space s = true.
Proof.
  induction s as [|c s IH]; [reflexivity|]. simpl.
  destruct (is_space c); [exact IH|discriminate].
Qed.

Lemma spaces_trimStart (s : str) :
  forallb is_space (trimStart s) = true -> forallb is_space s = true.
Proof.
  induction s as [|c s IH]; [reflexivity|]. simpl.
  destruct (is_space c) eqn:Hc; [exact IH|].
  simpl. now rewrite Hc.
Qed.

Lemma forallb_rev_str (p : N -> bool) (s : str) :
  forallb p (rev s) = forallb p s.
Proof.
  induction s as [|c s IH]; [reflexivity|].
  simpl. rewrite forallb_app, IH. simpl.
  rewrite andb_true_r. apply andb_comm.
Qed.

Lemma blank_spaces (message : str) :
  is_empty (trim message) = true -> forallb is_space message = true.
Proof.
  unfold trim, trimEnd. intros H.
  destruct (rev (trimStart (rev (trimStart message)))) as [|c l] eqn:E;
    [|discriminate H].
  apply (f_equal (@rev N)) in E. rewrite rev_involutive in E. simpl in E.
  apply trimStart_nil in E. rewrite forallb_rev_str in E.
  now apply spaces_trimStart.
Qed.

Lemma spaces_segments (x : N) (sep' : str) (s : str) :
  forallb is_space s = true ->
  Forall (fun l => forallb is_space l = true)
         (split_scan (x :: sep') 0 [] s).
Proof.
  set (sep := x :: sep').
  remember (length s) as n eqn:Hn.
  revert s Hn. induction n as [n IH] using lt_wf_ind. intros s Hn Hs.
  destruct (includes sep s) eqn:Hi.
  - destruct (split_scan_first x sep' s [] Hi) as (u & v & Hsv & Hw).
    fold sep in Hsv, Hw. rewrite Hsv at 1. rewrite (Hw v).
    rewrite Hsv, !forallb_app in Hs.
    apply andb_prop in Hs as [Hu Hs]. apply andb_prop in Hs as [_ Hv].
    constructor; [exact Hu|].
    apply (IH (length v)); [|reflexivity|exact Hv].
    rewrite Hn, Hsv, !length_app. simpl. lia.
  - rewrite (split_scan_absent sep s [] Hi).
    constructor; [exact Hs|constructor].
Qed.

Lemma blank_no_data (message : str) :
  is_empty (trim message) = true -> data_lines message = [].
Proof.
  intros H. apply blank_spaces in H.
  unfold data_lines, split.
  pose proof (spaces_segments LF [] message H) as Hall.
  induction Hall as [|l ls Hl _ IH]; [reflexivity|].
  cbn [fold_left]. now rewrite (space_line_skipped l [] Hl).
Qed.

(** What the chat reader does with one message is to hand on its data
    lines. *)
Lemma on_message_data_lines (message : str) (log : list str) :
  on_message log_step log message = log ++ data_lines message.
Proof.
  unfold on_message.
  destruct (is_empty (trim message)) eqn:Hb.
  - now rewrite (blank_no_data message Hb), app_nil_r.
  - apply log_lines.
Qed.

Lemma fold_messages (ms : list str) (log : list str) :
  fold_left (on_message log_step) ms log = log ++ flat_map data_lines ms.
Proof.
  revert log; induction ms as [|m ms IH]; intros log.
  - simpl. now rewrite app_nil_r.
  - simpl. rewrite IH, on_message_data_lines. now rewrite app_assoc.
Qed.

Lemma frames_complete (chunks : list str) :
  frames chunks = flat_map data_lines (complete_messages (concat chunks)).
Proof.
  unfold frames.
  etransitivity; [exact (read_loop_spec log_step chunks [] [] eq_refl)|].
  apply (fold_messages _ []).
Qed.

(** The data lines of the segments of a text are the data lines of the
    text. *)
Lemma data_lines_segments (text : str) :
  flat_map data_lines (split frame_delimiter text) = data_lines text.
Proof.
  unfold split, frame_delimiter.
  remember (length text) as n eqn:Hn.
  revert text Hn. induction n as [n IH] using lt_wf_ind. intros text Hn.
  destruct (includes [LF; LF] text) eqn:Hi.
  - destruct (split_scan_first LF [LF] text [] Hi) as (u & v & Ht & Hw).
    rewrite Ht at 1. rewrite (Hw v). cbn [rev app flat_map].
    rewrite (IH (length v)); [|rewrite Hn, Ht, !length_app; simpl; lia
                              |reflexivity].
    rewrite Ht.
    change (u ++ [LF; LF] ++ v) with (u ++ LF :: ([] ++ LF :: v)).
    now rewrite !data_lines_app, data_lines_nil.
  - rewrite (split_scan_absent [LF; LF] text [] Hi). simpl.
    now rewrite app_nil_r.
Qed.

Lemma delivered_and_held (text : str) :
  flat_map data_lines (complete_messages text)
  ++ data_lines (last (split frame_delimiter text) [])
  = data_lines text.
Proof.
  rewrite <- (data_lines_segments text).
  unfold complete_messages.
  assert (Hne : split frame_delimiter text <> [])
    by apply split_scan_nonempty.
  rewrite (app_removelast_last [] Hne) at 3.
  rewrite flat_map_app. simpl. now rewrite app_nil_r.
Qed.

(** Behind a text that ends with the delimiter nothing is held back but
    an empty segment or a single line feed. *)
Lemma split_terminated (t acc : str) :
  includes frame_delimiter t = false ->
  exists m r,
    split_scan frame_delimiter 0 acc (t ++ frame_delimiter) = [m; r]
    /\ (r = [] \/ r = [LF]).
Proof.
  unfold frame_delimiter.
  revert acc; induction t as [|c t IH]; intros acc Hi.
  - exists (rev acc), []. split; [|now left].
    exact (split_scan_match LF [LF] acc []).
  - cbn [includes] in Hi. apply orb_false_iff in Hi as [Hs Hi].
    change (split_scan [LF; LF] 0 acc ((c :: t) ++ [LF; LF]))
      with (if startsWith [LF; LF] (c :: (t ++ [LF; LF]))
            then rev acc :: split_scan [LF; LF] 1 [] (t ++ [LF; LF])
            else split_scan [LF; LF] 0 (c :: acc) (t ++ [LF; LF])).
    destruct t as [|d t].
    + cbn [app startsWith]. destruct (N.eqb LF c) eqn:Hc.
      * exists (rev acc), [LF]. split; [|now right].
        rewrite N.eqb_refl. reflexivity.
      * cbn [andb].
        destruct (IH (c :: acc) eq_refl) as (m & r & Hm & Hr).
        exists m, r. split; [exact Hm|exact Hr].
    + assert (Hs' : startsWith [LF; LF] (c :: (d :: t) ++ [LF; LF]) = false).
      { rewrite <- Hs. cbn [startsWith app].
        destruct (N.eqb LF c), (N.eqb LF d); reflexivity. }
      rewrite Hs'.
      destruct (IH (c :: acc) Hi) as (m & r & Hm & Hr).
      exists m, r. split; [exact Hm|exact Hr].
Qed.

Lemma held_terminated (t : str) :
  data_lines (last (split frame_delimiter (t ++ frame_delimiter)) []) = [].
Proof.
  unfold split, frame_delimiter.
  remember (length t) as n eqn:Hn.
  revert t Hn. induction n as [n IH] using lt_wf_ind. intros t Hn.
  destruct (includes [LF; LF] t) eqn:Hi.
  - destruct (split_scan_first LF [LF] t [] Hi) as (u & v & Ht & Hw).
    rewrite Ht. rewrite <- !app_assoc. rewrite (Hw (v ++ [LF; LF])).
    rewrite last_cons_ne by apply split_scan_nonempty.
    apply (IH (length v)); [|reflexivity].
    rewrite Hn, Ht, !length_app. simpl. lia.
  - destruct (split_terminated t [] Hi) as (m & r & Hm & Hr).
    unfold frame_delimiter in Hm. rewrite Hm. cbn [last].
    destruct Hr as [->| ->]; reflexivity.
Qed.

Lemma frames_terminated (chunks : list str) (t : str) :
  concat chunks = t ++ frame_delimiter -> frames chunks = data_lines t.
Proof.
  intros Hc. rewrite frames_complete, Hc.
  pose proof (delivered_and_held (t ++ frame_delimiter)) as H.
  rewrite held_terminated, app_nil_r in H. rewrite H.
  unfold frame_delimiter.
  change (t ++ [LF; LF]) with (t ++ LF :: ([] ++ LF :: [])).
  now rewrite !data_lines_app, data_lines_nil, !app_nil_r.
Qed.

(** *** The report reader *)

Section Loop.
Variable St : Type.
Variable on_data : str -> St -> St.

(** The report reader handles the complete lines of the text that the
    buffer and the chunks make up. *)
Lemma report_read_loop_spec (chunks : list str) (buffer : str) (s : St) :
  includes [LF] buffer = false ->
  report_read_loop on_data chunks buffer s
  = fold_left (on_line on_data)
              (removelast (split [LF] (buffer ++ concat chunks))) s.
Proof.
  revert buffer s; induction chunks as [|c cs IH]; intros buffer s Hb.
  - simpl. rewrite app_nil_r. unfold split.
    rewrite (split_scan_absent _ buffer [] Hb). reflexivity.
  - simpl. unfold report_on_chunk, pop.
    rewrite IH.
    + rewrite <- fold_left_app. f_equal.
      unfold split.
      rewrite (app_assoc buffer c (concat cs)).
      rewrite (split_scan_app LF [] (buffer ++ c) (concat cs)).
      cbv zeta.
      rewrite removelast_app_ne by apply split_scan_nonempty.
      reflexivity.
    + unfold split. apply split_scan_last_absent.
Qed.

End Loop.

Lemma report_frames_lines (chunks : list str) :
  report_frames chunks
  = fold_left (on_line log_step)
              (removelast (split [LF] (concat chunks))) [].
Proof.
  unfold report_frames.
  now rewrite (report_read_loop_spec _ log_step chunks [] [] eq_refl).
Qed.

Lemma report_frames_terminated (chunks : list str) (t : str) :
  concat chunks = t ++ frame_delimiter -> report_frames chunks = data_lines t.
Proof.
  intros Hc. rewrite report_frames_lines, Hc.
  unfold frame_delimiter.
  change (t ++ [LF; LF]) with (t ++ LF :: ([] ++ LF :: [])).
  rewrite !lines_app.
  change (split [LF] []) with [@nil N].
  rewrite !app_assoc.
  rewrite removelast_last.
  rewrite fold_left_app. cbn [fold_left app].
  unfold on_line at 1. cbn. reflexivity.
Qed.

(** *** Encoded payloads *)

Lemma sse_segments (payloads : list str) (tail : str) :
  Forall (fun p => ~ In LF p) payloads ->
  includes frame_delimiter tail = false ->
  split frame_delimiter (sse_text payloads ++ tail)
  = map (fun p => data_marker ++ p) payloads ++ [tail].
Proof.
  intros Hp Ht. unfold split, frame_delimiter.
  induction Hp as [|p ps Hp _ IH].
  - simpl. unfold frame_delimiter in Ht.
    now rewrite (split_scan_absent [LF; LF] tail [] Ht).
  - replace (sse_text (p :: ps) ++ tail)
      with ((data_marker ++ p) ++ [LF; LF] ++ (sse_text ps ++ tail))
      by (unfold sse_text, sse_frame, frame_delimiter; cbn [flat_map];
          now rewrite <- !app_assoc).
    rewrite (split_scan_head_free LF [LF] (data_marker ++ p) []
                                  (sse_text ps ++ tail)).
    + cbn [rev map]. rewrite IH. reflexivity.
    + intros Hin. apply in_app_or in Hin as [Hin|Hin]; [|now apply Hp].
      cbv in Hin. repeat (destruct Hin as [Hin|Hin]; [discriminate Hin|]).
      exact Hin.
Qed.

Lemma data_lines_frame (p : str) :
  ~ In LF p ->
  data_lines (data_marker ++ p) = if not_done p then [p] else [].
Proof.
  intros Hp. unfold data_lines.
  rewrite lines_single.
  - cbn [fold_left]. unfold on_line.
    rewrite startsWith_app. cbn [negb].
    change (slice_from 6 (data_marker ++ p)) with p.
    unfold not_done. destruct (str_eqb p done_sentinel); reflexivity.
  - intros Hin. apply in_app_or in Hin as [Hin|Hin]; [|now apply Hp].
    cbv in Hin. repeat (destruct Hin as [Hin|Hin]; [discriminate Hin|]).
    exact Hin.
Qed.

(** X5. What the chat reader delivers are the payloads of the [data: ]
    lines of the text, in order and without the [DONE] sentinel, whatever
    the chunks and wherever the blank lines are; the payloads it has not
    delivered when the stream ends are those of the text behind the last
    blank line.  Of a text that ends with a blank line nothing is held
    back. *)
Theorem frames_are_data_lines :
  (forall chunks : list str,
      frames chunks
      ++ data_lines (last (split frame_delimiter (concat chunks)) [])
      = data_lines (concat chunks))
  /\ (forall (chunks : list str) (t : str),
         concat chunks = t ++ frame_delimiter ->
         frames chunks = data_lines t)
  /\ (forall chunks : list str,
         includes frame_delimiter (concat chunks) = false ->
         frames chunks = []).
Proof.
  split; [|split].
  - intros chunks. rewrite frames_complete. apply delivered_and_held.
  - apply frames_terminated.
  - intros chunks H. rewrite frames_complete.
    unfold complete_messages, split, frame_delimiter.
    unfold frame_delimiter in H.
    now rewrite (split_scan_absent [LF; LF] (concat chunks) [] H).
Qed.

(** Two lines of one message, the sentinel, and a frame that is cut off. *)
Lemma frames_are_data_lines_witness :
  frames [lit "data: a"; [LF] ++ lit "id: 7" ++ [LF] ++ lit "data: b";
          [LF; LF] ++ lit "data: [DONE]" ++ [LF; LF]]
  = [lit "a"; lit "b"]
  /\ frames [lit "data: a" ++ [LF; LF] ++ lit "data: b"] = [lit "a"]
  /\ frames [lit "data: a" ++ [LF]] = [].
Proof.
  destruct frames_are_data_lines as (_ & Hterm & Hnone).
  split; [|split].
  - exact (Hterm [lit "data: a"; [LF] ++ lit "id: 7" ++ [LF] ++ lit "data: b";
                  [LF; LF] ++ lit "data: [DONE]" ++ [LF; LF]]
                 (lit "data: a" ++ [LF] ++ lit "id: 7" ++ [LF]
                  ++ lit "data: b" ++ [LF; LF] ++ lit "data: [DONE]")
                 eq_refl).
  - reflexivity.
  - apply Hnone. reflexivity.
Defined.

(** X6. Payloads that hold no line feed, framed as [data: ] lines with a
    blank line behind each, come out of the chat reader as they went in,
    in order and whatever the chunks; the sentinel is left out, and so
    is whatever follows the last blank line. *)
Theorem sse_round_trip :
  forall (payloads : list str) (tail : str) (chunks : list str),
    Forall (fun p => ~ In LF p) payloads ->
    includes frame_delimiter tail = false ->
    concat chunks = sse_text payloads ++ tail ->
    frames chunks = filter not_done payloads.
Proof.
  intros payloads tail chunks Hp Ht Hc.
  rewrite frames_complete, Hc. unfold complete_messages.
  rewrite (sse_segments payloads tail Hp Ht), removelast_last.
  clear Hc Ht. induction Hp as [|p ps Hp _ IH]; [reflexivity|].
  cbn [map flat_map filter]. rewrite IH, (data_lines_frame p Hp).
  destruct (not_done p); reflexivity.
Qed.

Lemma sse_round_trip_witness :
  frames [lit "data: {}"; [LF]; [LF] ++ lit "data: [DO";
          lit "NE]" ++ [LF; LF] ++ lit "data: 1" ++ [LF; LF] ++ lit "data: 2"]
  = [lit "{}"; lit "1"].
Proof.
  apply (sse_round_trip [lit "{}"; lit "[DONE]"; lit "1"] (lit "data: 2")).
  - repeat constructor; cbv; intuition discriminate.
  - reflexivity.
  - reflexivity.
Defined.

(** X7. The reader of [generateReport] does not depend on the chunking
    either: it ends in the state it ends in when fed the whole text at
    once.  What it hands on are the payloads of the complete lines, so
    with the payload of the unfinished last line they are the data lines
    of the text. *)
Theorem report_reader_chunking_invariant :
  (forall (St : Type) (on_data : str -> St -> St) (chunks : list str) (s : St),
      report_read_loop on_data chunks [] s
      = report_read_loop on_data [concat chunks] [] s)
  /\ (forall text : str,
         report_frames (map (fun c => [c]) text) = report_frames [text])
  /\ (forall chunks : list str,
         report_frames chunks
         ++ data_lines (last (split [LF] (concat chunks)) [])
         = data_lines (concat chunks)).
Proof.
  assert (H : forall (St : Type) (on_data : str -> St -> St) chunks (s : St),
             report_read_loop on_data chunks [] s
             = report_read_loop on_data [concat chunks] [] s).
  { intros St on_data chunks s.
    rewrite !report_read_loop_spec by reflexivity.
    simpl. now rewrite app_nil_r. }
  split; [exact H|]. split.
  - intros text. unfold report_frames. rewrite H.
    replace (concat (map (fun c => [c]) text)) with text; [reflexivity|].
    induction text as [|c t IHt]; simpl; [reflexivity|now f_equal].
  - intros chunks. rewrite report_frames_lines.
    set (text := concat chunks).
    assert (Hne : split [LF] text <> []) by apply split_scan_nonempty.
    unfold data_lines at 2.
    rewrite (app_removelast_last [] Hne) at 3.
    rewrite fold_left_app.
    rewrite (log_lines [last (split [LF] text) []]). f_equal.
    unfold data_lines. rewrite lines_single; [reflexivity|].
    apply includes_single. apply (split_scan_last_absent LF [] text).
Qed.

(** X8. On a stream that ends with a blank line the two readers hand on
    the same payloads in the same order, each whatever its chunks. *)
Theorem readers_agree_on_terminated_stream :
  forall (t : str) (chunks chunks' : list str),
    concat chunks = t ++ frame_delimiter ->
    concat chunks' = t ++ frame_delimiter ->
    report_frames chunks' = frames chunks
    /\ frames chunks = data_lines t.
Proof.
  intros t chunks chunks' Hc Hc'.
  rewrite (report_frames_terminated chunks' t Hc').
  now rewrite (frames_terminated chunks t Hc).
Qed.

Lemma readers_agree_on_terminated_stream_witness :
  report_frames [lit "data: a" ++ [LF]; [LF] ++ lit "data: b" ++ [LF; LF]]
  = frames [lit "data: a" ++ [LF; LF] ++ lit "data: "; lit "b" ++ [LF; LF]]
  /\ frames [lit "data: a" ++ [LF; LF] ++ lit "data: "; lit "b" ++ [LF; LF]]
     = [lit "a"; lit "b"].
Proof.
  apply (readers_agree_on_terminated_stream
           (lit "data: a" ++ [LF; LF] ++ lit "data: b")); reflexivity.
Defined.

End ReaderFacts.

(** ** The chart attribute *)

Module CodecFacts.
Import Js Codec.

Local Open Scope N_scope.

(** Arithmetic on naturals with division by constants. *)
Ltac nlia := zify; Z.to_euclidean_division_equations; lia.

(** Comparisons of the goal, decided from the hypotheses. *)
Ltac ntest :=
  repeat match goal with
         | |- context [N.ltb ?a ?b] =>
             first [ replace (N.ltb a b) with true
                       by (symmetry; apply N.ltb_lt; nlia)
                   | replace (N.ltb a b) with false
                       by (symmetry; apply N.ltb_ge; nlia) ]
         | |- context [N.leb ?a ?b] =>
             first [ replace (N.leb a b) with true
                       by (symmetry; apply N.leb_le; nlia)
                   | replace (N.leb a b) with false
                       by (symmetry; apply N.leb_gt; nlia) ]
         | |- context [N.eqb ?a ?b] =>
             first [ replace (N.eqb a b) with true
                       by (symmetry; apply N.eqb_eq; nlia)
                   | replace (N.eqb a b) with false
                       by (symmetry; apply N.eqb_neq; nlia) ]
         end.

(** *** Digits *)

Lemma hex_value_digit (d : N) : d < 16 -> hex_value (hex_digit d) = Some d.
Proof.
  intros Hd. unfold hex_value, hex_digit.
  destruct (N.ltb_spec d 10).
  - ntest. cbn [andb]. f_equal. nlia.
  - ntest. cbn [andb]. f_equal. nlia.
Qed.

Lemma hex_digit_not_u (d : N) : d < 16 -> (hex_digit d =? 117) = false.
Proof.
  intros Hd. unfold hex_digit.
  destruct (N.ltb_spec d 10); apply N.eqb_neq; nlia.
Qed.

Lemma hex2_octet (b : N) (rest : str) :
  b < 256 ->
  hex2 (hex_digit (b / 16) :: hex_digit (b mod 16) :: rest) = Some b.
Proof.
  intros Hb. unfold hex2.
  rewrite !hex_value_digit by nlia. f_equal. nlia.
Qed.

(** *** [unescape] after [encodeURIComponent] *)

Lemma unescape_octet (b : N) (rest : str) :
  b < 256 ->
  unescape_from 0 (percent_octet b ++ rest) = b :: unescape_from 0 rest.
Proof.
  intros Hb. unfold percent_octet.
  cbn [app unescape_from]. change (PERCENT =? PERCENT) with true. cbv iota.
  rewrite (hex_digit_not_u (b / 16)) by nlia.
  now rewrite (hex2_octet b rest Hb).
Qed.

Lemma unescape_octets (l : list N) (rest : str) :
  Forall (fun b => b < 256) l ->
  unescape_from 0 (percent_octets l ++ rest) = l ++ unescape_from 0 rest.
Proof.
  induction 1 as [|b l Hb _ IH]; [reflexivity|].
  cbn [percent_octets flat_map]. rewrite <- app_assoc.
  rewrite (unescape_octet b _ Hb). cbn [app]. f_equal. exact IH.
Qed.

Lemma alphanumeric_bound (c : N) : alphanumeric c = true -> c < 128 /\ c <> 37.
Proof.
  unfold alphanumeric. intros H.
  repeat (apply orb_prop in H as [H|H]);
    apply andb_prop in H as [H1 H2];
    apply N.leb_le in H1, H2; lia.
Qed.

Lemma special_bound (c : N) (l : list N) :
  Forall (fun x => x < 128 /\ x <> 37) l ->
  existsb (N.eqb c) l = true -> c < 128 /\ c <> 37.
Proof.
  induction 1 as [|x l Hx _ IH]; [discriminate|].
  cbn [existsb]. intros H. apply orb_prop in H as [H|H]; [|now apply IH].
  apply N.eqb_eq in H. now subst.
Qed.

Lemma uri_unescaped_bound (c : N) :
  uri_unescaped c = true -> c < 128 /\ c <> 37.
Proof.
  unfold uri_unescaped. intros H. apply orb_prop in H as [H|H].
  - now apply alphanumeric_bound.
  - revert H. apply special_bound.
    repeat (constructor; [split; [reflexivity|discriminate]|]). constructor.
Qed.

Lemma escape_unescaped_bound (c : N) :
  escape_unescaped c = true -> c < 128 /\ c <> 37.
Proof.
  unfold escape_unescaped. intros H. apply orb_prop in H as [H|H].
  - now apply alphanumeric_bound.
  - revert H. apply special_bound.
    repeat (constructor; [split; [reflexivity|discriminate]|]). constructor.
Qed.

Lemma unescape_plain (c : N) (rest : str) :
  c <> 37 -> unescape_from 0 (c :: rest) = c :: unescape_from 0 rest.
Proof.
  intros Hc. cbn [unescape_from].
  replace (c =? PERCENT) with false; [reflexivity|].
  symmetry. now apply N.eqb_neq.
Qed.

(** *** Code points *)

Lemma utf8_octets (cp : N) : cp < 1114112 -> Forall (fun b => b < 256) (utf8 cp).
Proof.
  intros H. unfold utf8.
  destruct (N.ltb_spec cp 128); [repeat constructor; nlia|].
  destruct (N.ltb_spec cp 2048); [repeat constructor; nlia|].
  destruct (N.ltb_spec cp 65536); repeat constructor; nlia.
Qed.

Lemma utf8_ascii (c : N) : c < 128 -> utf8 c = [c].
Proof. intros H. unfold utf8. now ntest. Qed.


Lemma surrogate_cases (c : N) :
  is_low_surrogate c = false -> is_high_surrogate c = false ->
  ~ (55296 <= c <= 57343).
Proof.
  unfold is_low_surrogate, is_high_surrogate. intros Hl Hh [H1 H2].
  apply andb_false_iff in Hl, Hh.
  rewrite !N.leb_gt in Hl, Hh. lia.
Qed.

Lemma utf16_pair (c d : N) :
  is_high_surrogate c = true -> is_low_surrogate d = true ->
  utf16 (pair_code_point c d) = [c; d] /\ scalar (pair_code_point c d)
  /\ 65536 <= pair_code_point c d.
Proof.
  unfold is_high_surrogate, is_low_surrogate, pair_code_point, utf16, scalar.
  intros Hc Hd. apply andb_prop in Hc as [Hc1 Hc2], Hd as [Hd1 Hd2].
  apply N.leb_le in Hc1, Hc2, Hd1, Hd2.
  split; [|split; [split|]]; try nlia.
  ntest. f_equal; [|f_equal]; nlia.
Qed.

(** A well-formed string is the code units of its code points, which are
    scalar values. *)
Lemma code_points_spec (s : str) :
  forall cps,
    forallb (fun c => c <? 65536) s = true ->
    code_points s = Some cps ->
    s = flat_map utf16 cps /\ Forall scalar cps.
Proof.
  remember (length s) as n eqn:Hn.
  revert s Hn. induction n as [n IH] using lt_wf_ind. intros s Hn cps Hu Hc.
  destruct s as [|c rest]; [inversion Hc; split; [reflexivity|constructor]|].
  cbn [forallb] in Hu. apply andb_prop in Hu as [Hcu Hu].
  apply N.ltb_lt in Hcu.
  cbn [code_points] in Hc.
  destruct (is_low_surrogate c) eqn:Hlow; [discriminate|].
  destruct (is_high_surrogate c) eqn:Hhigh.
  - destruct rest as [|d rest']; [discriminate|].
    destruct (is_low_surrogate d) eqn:Hd; [|discriminate].
    cbn [forallb] in Hu. apply andb_prop in Hu as [_ Hu].
    destruct (code_points rest') as [cps'|] eqn:Hr; [|discriminate].
    inversion Hc; subst cps. clear Hc.
    destruct (IH (length rest')) with (s := rest') (cps := cps')
      as [Hs Hf]; try reflexivity; try assumption.
    { rewrite Hn. simpl. lia. }
    destruct (utf16_pair c d Hhigh Hd) as (H16 & Hsc & _).
    split; [|constructor; assumption].
    change (c :: d :: rest'
            = utf16 (pair_code_point c d) ++ flat_map utf16 cps').
    rewrite H16, <- Hs. reflexivity.
  - destruct (code_points rest) as [cps'|] eqn:Hr; [|discriminate].
    inversion Hc; subst cps. clear Hc.
    destruct (IH (length rest)) with (s := rest) (cps := cps')
      as [Hs Hf]; try reflexivity; try assumption.
    { rewrite Hn. simpl. lia. }
    split.
    + change (c :: rest = utf16 c ++ flat_map utf16 cps').
      rewrite <- Hs. unfold utf16. now ntest.
    + constructor; [|assumption]. split; [lia|].
      now apply surrogate_cases.
Qed.

(** The octets that [unescape(encodeURIComponent(s))] holds are the
    UTF-8 encoding of [s]. *)
Lemma encode_units (cps : list N) :
  Forall scalar cps ->
  exists e,
    encodeURIComponent (flat_map utf16 cps) = Some e
    /\ forall rest,
        unescape_from 0 (e ++ rest) = flat_map utf8 cps ++ unescape_from 0 rest.
Proof.
  induction 1 as [|cp cps [Hcp Hns] _ (e' & He' & Hu')].
  - exists []. split; reflexivity.
  - change (flat_map utf16 (cp :: cps)) with (utf16 cp ++ flat_map utf16 cps).
    change (flat_map utf8 (cp :: cps)) with (utf8 cp ++ flat_map utf8 cps).
    unfold utf16 at 1.
    destruct (N.ltb_spec cp 65536) as [Hlt|Hge].
    + cbn [app encodeURIComponent].
      destruct (uri_unescaped cp) eqn:Hun.
      * apply uri_unescaped_bound in Hun as [H128 H37].
        rewrite He'. exists (cp :: e'). split; [reflexivity|].
        intros rest. cbn [app]. rewrite (unescape_plain cp _ H37), Hu'.
        now rewrite (utf8_ascii cp H128).
      * assert (Hl : is_low_surrogate cp = false).
        { unfold is_low_surrogate. apply andb_false_iff.
          rewrite !N.leb_gt. lia. }
        assert (Hh : is_high_surrogate cp = false).
        { unfold is_high_surrogate. apply andb_false_iff.
          rewrite !N.leb_gt. lia. }
        rewrite Hl, Hh, He'.
        exists (percent_octets (utf8 cp) ++ e'). split; [reflexivity|].
        intros rest. rewrite <- !app_assoc.
        rewrite (unescape_octets _ _ (utf8_octets cp Hcp)). now rewrite Hu'.
    + set (hi := 55296 + (cp - 65536) / 1024).
      set (lo := 56320 + (cp - 65536) mod 1024).
      assert (Hhi : is_high_surrogate hi = true).
      { unfold is_high_surrogate, hi. apply andb_true_intro.
        rewrite !N.leb_le. split; nlia. }
      assert (Hlo : is_low_surrogate lo = true).
      { unfold is_low_surrogate, lo. apply andb_true_intro.
        rewrite !N.leb_le. split; nlia. }
      assert (Hpair : pair_code_point hi lo = cp).
      { unfold pair_code_point, hi, lo. nlia. }
      cbn [app encodeURIComponent].
      destruct (uri_unescaped hi) eqn:Hun.
      { apply uri_unescaped_bound in Hun as [H128 _].
        unfold hi in H128. exfalso. nlia. }
      assert (Hl : is_low_surrogate hi = false).
      { unfold is_low_surrogate, hi. apply andb_false_iff.
        rewrite !N.leb_gt. left. nlia. }
      rewrite Hl, Hhi, Hlo, Hpair, He'.
      exists (percent_octets (utf8 cp) ++ e'). split; [reflexivity|].
      intros rest. rewrite <- !app_assoc.
      rewrite (unescape_octets _ _ (utf8_octets cp Hcp)). now rewrite Hu'.
Qed.

Lemma utf8_all_octets (cps : list N) :
  Forall scalar cps -> Forall (fun b => b < 256) (flat_map utf8 cps).
Proof.
  induction 1 as [|cp cps [Hcp _] _ IH]; [constructor|].
  change (flat_map utf8 (cp :: cps)) with (utf8 cp ++ flat_map utf8 cps).
  apply Forall_app. split; [now apply utf8_octets|exact IH].
Qed.


(** *** Base64 *)

Lemma b64_value_char (v : N) : v < 64 -> b64_value (b64_char v) = Some v.
Proof.
  intros Hv. unfold b64_char.
  destruct (N.ltb_spec v 26);
    [unfold b64_value; ntest; cbn [andb]; f_equal; nlia|].
  destruct (N.ltb_spec v 52);
    [unfold b64_value; ntest; cbn [andb]; f_equal; nlia|].
  destruct (N.ltb_spec v 62);
    [unfold b64_value; ntest; cbn [andb]; f_equal; nlia|].
  destruct (N.eqb_spec v 62); [subst; reflexivity|].
  assert (v = 63) by lia. subst. reflexivity.
Qed.

Lemma b64_char_range (v : N) : v < 64 -> 43 <= b64_char v /\ b64_char v <> 61.
Proof.
  intros Hv. unfold b64_char.
  destruct (N.ltb_spec v 26); [lia|].
  destruct (N.ltb_spec v 52); [lia|].
  destruct (N.ltb_spec v 62); [lia|].
  destruct (N.eqb_spec v 62); lia.
Qed.

Lemma b64_values_chars (vs : list N) :
  Forall (fun v => v < 64) vs -> b64_values (map b64_char vs) = Some vs.
Proof.
  induction 1 as [|v vs Hv _ IH]; [reflexivity|].
  cbn [map b64_values]. now rewrite (b64_value_char v Hv), IH.
Qed.

Lemma list3_ind (P : list N -> Prop) :
  P [] -> (forall a, P [a]) -> (forall a b, P [a; b]) ->
  (forall a b c l, P l -> P (a :: b :: c :: l)) ->
  forall l, P l.
Proof.
  intros H0 H1 H2 H3 l.
  remember (length l) as n eqn:Hn.
  revert l Hn. induction n as [n IH] using lt_wf_ind. intros l Hn.
  destruct l as [|a [|b [|c l]]]; auto.
  apply H3. apply (IH (length l)); [|reflexivity].
  rewrite Hn. simpl. lia.
Qed.

(** The text [btoa] returns: the characters of 6-bit values that hold
    the octets, then at most two equals signs, four characters for every
    three octets. *)
Lemma btoa_shape (l : list N) :
  Forall (fun b => b < 256) l ->
  exists vs k,
    btoa_octets l = map b64_char vs ++ repeat EQUALS k
    /\ Forall (fun v => v < 64) vs
    /\ (k <= 2)%nat
    /\ (exists q, length vs + k = 4 * q)%nat
    /\ atob_octets vs = l.
Proof.
  induction l as [|a|a b|a b c l IH] using list3_ind; intros Hl.
  - exists [], 0%nat. split; [reflexivity|]. split; [constructor|].
    split; [lia|]. split; [now exists 0%nat|reflexivity].
  - inversion Hl as [|? ? Ha _]; subst.
    exists [a / 4; (a mod 4) * 16], 2%nat.
    split; [reflexivity|]. split; [repeat constructor; nlia|].
    split; [lia|]. split; [now exists 1%nat|].
    cbn [atob_octets]. f_equal. nlia.
  - inversion Hl as [|? ? Ha Hl']; subst.
    inversion Hl' as [|? ? Hb _]; subst.
    exists [a / 4; (a mod 4) * 16 + b / 16; (b mod 16) * 4], 1%nat.
    split; [reflexivity|]. split; [repeat constructor; nlia|].
    split; [lia|]. split; [now exists 1%nat|].
    cbn [atob_octets]. f_equal; [|f_equal]; nlia.
  - inversion Hl as [|? ? Ha Hl1]; subst.
    inversion Hl1 as [|? ? Hb Hl2]; subst.
    inversion Hl2 as [|? ? Hc Hl3]; subst.
    destruct (IH Hl3) as (vs & k & Hs & Hvs & Hk & [q Hq] & Hd).
    exists (a / 4 :: (a mod 4) * 16 + b / 16 :: (b mod 16) * 4 + c / 64
            :: c mod 64 :: vs), k.
    split; [cbn [btoa_octets map app]; now rewrite Hs|].
    split; [repeat (constructor; [nlia|]); exact Hvs|].
    split; [exact Hk|].
    split; [exists (S q); cbn [length]; lia|].
    cbn [atob_octets]. rewrite Hd.
    f_equal; [|f_equal; [|f_equal]]; nlia.
Qed.

Lemma rev_repeat (x : N) (k : nat) : rev (repeat x k) = repeat x k.
Proof.
  induction k as [|k IH]; [reflexivity|].
  cbn [repeat rev]. rewrite IH.
  clear IH. induction k as [|k IH]; [reflexivity|].
  cbn [repeat app]. now rewrite IH.
Qed.

Lemma strip_padding_shape (vs : list N) (k : nat) :
  Forall (fun v => v < 64) vs -> (k <= 2)%nat ->
  (exists q, length vs + k = 4 * q)%nat ->
  strip_padding (map b64_char vs ++ repeat EQUALS k) = map b64_char vs.
Proof.
  intros Hvs Hk [q Hq]. unfold strip_padding.
  assert (Hlen : (length (map b64_char vs ++ repeat EQUALS k) mod 4 =? 0)%nat
                 = true).
  { rewrite length_app, length_map, repeat_length, Hq.
    rewrite Nat.mul_comm, Nat.Div0.mod_mul. reflexivity. }
  rewrite Hlen. rewrite rev_app_distr, rev_repeat.
  assert (Hhead : forall x r, rev (map b64_char vs) = x :: r ->
                              (x =? EQUALS) = false).
  { intros x r Hr. apply N.eqb_neq.
    assert (Hin : In x (map b64_char vs)).
    { apply in_rev. rewrite Hr. now left. }
    apply in_map_iff in Hin as (v & <- & Hv).
    rewrite Forall_forall in Hvs. now apply b64_char_range, Hvs. }
  destruct k as [|[|[|k]]]; [| | |lia]; cbn [repeat app].
  - rewrite app_nil_r.
    destruct (rev (map b64_char vs)) as [|x [|y r]] eqn:Hr; [reflexivity| |].
    + now rewrite (Hhead x [] eq_refl).
    + now rewrite (Hhead x (y :: r) eq_refl).
  - destruct (rev (map b64_char vs)) as [|y r] eqn:Hr.
    + apply (f_equal (@length N)) in Hr.
      rewrite length_rev, length_map in Hr. simpl in Hr. lia.
    + change (EQUALS =? EQUALS) with true. cbv iota.
      rewrite (Hhead y r eq_refl).
      rewrite <- Hr. apply rev_involutive.
  - change (EQUALS =? EQUALS) with true. cbv iota.
    apply rev_involutive.
Qed.

Lemma not_whitespace (vs : list N) (k : nat) :
  Forall (fun v => v < 64) vs ->
  filter (fun c => negb (ascii_whitespace c))
         (map b64_char vs ++ repeat EQUALS k)
  = map b64_char vs ++ repeat EQUALS k.
Proof.
  intros Hvs. apply forallb_filter_id.
  rewrite forallb_app. apply andb_true_intro. split.
  - apply forallb_forall. intros c Hin.
    apply in_map_iff in Hin as (v & <- & Hv).
    rewrite Forall_forall in Hvs.
    destruct (b64_char_range v (Hvs v Hv)) as [H43 _].
    unfold ascii_whitespace. cbn [existsb]. now ntest.
  - apply forallb_forall. intros c Hin.
    apply repeat_spec in Hin. now subst.
Qed.

(** [atob] undoes [btoa]. *)
Lemma atob_btoa (l : list N) :
  Forall (fun b => b < 256) l -> atob (btoa_octets l) = Some l.
Proof.
  intros Hl.
  destruct (btoa_shape l Hl) as (vs & k & Hs & Hvs & Hk & Hq & Hd).
  unfold atob. rewrite Hs, (not_whitespace vs k Hvs).
  rewrite (strip_padding_shape vs k Hvs Hk Hq).
  rewrite length_map, (b64_values_chars vs Hvs). cbn [option_map].
  rewrite Hd.
  destruct Hq as [q Hq].
  replace (length vs mod 4 =? 1)%nat with false; [reflexivity|].
  symmetry. apply Nat.eqb_neq.
  intros Hm.
  pose proof (Nat.div_mod_eq (length vs) 4) as Hdm.
  lia.
Qed.

Lemma btoa_octets_safe (l : list N) :
  Forall (fun b => b < 256) l ->
  forallb b64_safe (btoa_octets l) = true
  /\ exists q, (length (btoa_octets l) = 4 * q)%nat.
Proof.
  intros Hl.
  destruct (btoa_shape l Hl) as (vs & k & Hs & Hvs & Hk & [q Hq] & Hd).
  rewrite Hs. split.
  - rewrite forallb_app. apply andb_true_intro. split.
    + apply forallb_forall. intros c Hin.
      apply in_map_iff in Hin as (v & <- & Hv).
      rewrite Forall_forall in Hvs.
      unfold b64_safe. now rewrite (b64_value_char v (Hvs v Hv)).
    + apply forallb_forall. intros c Hin.
      apply repeat_spec in Hin. now subst.
  - exists q. now rewrite length_app, length_map, repeat_length.
Qed.


(** *** [decodeURIComponent] after [escape] *)

Lemma decode_plain (c : N) (rest : str) :
  c <> 37 ->
  decodeURIComponent_from 0 (c :: rest)
  = option_map (cons c) (decodeURIComponent_from 0 rest).
Proof.
  intros Hc. cbn [decodeURIComponent_from].
  replace (c =? PERCENT) with false; [reflexivity|].
  symmetry. now apply N.eqb_neq.
Qed.

Lemma decode_skip (p rest : str) :
  decodeURIComponent_from (length p) (p ++ rest)
  = decodeURIComponent_from 0 rest.
Proof.
  induction p as [|c p IH]; [reflexivity|].
  cbn [length app decodeURIComponent_from]. exact IH.
Qed.

Lemma percent_octets_length (l : list N) :
  length (percent_octets l) = (3 * length l)%nat.
Proof.
  induction l as [|b l IH]; [reflexivity|].
  cbn [percent_octets flat_map]. rewrite length_app.
  fold (percent_octets l). rewrite IH. cbn [percent_octet length]. lia.
Qed.

Lemma percent_run_octets (l : list N) (rest : str) :
  Forall (fun b => b < 256) l ->
  percent_run (length l) (percent_octets l ++ rest) = Some l.
Proof.
  induction 1 as [|b l Hb _ IH]; [reflexivity|].
  change (percent_octets (b :: l))
    with (PERCENT :: hex_digit (b / 16) :: hex_digit (b mod 16)
          :: percent_octets l).
  cbn [length app percent_run].
  change (PERCENT =? PERCENT) with true. cbv iota.
  rewrite (hex2_octet b _ Hb). cbn [skipn]. now rewrite IH.
Qed.

Lemma decode_ascii_octet (b : N) (rest : str) :
  b < 128 ->
  decodeURIComponent_from 0 (percent_octet b ++ rest)
  = option_map (cons b) (decodeURIComponent_from 0 rest).
Proof.
  intros Hb. unfold percent_octet.
  cbn [app decodeURIComponent_from].
  change (PERCENT =? PERCENT) with true. cbv iota.
  rewrite (hex2_octet b rest) by lia.
  unfold leading_ones. ntest. reflexivity.
Qed.

(** A sequence of escapes that is the UTF-8 encoding of a code point. *)
Lemma decode_sequence (b1 : N) (more : list N) (m : nat) (cp : N)
      (rest : str) :
  b1 < 256 -> Forall (fun b => b < 256) more ->
  leading_ones b1 = S (S m) -> (m <= 2)%nat -> length more = S m ->
  utf8_decode (b1 :: more) = Some cp ->
  decodeURIComponent_from 0 (percent_octets (b1 :: more) ++ rest)
  = option_map (app (utf16 cp)) (decodeURIComponent_from 0 rest).
Proof.
  intros Hb1 Hmore Hn Hm Hlen Hcp.
  change (percent_octets (b1 :: more))
    with (PERCENT :: hex_digit (b1 / 16) :: hex_digit (b1 mod 16)
          :: percent_octets more).
  cbn [app decodeURIComponent_from].
  change (PERCENT =? PERCENT) with true. cbv iota.
  rewrite (hex2_octet b1 _ Hb1), Hn.
  replace (2 <? m)%nat with false
    by (symmetry; apply Nat.ltb_ge; lia).
  cbn [skipn]. rewrite <- Hlen, (percent_run_octets more rest Hmore), Hcp.
  f_equal.
  change (hex_digit (b1 / 16) :: hex_digit (b1 mod 16)
          :: percent_octets more ++ rest)
    with ((hex_digit (b1 / 16) :: hex_digit (b1 mod 16)
           :: percent_octets more) ++ rest).
  replace (3 * length more + 2)%nat
    with (length (hex_digit (b1 / 16) :: hex_digit (b1 mod 16)
                  :: percent_octets more))
    by (cbn [length]; rewrite percent_octets_length; lia).
  apply decode_skip.
Qed.

Lemma escape_high_octets (l : list N) :
  Forall (fun b => 128 <= b < 256) l -> escape l = percent_octets l.
Proof.
  induction 1 as [|b l [Hlo Hhi] _ IH]; [reflexivity|].
  unfold escape, percent_octets in *. cbn [flat_map]. rewrite IH. f_equal.
  unfold escape_unit.
  destruct (escape_unescaped b) eqn:He.
  - apply escape_unescaped_bound in He. lia.
  - now ntest.
Qed.

Lemma utf8_decode_utf8 (cp : N) :
  scalar cp -> 128 <= cp ->
  exists b1 more m,
    utf8 cp = b1 :: more
    /\ b1 < 256
    /\ Forall (fun b => 128 <= b < 256) (b1 :: more)
    /\ leading_ones b1 = S (S m) /\ (m <= 2)%nat /\ length more = S m
    /\ utf8_decode (b1 :: more) = Some cp.
Proof.
  intros [Hcp Hns] H128. unfold utf8.
  replace (cp <? 128) with false by (symmetry; apply N.ltb_ge; lia).
  destruct (N.ltb_spec cp 2048) as [H2|H2].
  { exists (192 + cp / 64), [128 + cp mod 64], 0%nat.
    split; [reflexivity|]. split; [nlia|].
    split; [repeat constructor; nlia|].
    split; [unfold leading_ones; now ntest|].
    split; [lia|]. split; [reflexivity|].
    unfold utf8_decode, leading_ones, is_continuation. ntest.
    cbn [Nat.eqb andb]. f_equal. nlia. }
  destruct (N.ltb_spec cp 65536) as [H3|H3].
  { exists (224 + cp / 4096), [128 + (cp / 64) mod 64; 128 + cp mod 64], 1%nat.
    split; [reflexivity|]. split; [nlia|].
    split; [repeat constructor; nlia|].
    split; [unfold leading_ones; now ntest|].
    split; [lia|]. split; [reflexivity|].
    unfold utf8_decode, leading_ones, is_continuation.
    replace ((224 + cp / 4096 - 224) * 4096
             + (128 + (cp / 64) mod 64 - 128) * 64 + (128 + cp mod 64 - 128))
      with cp by nlia.
    assert (Hs : (55296 <=? cp) && (cp <=? 57343) = false).
    { apply andb_false_iff. rewrite !N.leb_gt. lia. }
    rewrite Hs. ntest. reflexivity. }
  exists (240 + cp / 262144),
    [128 + (cp / 4096) mod 64; 128 + (cp / 64) mod 64; 128 + cp mod 64],
    2%nat.
  split; [reflexivity|]. split; [nlia|].
  split; [repeat constructor; nlia|].
  split; [unfold leading_ones; now ntest|].
  split; [lia|]. split; [reflexivity|].
  unfold utf8_decode, leading_ones, is_continuation.
  replace ((240 + cp / 262144 - 240) * 262144
           + (128 + (cp / 4096) mod 64 - 128) * 4096
           + (128 + (cp / 64) mod 64 - 128) * 64 + (128 + cp mod 64 - 128))
    with cp by nlia.
  ntest. reflexivity.
Qed.

Lemma decode_code_point (cp : N) (rest : str) :
  scalar cp ->
  decodeURIComponent_from 0 (escape (utf8 cp) ++ rest)
  = option_map (app (utf16 cp)) (decodeURIComponent_from 0 rest).
Proof.
  intros Hsc. destruct (N.ltb_spec cp 128) as [Hlt|Hge].
  - rewrite (utf8_ascii cp Hlt).
    assert (H16 : utf16 cp = [cp]) by (unfold utf16; now ntest).
    rewrite H16. unfold escape. cbn [flat_map]. rewrite app_nil_r.
    unfold escape_unit. destruct (escape_unescaped cp) eqn:He.
    + apply escape_unescaped_bound in He as [_ H37].
      cbn [app]. now apply decode_plain.
    + replace (cp <? 256) with true by (symmetry; apply N.ltb_lt; lia).
      now apply decode_ascii_octet.
  - destruct (utf8_decode_utf8 cp Hsc Hge)
      as (b1 & more & m & Hu & Hb1 & Hhigh & Hn & Hm & Hlen & Hd).
    rewrite Hu, (escape_high_octets _ Hhigh).
    apply (decode_sequence b1 more m cp rest Hb1); try assumption.
    inversion Hhigh as [|? ? _ Hrest]; subst.
    eapply Forall_impl; [|exact Hrest]. cbv beta. intros; lia.
Qed.

Lemma decode_escape (cps : list N) :
  Forall scalar cps ->
  decodeURIComponent (escape (flat_map utf8 cps))
  = Some (flat_map utf16 cps).
Proof.
  unfold decodeURIComponent.
  induction 1 as [|cp cps Hcp _ IH]; [reflexivity|].
  change (flat_map utf8 (cp :: cps)) with (utf8 cp ++ flat_map utf8 cps).
  change (flat_map utf16 (cp :: cps)) with (utf16 cp ++ flat_map utf16 cps).
  unfold escape in *. rewrite flat_map_app.
  fold (escape (utf8 cp)).
  rewrite (decode_code_point cp _ Hcp), IH. reflexivity.
Qed.

(** The text layer: a well-formed string survives the round trip, and
    its encoding is made of the Base64 alphabet. *)
Lemma text_round_trip (s : str) :
  well_formed s = true ->
  exists e,
    encode_text s = Some e
    /\ decode_text e = Some s
    /\ forallb b64_safe e = true
    /\ exists q, (length e = 4 * q)%nat.
Proof.
  unfold well_formed. intros H. apply andb_prop in H as [Hu Hc].
  destruct (code_points s) as [cps|] eqn:Hcps; [|discriminate].
  destruct (code_points_spec s cps Hu Hcps) as [Hs Hsc].
  destruct (encode_units cps Hsc) as (e0 & He0 & Hun).
  pose proof (utf8_all_octets cps Hsc) as Hoct.
  assert (Hbytes : unescape e0 = flat_map utf8 cps).
  { unfold unescape. specialize (Hun []).
    rewrite !app_nil_r in Hun. exact Hun. }
  exists (btoa_octets (flat_map utf8 cps)).
  assert (Henc : encode_text s = Some (btoa_octets (flat_map utf8 cps))).
  { unfold encode_text. rewrite Hs, He0, Hbytes. unfold btoa.
    replace (forallb (fun c => c <=? 255) (flat_map utf8 cps)) with true;
      [reflexivity|].
    symmetry. apply forallb_forall. intros b Hb.
    rewrite Forall_forall in Hoct. apply N.leb_le.
    specialize (Hoct b Hb). cbv beta in Hoct. lia. }
  split; [exact Henc|]. split.
  - unfold decode_text. rewrite (atob_btoa _ Hoct).
    rewrite (decode_escape cps Hsc). now rewrite Hs.
  - apply (btoa_octets_safe _ Hoct).
Qed.

Lemma encode_text_safe (s e : str) :
  encode_text s = Some e -> forallb b64_safe e = true.
Proof.
  unfold encode_text, btoa.
  destruct (encodeURIComponent s) as [e0|]; [|discriminate].
  destruct (forallb (fun c => c <=? 255) (unescape e0)) eqn:Hb;
    [|discriminate].
  intros H. inversion H; subst. clear H.
  apply btoa_octets_safe.
  apply Forall_forall. intros b Hin.
  rewrite forallb_forall in Hb. specialize (Hb b Hin).
  apply N.leb_le in Hb. lia.
Qed.

(** X9. A chart survives the attribute: when the JSON text of a chart is
    a well-formed string that the host parses back to the chart,
    [decodeChartData(encodeChartData(chart))] is the chart.  At the text
    layer, [decodeURIComponent(escape(atob(...)))] undoes
    [btoa(unescape(encodeURIComponent(...)))] on every well-formed
    string. *)
Theorem chart_data_round_trip :
  forall (A : Type) (host : JsonText A) (chart : A) (jsonStr : str),
    JSON_stringify chart = Some jsonStr ->
    well_formed jsonStr = true ->
    JSON_parse jsonStr = Some chart ->
    decodeChartData (encodeChartData chart) = Some chart
    /\ exists encoded,
        encode_text jsonStr = Some encoded
        /\ encodeChartData chart = encoded
        /\ decode_text encoded = Some jsonStr.
Proof.
  intros A host chart jsonStr Hs Hw Hp.
  destruct (text_round_trip jsonStr Hw) as (e & He & Hd & _).
  unfold decodeChartData, encodeChartData. rewrite Hs, He, Hd.
  split; [exact Hp|]. exists e. auto.
Qed.

(** A chart text with an accented letter, a CJK character, a character
    outside the basic plane and a percent sign. *)
Lemma chart_data_round_trip_witness :
  let jsonStr := lit "{t:" ++ [233; 22270; 55357; 56481; 37]%N ++ lit "}" in
  @decodeChartData str text_host (@encodeChartData str text_host jsonStr)
  = Some jsonStr.
Proof.
  cbv zeta.
  apply (chart_data_round_trip str text_host
           (lit "{t:" ++ [233; 22270; 55357; 56481; 37]%N ++ lit "}")
           (lit "{t:" ++ [233; 22270; 55357; 56481; 37]%N ++ lit "}"));
    reflexivity.
Defined.

(** X10. Whatever the chart, the text [encodeChartData] returns holds
    nothing but letters, digits, [+], [/] and [=]: no quote, no angle
    bracket, no ampersand and no white space, so it cannot end the
    attribute it is written into.  When the chart's text is well formed
    its length is a multiple of four. *)
Theorem chart_attribute_is_base64 :
  forall (A : Type) (host : JsonText A) (chart : A),
    forallb b64_safe (encodeChartData chart) = true
    /\ (forall c, In c (encodeChartData chart) ->
                  ~ In c [34; 39; 60; 62; 38; 32; 9; 10; 13])
    /\ (forall jsonStr,
           JSON_stringify chart = Some jsonStr ->
           well_formed jsonStr = true ->
           exists q, (length (encodeChartData chart) = 4 * q)%nat).
Proof.
  intros A host chart.
  assert (Hsafe : forallb b64_safe (encodeChartData chart) = true).
  { unfold encodeChartData.
    destruct (JSON_stringify chart) as [jsonStr|]; [|reflexivity].
    destruct (encode_text jsonStr) as [e|] eqn:He; [|reflexivity].
    exact (encode_text_safe jsonStr e He). }
  split; [exact Hsafe|]. split.
  - intros c Hin Hbad. rewrite forallb_forall in Hsafe.
    specialize (Hsafe c Hin).
    cbn [In] in Hbad.
    repeat (destruct Hbad as [<-|Hbad]; [discriminate Hsafe|]).
    exact Hbad.
  - intros jsonStr Hs Hw.
    destruct (text_round_trip jsonStr Hw) as (e & He & _ & _ & Hq).
    unfold encodeChartData. now rewrite Hs, He.
Qed.

Lemma chart_attribute_is_base64_witness :
  exists q,
    (length (@encodeChartData str text_host (lit "{}" ++ [22270]%N))
     = 4 * q)%nat.
Proof.
  destruct (chart_attribute_is_base64 str text_host (lit "{}" ++ [22270]%N))
    as (_ & _ & H).
  apply (H (lit "{}" ++ [22270]%N)); reflexivity.
Defined.

(** X11. [encodeChartData] returns the empty string exactly when
    [JSON.stringify] throws, when the text holds an unpaired surrogate,
    or when the text is empty; and what [decodeChartData] makes of the
    empty string is what the host's [JSON.parse] makes of it. *)
Theorem chart_encoding_failure :
  forall (A : Type) (host : JsonText A) (chart : A),
    (forall jsonStr,
        JSON_stringify chart = Some jsonStr ->
        forallb (fun c => c <? 65536) jsonStr = true ->
        (encodeChartData chart = []
         <-> code_points jsonStr = None \/ jsonStr = []))
    /\ (JSON_stringify chart = None -> encodeChartData chart = [])
    /\ @decodeChartData A host [] = JSON_parse [].
Proof.
  intros A host chart. split; [|split].
  - intros jsonStr Hs Hu. unfold encodeChartData. rewrite Hs.
    destruct (code_points jsonStr) as [cps|] eqn:Hc.
    + assert (Hw : well_formed jsonStr = true)
        by (unfold well_formed; now rewrite Hu, Hc).
      destruct (text_round_trip jsonStr Hw) as (e & He & Hd & _).
      rewrite He. split.
      * intros ->. right.
        unfold decode_text in Hd. cbn in Hd. now inversion Hd.
      * intros [H|H]; [discriminate|]. subst jsonStr.
        cbn in He. now inversion He.
    + split; [now left|]. intros _.
      assert (He : encode_text jsonStr = None).
      { unfold encode_text.
        destruct (encodeURIComponent jsonStr) as [e0|] eqn:He0;
          [|reflexivity].
        exfalso. clear Hs Hu. revert e0 He0 Hc.
        remember (length jsonStr) as n eqn:Hn.
        revert jsonStr Hn. induction n as [n IH] using lt_wf_ind.
        intros s Hn e0 He0 Hc.
        destruct s as [|c rest]; [discriminate|].
        cbn [encodeURIComponent code_points] in He0, Hc.
        destruct (uri_unescaped c) eqn:Hun.
        - apply uri_unescaped_bound in Hun as [H128 _].
          assert (Hl : is_low_surrogate c = false).
          { unfold is_low_surrogate. apply andb_false_iff.
            rewrite !N.leb_gt. lia. }
          assert (Hh : is_high_surrogate c = false).
          { unfold is_high_surrogate. apply andb_false_iff.
            rewrite !N.leb_gt. lia. }
          rewrite Hl, Hh in Hc.
          destruct (encodeURIComponent rest) as [e1|] eqn:He1;
            [|discriminate].
          destruct (code_points rest) eqn:Hr; [discriminate|].
          apply (IH (length rest)) with (jsonStr := rest) (e0 := e1);
            try reflexivity; try assumption.
          rewrite Hn. simpl. lia.
        - destruct (is_low_surrogate c); [discriminate|].
          destruct (is_high_surrogate c).
          + destruct rest as [|d rest']; [discriminate|].
            destruct (is_low_surrogate d); [|discriminate].
            destruct (encodeURIComponent rest') as [e1|] eqn:He1;
              [|discriminate].
            destruct (code_points rest') eqn:Hr; [discriminate|].
            apply (IH (length rest')) with (jsonStr := rest') (e0 := e1);
              try reflexivity; try assumption.
            rewrite Hn. simpl. lia.
          + destruct (encodeURIComponent rest) as [e1|] eqn:He1;
              [|discriminate].
            destruct (code_points rest) eqn:Hr; [discriminate|].
            apply (IH (length rest)) with (jsonStr := rest) (e0 := e1);
              try reflexivity; try assumption.
            rewrite Hn. simpl. lia. }
      now rewrite He.
  - intros Hs. unfold encodeChartData. now rewrite Hs.
  - reflexivity.
Qed.

(** The text of a chart with a lone leading surrogate. *)
Lemma chart_encoding_failure_witness :
  @encodeChartData str text_host (lit "{" ++ [55357]%N ++ lit "}") = [].
Proof.
  destruct (chart_encoding_failure str text_host
              (lit "{" ++ [55357]%N ++ lit "}")) as (H & _ & _).
  apply (H (lit "{" ++ [55357]%N ++ lit "}")); [reflexivity|reflexivity|].
  left. reflexivity.
Defined.

End CodecFacts.

(** ** Sampling and order of chart data *)

Module ChartPrepFacts.
Import Js Value Regex Charts ChartPrep SortFacts ChartFacts.

(** *** Every [step]-th element *)

(** With [d] elements to pass over before the next one is kept, the
    elements kept are those at the indices [d], [d + step], ... *)
Lemma every_nth_index (A : Type) (step : nat) (l : list A) :
  0 < step ->
  forall i d k,
    d < step -> (i + d) mod step = 0 ->
    nth_error (every_nth step i l) k = nth_error l (d + k * step).
Proof.
  intros Hstep. induction l as [|x l IH]; intros i d k Hd Hmod.
  - cbn [every_nth]. now rewrite !nth_error_nil.
  - cbn [every_nth].
    destruct d as [|d].
    + rewrite Nat.add_0_r in Hmod. rewrite Hmod. cbn [Nat.eqb].
      destruct k as [|k]; [reflexivity|].
      cbn [nth_error].
      rewrite (IH (S i) (step - 1) k); [|lia|].
      * replace (0 + S k * step) with (S (step - 1 + k * step)) by lia.
        reflexivity.
      * replace (S i + (step - 1)) with (i + 1 * step) by lia.
        now rewrite Nat.Div0.mod_add.
    + assert (Hi : i mod step <> 0).
      { intros Hz.
        rewrite <- Nat.Div0.add_mod_idemp_l, Hz in Hmod.
        cbn [Nat.add] in Hmod. rewrite Nat.mod_small in Hmod by lia.
        discriminate. }
      apply Nat.eqb_neq in Hi. rewrite Hi.
      rewrite (IH (S i) d k); [reflexivity|lia|].
      now replace (S i + d) with (i + S d) by lia.
Qed.

Lemma ceil_div_bounds (n : nat) :
  maxLineItems < n ->
  2 <= ceil_div n maxLineItems /\ n <= maxLineItems * ceil_div n maxLineItems.
Proof.
  unfold ceil_div, maxLineItems. intros Hn.
  pose proof (Nat.div_mod_eq (n + 30 - 1) 30) as Hdm.
  pose proof (Nat.mod_upper_bound (n + 30 - 1) 30) as Hub.
  lia.
Qed.

Lemma nth_error_length_le (A : Type) (l : list A) (n : nat) :
  nth_error l n = None -> length l <= n.
Proof. apply nth_error_None. Qed.

(** The sampled points are at most [maxLineItems], so the slice behind
    the filter never cuts. *)
Lemma sampled_length (A : Type) (l : list A) :
  maxLineItems < length l ->
  length (every_nth (ceil_div (length l) maxLineItems) 0 l) <= maxLineItems.
Proof.
  intros Hn. destruct (ceil_div_bounds (length l) Hn) as [H2 Hle].
  apply nth_error_None.
  rewrite (every_nth_index A _ l) with (d := 0);
    [|lia|lia|now rewrite Nat.Div0.mod_0_l].
  apply nth_error_None. lia.
Qed.

Section WithHost.
Context {host : ChartHost}.

(** X12. [renderLineChart] never plots more than [maxLineItems] (30)
    points.  Up to 30 rows are plotted as sorted; of more rows it plots
    every [step]-th one of the sorted rows, from the first on, with
    [step] the ceiling of a thirtieth of their number, which is at least
    two: the slice behind the filter never cuts anything off. *)
Theorem line_chart_sampling :
  forall (config : ChartConfig) (data display : list Row),
    renderLineChart_displayData config data = Some display ->
    let xField := fst (renderBarChart_fields config data) in
    let sorted := sortChartData data xField in
    length display <= maxLineItems
    /\ (length data <= maxLineItems -> display = sorted)
    /\ (maxLineItems < length data ->
        let step := ceil_div (length data) maxLineItems in
        2 <= step
        /\ display = every_nth step 0 sorted
        /\ (forall k, nth_error display k = nth_error sorted (k * step))
        /\ hd_error display = hd_error sorted).
Proof.
  intros config data display H. cbv zeta.
  unfold renderLineChart_displayData in H.
  destruct (renderBarChart_fields config data) as [xField yFields].
  cbn [fst].
  destruct (no_field xField || (length yFields =? 0)); [discriminate|].
  inversion H; subst display. clear H.
  set (sorted := sortChartData data xField).
  assert (Hs : length sorted = length data).
  { symmetry. apply Permutation_length, sortChartData_perm. }
  unfold downsample. rewrite Hs.
  destruct (maxLineItems <? length data) eqn:Hlt.
  - apply Nat.ltb_lt in Hlt.
    destruct (ceil_div_bounds (length data) Hlt) as [H2 Hle].
    assert (Hlen : length (every_nth (ceil_div (length data) maxLineItems)
                                     0 sorted) <= maxLineItems).
    { rewrite <- Hs. apply sampled_length. now rewrite Hs. }
    rewrite firstn_all2 by exact Hlen.
    assert (Hidx : forall k,
               nth_error (every_nth (ceil_div (length data) maxLineItems)
                                    0 sorted) k
               = nth_error sorted
                           (k * ceil_div (length data) maxLineItems)).
    { intros k.
      rewrite (every_nth_index Row _ sorted) with (d := 0);
        [reflexivity|lia|lia|now rewrite Nat.Div0.mod_0_l]. }
    split; [exact Hlen|]. split; [lia|]. intros _.
    split; [exact H2|]. split; [reflexivity|]. split; [exact Hidx|].
    specialize (Hidx 0). cbn [Nat.mul] in Hidx.
    destruct (every_nth _ 0 sorted), sorted; cbn in *; congruence.
  - apply Nat.ltb_ge in Hlt.
    split; [lia|]. split; [reflexivity|]. lia.
Qed.

End WithHost.

(** 61 rows are plotted as 21 points, every third one. *)
Lemma line_chart_sampling_witness :
  exists display,
    @renderLineChart_displayData sample_chart_host no_sources
                                 (countdown_rows 61) = Some display
    /\ length display <= maxLineItems
    /\ ceil_div 61 maxLineItems = 3.
Proof.
  destruct (@renderLineChart_displayData sample_chart_host no_sources
                                         (countdown_rows 61))
    as [display|] eqn:H; [|vm_compute in H; discriminate H].
  exists display. split; [reflexivity|].
  destruct (@line_chart_sampling sample_chart_host no_sources
              (countdown_rows 61) display H) as (Hlen & _ & _).
  split; [exact Hlen|reflexivity].
Defined.

(** *** The order of the rows *)

Section Order.
Context {host : ChartHost}.
Variable mode : SortMode.
Variable k : str.

(** Between two rows with keys the comparator is the difference of the
    keys. *)
Lemma compare_rows_keys (a b : Row) :
  keyed mode k a -> keyed mode k b ->
  num_neg (compare_rows mode k a b)
  = num_ltb (sort_key mode k a) (sort_key mode k b).
Proof.
  intros [Ha Ka] [Hb Kb]. unfold compare_rows. rewrite Ha, Hb.
  destruct mode; try (now apply num_neg_sub). discriminate Ka.
Qed.

Lemma compare_rows_before (a b : Row) :
  keyed mode k a -> keyed mode k b ->
  (before (compare_rows mode k) a b <-> in_order mode k a b).
Proof.
  intros Pa Pb. unfold before, in_order, num_leb.
  rewrite (compare_rows_keys b a Pb Pa).
  split; intros H; [now rewrite H|now apply negb_true_iff in H].
Qed.

Lemma compare_rows_total (a b : Row) :
  keyed mode k a -> keyed mode k b ->
  num_neg (compare_rows mode k a b) = true ->
  before (compare_rows mode k) a b.
Proof.
  intros Pa Pb H. unfold before.
  rewrite (compare_rows_keys a b Pa Pb) in H.
  rewrite (compare_rows_keys b a Pb Pa). now apply num_ltb_asym.
Qed.

Lemma compare_rows_trans (a b c : Row) :
  keyed mode k a -> keyed mode k b -> keyed mode k c ->
  before (compare_rows mode k) a b -> before (compare_rows mode k) b c ->
  before (compare_rows mode k) a c.
Proof.
  intros Pa Pb Pc. unfold before.
  rewrite (compare_rows_keys b a Pb Pa), (compare_rows_keys c b Pc Pb),
    (compare_rows_keys c a Pc Pa).
  intros Hab Hbc.
  apply (num_ltb_cotrans _ (sort_key mode k b)); try assumption;
    [apply Pc|apply Pb|apply Pa].
Qed.

(** Two rows with the same key: neither comes before the other. *)
Lemma compare_rows_level (v : num) (a b : Row) :
  keyed mode k a -> keyed mode k b ->
  has_key mode k v a = true -> has_key mode k v b = true ->
  num_neg (compare_rows mode k a b) = false.
Proof.
  intros Pa Pb Ha Hb. rewrite (compare_rows_keys a b Pa Pb).
  unfold has_key in Ha, Hb.
  apply andb_prop in Ha as [Ha _]. apply andb_prop in Ha as [Kv Ha].
  apply andb_prop in Hb as [_ Hb].
  apply negb_true_iff in Ha, Hb, Kv.
  apply (num_ltb_cotrans _ v); try assumption; [apply Pa|apply Pb].
Qed.

End Order.

(** X13. In the date mode and in the number mode [sortChartData] sorts,
    and its sort is stable: when every row has an x value whose key is a
    number (the time value of its date, or what [parseFloat] makes of
    it), the rows come out with their keys ascending, and the rows of
    one key in the order they had.  Together with their being a
    permutation of the input this fixes the result, whichever stable
    sort the engine uses. *)
Theorem sortChartData_ascending :
  forall (host : ChartHost) (k : str) (first : Row) (rest : list Row),
    is_empty k = false ->
    let mode := sort_mode (get first k) in
    Forall (keyed mode k) (first :: rest) ->
    Permutation (first :: rest) (sortChartData (first :: rest) (Some k))
    /\ StronglySorted (in_order mode k)
                      (sortChartData (first :: rest) (Some k))
    /\ (forall v : num,
           filter (has_key mode k v)
                  (sortChartData (first :: rest) (Some k))
           = filter (has_key mode k v) (first :: rest)).
Proof.
  intros host k first rest Hk mode Hall.
  split; [apply sortChartData_perm|].
  rewrite (sortChartData_unfold k first rest Hk). fold mode.
  assert (Hkeep : Forall (keyed mode k)
                         (js_sort (compare_rows mode k) (first :: rest))).
  { eapply Permutation_Forall; [apply js_sort_perm|exact Hall]. }
  split.
  - pose proof (js_sort_sorted Row (compare_rows mode k) (keyed mode k)
                  (compare_rows_total mode k) (compare_rows_trans mode k)
                  (first :: rest) Hall) as Hs.
    revert Hs Hkeep.
    generalize (js_sort (compare_rows mode k) (first :: rest)).
    intros l Hs. induction Hs as [|a l Hl IH Ha]; intros Hkeep;
      [constructor|].
    inversion Hkeep as [|? ? Pa Pl]; subst.
    constructor; [now apply IH|].
    rewrite Forall_forall in *. intros b Hb.
    apply compare_rows_before; auto.
  - intros v.
    apply (js_sort_stable Row (compare_rows mode k) (keyed mode k)
             (compare_rows_total mode k) (compare_rows_trans mode k)
             (has_key mode k v) (compare_rows_level mode k v)
             (first :: rest) Hall).
Qed.

(** Four rows, two of them with the key 1: these two stay in their
    order. *)
Lemma sortChartData_ascending_witness :
  let data := [[(lit "x", JNum (Fin 3)); (lit "v", JNum (Fin 10))];
               [(lit "x", JNum (Fin 1)); (lit "v", JNum (Fin 20))];
               [(lit "x", JNum (Fin 2)); (lit "v", JNum (Fin 30))];
               [(lit "x", JNum (Fin 1)); (lit "v", JNum (Fin 40))]] in
  StronglySorted (@in_order sample_chart_host ByNumber (lit "x"))
    (@sortChartData sample_chart_host data (Some (lit "x")))
  /\ filter (@has_key sample_chart_host ByNumber (lit "x") (Fin 1))
            (@sortChartData sample_chart_host data (Some (lit "x")))
     = [[(lit "x", JNum (Fin 1)); (lit "v", JNum (Fin 20))];
        [(lit "x", JNum (Fin 1)); (lit "v", JNum (Fin 40))]]
  /\ @sortChartData sample_chart_host data (Some (lit "x"))
     = [[(lit "x", JNum (Fin 1)); (lit "v", JNum (Fin 20))];
        [(lit "x", JNum (Fin 1)); (lit "v", JNum (Fin 40))];
        [(lit "x", JNum (Fin 2)); (lit "v", JNum (Fin 30))];
        [(lit "x", JNum (Fin 3)); (lit "v", JNum (Fin 10))]].
Proof.
  cbv zeta.
  destruct (sortChartData_ascending sample_chart_host (lit "x")
              [(lit "x", JNum (Fin 3)); (lit "v", JNum (Fin 10))]
              [[(lit "x", JNum (Fin 1)); (lit "v", JNum (Fin 20))];
               [(lit "x", JNum (Fin 2)); (lit "v", JNum (Fin 30))];
               [(lit "x", JNum (Fin 1)); (lit "v", JNum (Fin 40))]]
              eq_refl)
    as (_ & Hs & Hst).
  { repeat constructor. }
  split; [exact Hs|]. split.
  - rewrite Hst. reflexivity.
  - vm_compute. reflexivity.
Defined.

(** *** The fields [parseChartFields] returns *)

Lemma str_eqb_refl (a : str) : str_eqb a a = true.
Proof. induction a as [|x a IH]; simpl; [reflexivity|]. now rewrite N.eqb_refl. Qed.

Lemma mem_In (f : str) (l : list str) : mem f l = true <-> In f l.
Proof.
  unfold mem. rewrite existsb_exists. split.
  - intros (x & Hx & He). apply MarkdownFacts.str_eqb_eq in He. now subst.
  - intros H. exists f. split; [exact H|apply str_eqb_refl].
Qed.

Lemma dedupe_spec (l : list str) :
  forall seen,
    NoDup (dedupe seen l)
    /\ forall f, In f (dedupe seen l) -> In f l /\ ~ In f seen.
Proof.
  induction l as [|f l IH]; intros seen; [split; [constructor|easy]|].
  cbn [dedupe]. destruct (mem f seen) eqn:Hm.
  - destruct (IH seen) as [Hn Hin]. split; [exact Hn|].
    intros g Hg. destruct (Hin g Hg). split; [now right|assumption].
  - destruct (IH (f :: seen)) as [Hn Hin]. split.
    + constructor; [|exact Hn]. intros Hf. destruct (Hin f Hf) as [_ Hns].
      apply Hns. now left.
    + intros g [<-|Hg].
      * split; [now left|]. intros Hs. apply mem_In in Hs. congruence.
      * destruct (Hin g Hg) as [H1 H2]. split; [now right|].
        intros Hs. apply H2. now right.
Qed.

Lemma field_or_cases (a b : option str) :
  field_or a b = a \/ field_or a b = b.
Proof. unfold field_or. destruct (no_field a); auto. Qed.

Lemma find_In (p : str -> bool) (l : list str) (x : str) :
  find p l = Some x -> In x l.
Proof. intros H. now apply find_some in H. Qed.

Lemma hd_error_In (l : list str) (x : str) : hd_error l = Some x -> In x l.
Proof. destruct l; [discriminate|]. intros H. inversion H. now left. Qed.

(** X14. The fields [parseChartFields] returns exist in the data: every
    y field is a key of the first row, no y field is returned twice, and
    the x field, when there is one, is a key of the first row.  When the
    y fields had to be detected they are numeric columns other than the
    x field; and with no data at all there is no field of either
    kind. *)
Theorem parseChartFields_fields_exist :
  forall (config : ChartConfig) (data : list Row),
    let keys := keys_of (first_row data) in
    let xField := fst (parseChartFields config data) in
    let yFields := snd (parseChartFields config data) in
    Forall (fun f => In f keys) yFields
    /\ (NoDup keys -> NoDup yFields)
    /\ (forall x, xField = Some x -> In x keys)
    /\ (filter (fun f => mem f keys)
               (dedupe [] (flat_map y_fields_of (data_sources config))) = [] ->
        Forall (fun f => xField <> Some f
                         /\ is_number (get (first_row data) f) = true)
               yFields)
    /\ (keys = [] -> xField = None /\ yFields = []).
Proof.
  intros config data. cbv zeta. unfold parseChartFields.
  set (keys := keys_of (first_row data)).
  set (declared := match data_sources config with
                   | ds0 :: _ => field_or (xAxis ds0) (x_axis ds0)
                   | [] => None
                   end).
  set (detected :=
         field_or
           (find (fun k => test re_time_like k
                           && negb (is_number (get (first_row data) k)))
                 keys)
           (field_or (find (fun k => is_string (get (first_row data) k)) keys)
                     (hd_error keys))).
  set (xField := if no_field declared || negb (mem (prop_key declared) keys)
                 then detected else declared).
  set (given := filter (fun f => mem f keys)
                       (dedupe [] (flat_map y_fields_of
                                            (data_sources config)))).
  set (auto := filter (fun k => differs k xField
                                && is_number (get (first_row data) k)) keys).
  cbn [fst snd].
  assert (Hdet : forall x, detected = Some x -> In x keys).
  { intros x. unfold detected.
    destruct (field_or_cases
                (find (fun k => test re_time_like k
                                && negb (is_number (get (first_row data) k)))
                      keys)
                (field_or
                   (find (fun k => is_string (get (first_row data) k)) keys)
                   (hd_error keys))) as [-> | ->]; [apply find_In|].
    destruct (field_or_cases
                (find (fun k => is_string (get (first_row data) k)) keys)
                (hd_error keys)) as [-> | ->];
      [apply find_In|apply hd_error_In]. }
  assert (Hx : forall x, xField = Some x -> In x keys).
  { intros x. unfold xField.
    destruct (no_field declared || negb (mem (prop_key declared) keys))
      eqn:Hg; [apply Hdet|].
    apply orb_false_iff in Hg as [_ Hm]. apply negb_false_iff in Hm.
    intros ->. now apply mem_In in Hm. }
  assert (Hgiven : Forall (fun f => In f keys) given).
  { apply Forall_forall. intros f Hf. unfold given in Hf.
    apply filter_In in Hf as [_ Hm]. now apply mem_In. }
  assert (Hauto : Forall (fun f => In f keys) auto).
  { apply Forall_forall. intros f Hf. unfold auto in Hf.
    now apply filter_In in Hf as [Hin _]. }
  split; [|split; [|split; [|split]]].
  - destruct (length given =? 0); assumption.
  - intros Hnd. destruct (length given =? 0).
    + now apply NoDup_filter.
    + apply NoDup_filter. apply (dedupe_spec _ []).
  - exact Hx.
  - intros Hnone. fold given in Hnone. rewrite Hnone. cbn [length Nat.eqb].
    apply Forall_forall. intros f Hf. unfold auto in Hf.
    apply filter_In in Hf as [_ Hp]. apply andb_prop in Hp as [Hd Hn].
    split; [|exact Hn]. intros Hxf. rewrite Hxf in Hd.
    cbn [differs] in Hd. now rewrite str_eqb_refl in Hd.
  - intros Hk.
    assert (Hgk : given = []).
    { destruct given as [|f g]; [reflexivity|].
      inversion Hgiven as [|? ? Hf _]; subst. rewrite Hk in Hf.
      destruct Hf. }
    rewrite Hgk. cbn [length Nat.eqb]. split.
    + destruct xField as [x|] eqn:E; [|reflexivity].
      specialize (Hx x eq_refl). rewrite Hk in Hx. destruct Hx.
    + unfold auto. now rewrite Hk.
Qed.

(** The declared y field [w] is not in the data; [v] is detected. *)
Lemma parseChartFields_fields_exist_witness :
  let config :=
    {| data_sources := [{| xAxis := Some (lit "m"); x_axis := None;
                           yAxis := Some [lit "w"]; y_axis := None |}] |} in
  parseChartFields config (sample_rows 2) = (Some (lit "m"), [lit "v"])
  /\ NoDup (snd (parseChartFields config (sample_rows 2))).
Proof.
  cbv zeta. split; [reflexivity|].
  destruct (parseChartFields_fields_exist
              {| data_sources := [{| xAxis := Some (lit "m"); x_axis := None;
                                     yAxis := Some [lit "w"];
                                     y_axis := None |}] |}
              (sample_rows 2)) as (_ & Hnd & _).
  apply Hnd. repeat constructor; cbn; intuition discriminate.
Defined.

End ChartPrepFacts.

(** ** What the sanitizer leaves of white space; what [escapeHtml]
       leaves of markup *)

Module WhitespaceFacts.
Import Js Regex Markdown Runs RegexFacts MarkdownFacts.

(** *** Greedy runs *)

Lemma skip_while_length (p : N -> bool) (s : str) :
  length (skip_while p s) <= length s.
Proof.
  induction s as [|c s IH]; [simpl; lia|].
  simpl. destruct (p c); simpl; lia.
Qed.

Lemma skip_while_head (p : N -> bool) (s : str) :
  head_outside p (skip_while p s) = true.
Proof.
  induction s as [|c s IH]; [reflexivity|].
  simpl. destruct (p c) eqn:Hc; [exact IH|]. simpl. now rewrite Hc.
Qed.

(** A greedy repetition of a class, with nothing required behind it,
    takes the whole run. *)
Lemma m_star_run (p : N -> bool) (s : str) (caps : captures) :
  m (Star true (Chr p)) s caps accept = Some (skip_while p s, caps).
Proof.
  cbn [m].
  set (loop := fix loop (n : nat) (s : str) (caps : captures) {struct n}
                 : result :=
         match n with
         | O => accept s caps
         | S n' =>
             let again :=
               match s with
               | c :: s' =>
                   if p c
                   then (if length s' <? length s then loop n' s' caps
                         else None)
                   else None
               | [] => None
               end in
             match again with
             | Some x => Some x
             | None => accept s caps
             end
         end).
  assert (H : forall n s caps,
             length s <= n -> loop n s caps = Some (skip_while p s, caps)).
  { clear s caps. induction n as [|n IH]; intros s caps Hlen.
    - destruct s; [reflexivity|simpl in Hlen; lia].
    - destruct s as [|c s]; [reflexivity|].
      cbn [loop skip_while]. destruct (p c); [|reflexivity].
      replace (length s <? length (c :: s)) with true
        by (symmetry; apply Nat.ltb_lt; simpl; lia).
      fold loop. rewrite IH by (simpl in Hlen; lia). reflexivity. }
  apply H. lia.
Qed.

Lemma m_plus_run (p : N -> bool) (c : N) (s : str) :
  m (Plus true (Chr p)) (c :: s) [] accept
  = if p c then Some (skip_while p s, []) else None.
Proof.
  unfold Plus.
  change (m (Seq (Chr p) (Star true (Chr p))) (c :: s) [] accept)
    with (if p c then m (Star true (Chr p)) s [] accept else None).
  destruct (p c); [apply m_star_run|reflexivity].
Qed.

Lemma firstn_consumed (c : N) (s rest : str) :
  length rest <= length s ->
  exists matched, firstn (length (c :: s) - length rest) (c :: s)
                  = c :: matched.
Proof.
  intros H. cbn [length].
  replace (S (length s) - length rest) with (S (length s - length rest))
    by lia.
  cbn [firstn]. eauto.
Qed.

(** Replacing the runs of a class by a text: a code unit outside the
    class is copied, a run is replaced as a whole. *)
Lemma replace_run_skip (p : N -> bool) (t : str) (c : N) (s : str)
      (fuel : nat) :
  p c = false ->
  replace_fuel (S fuel) (Plus true (Chr p)) [Text t] (c :: s)
  = c :: replace_fuel (S fuel) (Plus true (Chr p)) [Text t] s.
Proof.
  intros Hc. apply replace_fuel_skip. now rewrite m_plus_run, Hc.
Qed.

Lemma replace_run_match (p : N -> bool) (t : str) (c : N) (s : str)
      (fuel : nat) :
  p c = true ->
  replace_fuel (S fuel) (Plus true (Chr p)) [Text t] (c :: s)
  = t ++ replace_fuel fuel (Plus true (Chr p)) [Text t] (skip_while p s).
Proof.
  intros Hc.
  change (replace_fuel (S fuel) (Plus true (Chr p)) [Text t] (c :: s))
    with (match search (Plus true (Chr p)) [] (c :: s) with
          | None => c :: s
          | Some (before, matched, rest, caps) =>
              before ++ expand [Text t] caps ++
              match matched, rest with
              | [], c' :: rest' =>
                  c' :: replace_fuel fuel (Plus true (Chr p)) [Text t] rest'
              | [], [] => []
              | _ :: _, _ =>
                  replace_fuel fuel (Plus true (Chr p)) [Text t] rest
              end
          end).
  cbn [search]. rewrite m_plus_run, Hc.
  destruct (firstn_consumed c s (skip_while p s) (skip_while_length p s))
    as [matched ->].
  cbn [rev app expand flat_map]. now rewrite app_nil_r.
Qed.

(** *** Blanks *)


(** *** Blanks *)

Lemma not_blank (c : N) :
  blank c = false -> only TAB c = false /\ only 32%N c = false.
Proof.
  unfold blank, one_of, only, TAB. cbn [existsb].
  rewrite orb_false_r. intros H. apply orb_false_iff in H as [H1 H2].
  now rewrite H1, H2.
Qed.

Lemma no_adjacent_cons2 (p : N -> bool) (a b : N) (s : str) :
  no_adjacent p (a :: b :: s)
  = negb (p a && p b) && no_adjacent p (b :: s).
Proof. reflexivity. Qed.

Lemma squeezed_cons (c : N) (s : str) :
  only TAB c = false ->
  (only 32%N c = true -> head_outside (only 32%N) s = true) ->
  squeezed s = true -> squeezed (c :: s) = true.
Proof.
  unfold squeezed. intros Ht Hs H. apply andb_prop in H as [Hf Ha].
  cbn [free_of forallb]. change (forallb (fun c0 => negb (only TAB c0)) s)
    with (free_of (only TAB) s).
  rewrite Ht, Hf. cbn [negb andb].
  destruct s as [|d s]; [reflexivity|].
  rewrite no_adjacent_cons2, Ha, andb_true_r.
  destruct (only 32%N c) eqn:Hc; [|reflexivity].
  specialize (Hs eq_refl). cbn [head_outside] in Hs.
  apply negb_true_iff in Hs. now rewrite Hs.
Qed.

Lemma squeezed_tail (c : N) (s : str) :
  squeezed (c :: s) = true -> squeezed s = true.
Proof.
  unfold squeezed. intros H. apply andb_prop in H as [Hf Ha].
  cbn [free_of forallb] in Hf. apply andb_prop in Hf as [_ Hf].
  change (free_of (only TAB) s = true) in Hf. rewrite Hf.
  destruct s as [|d s]; [reflexivity|].
  rewrite no_adjacent_cons2 in Ha. now apply andb_prop in Ha.
Qed.

Lemma head_outside_weaken (p q : N -> bool) (s : str) :
  (forall c, q c = true -> p c = true) ->
  head_outside p s = true -> head_outside q s = true.
Proof.
  intros H. destruct s as [|c s]; [reflexivity|]. cbn [head_outside].
  intros Hp. apply negb_true_iff in Hp. apply negb_true_iff.
  destruct (q c) eqn:Hq; [|reflexivity]. apply H in Hq. congruence.
Qed.

Lemma space_is_blank (c : N) : only 32%N c = true -> blank c = true.
Proof.
  unfold blank, one_of, only. cbn [existsb]. intros ->. reflexivity.
Qed.

(** After the runs of blanks are replaced by one space each, no tab is
    left and no two spaces are adjacent. *)
Lemma squeeze_blanks (s : str) :
  forall fuel,
    length s < fuel ->
    squeezed (replace_fuel fuel re_blanks [Text (lit " ")] s) = true
    /\ (head_outside blank s = true ->
        head_outside blank (replace_fuel fuel re_blanks [Text (lit " ")] s)
        = true).
Proof.
  remember (length s) as n eqn:Hn.
  revert s Hn. induction n as [n IH] using lt_wf_ind.
  intros s Hn fuel Hfuel.
  destruct fuel as [|fuel]; [lia|].
  destruct s as [|c s]; [split; reflexivity|].
  unfold re_blanks. fold blank.
  destruct (blank c) eqn:Hc.
  - rewrite (replace_run_match blank (lit " ") c s fuel Hc).
    destruct (IH (length (skip_while blank s))) with
        (s := skip_while blank s) (fuel := fuel) as [Hsq Hhd].
    { pose proof (skip_while_length blank s). rewrite Hn. simpl. lia. }
    { reflexivity. }
    { pose proof (skip_while_length blank s). simpl in Hn. lia. }
    specialize (Hhd (skip_while_head blank s)).
    split.
    + change (lit " " ++ ?x) with (32%N :: x).
      apply squeezed_cons; [reflexivity| |exact Hsq].
      intros _. revert Hhd. apply head_outside_weaken, space_is_blank.
    + cbn [head_outside]. rewrite Hc. discriminate.
  - rewrite (replace_run_skip blank (lit " ") c s fuel Hc).
    destruct (IH (length s)) with (s := s) (fuel := S fuel) as [Hsq _].
    { rewrite Hn. simpl. lia. }
    { reflexivity. }
    { simpl in Hn. lia. }
    destruct (not_blank c Hc) as [Ht Hs].
    split.
    + apply squeezed_cons; [exact Ht| |exact Hsq].
      intros H. congruence.
    + intros _. cbn [head_outside]. now rewrite Hc.
Qed.

(** *** Line feeds *)

Lemma m_newlines3_run (s : str) :
  m re_newlines3 (LF :: LF :: LF :: s) [] accept
  = Some (skip_while (only LF) s, []).
Proof.
  unfold re_newlines3.
  change (m (AtLeast 3 (Chr (only LF))) (LF :: LF :: LF :: s) [] accept)
    with (m (Star true (Chr (only LF))) s [] accept).
  apply m_star_run.
Qed.

Lemma startsWith_lf3 (s : str) :
  startsWith [LF; LF; LF] s = true ->
  exists s', s = LF :: LF :: LF :: s'.
Proof.
  intros H. apply SplitFacts.startsWith_inv in H.
  exists (skipn 3 s). exact H.
Qed.

Lemma replace_newlines_match (s : str) (fuel : nat) :
  replace_fuel (S fuel) re_newlines3 [Text [LF; LF]] (LF :: LF :: LF :: s)
  = LF :: LF
    :: replace_fuel fuel re_newlines3 [Text [LF; LF]]
                    (skip_while (only LF) s).
Proof.
  change (replace_fuel (S fuel) re_newlines3 [Text [LF; LF]]
                       (LF :: LF :: LF :: s))
    with (match search re_newlines3 [] (LF :: LF :: LF :: s) with
          | None => LF :: LF :: LF :: s
          | Some (before, matched, rest, caps) =>
              before ++ expand [Text [LF; LF]] caps ++
              match matched, rest with
              | [], c' :: rest' =>
                  c' :: replace_fuel fuel re_newlines3 [Text [LF; LF]] rest'
              | [], [] => []
              | _ :: _, _ =>
                  replace_fuel fuel re_newlines3 [Text [LF; LF]] rest
              end
          end).
  cbn [search]. rewrite m_newlines3_run.
  assert (Hlen : length (skip_while (only LF) s) <= length (LF :: LF :: s)).
  { pose proof (skip_while_length (only LF) s). simpl. lia. }
  destruct (firstn_consumed LF (LF :: LF :: s) _ Hlen) as [matched ->].
  reflexivity.
Qed.

Lemma startsWith_head (p : N) (a b : str) :
  hd_error a = hd_error b -> startsWith [p] a = startsWith [p] b.
Proof.
  destruct a, b; cbn; try discriminate; try reflexivity.
  intros H. now inversion H.
Qed.

Lemma head_outside_head (p : N -> bool) (a b : str) :
  hd_error a = hd_error b -> head_outside p a = head_outside p b.
Proof.
  destruct a, b; cbn; try discriminate; try reflexivity.
  intros H. now inversion H.
Qed.

Lemma squeezed_skip_while (p : N -> bool) (s : str) :
  squeezed s = true -> squeezed (skip_while p s) = true.
Proof.
  induction s as [|c s IH]; [reflexivity|]. intros H. cbn [skip_while].
  destruct (p c); [|exact H]. apply IH. now apply squeezed_tail in H.
Qed.

Lemma squeezed_head (c : N) (s : str) :
  squeezed (c :: s) = true ->
  only TAB c = false
  /\ (only 32%N c = true -> head_outside (only 32%N) s = true).
Proof.
  unfold squeezed. intros H. apply andb_prop in H as [Hf Ha].
  cbn [free_of forallb] in Hf. apply andb_prop in Hf as [Hc _].
  apply negb_true_iff in Hc. split; [exact Hc|]. intros Hs.
  destruct s as [|d s]; [reflexivity|].
  rewrite no_adjacent_cons2 in Ha. apply andb_prop in Ha as [Hd _].
  rewrite Hs in Hd. cbn [andb] in Hd. exact Hd.
Qed.

(** After the runs of three and more line feeds are replaced by two, no
    three line feeds are adjacent; and the blanks stay as they were. *)
Lemma cap_newlines (s : str) :
  forall fuel,
    length s < fuel ->
    squeezed s = true ->
    let out := replace_fuel fuel re_newlines3 [Text [LF; LF]] s in
    squeezed out = true
    /\ includes [LF; LF; LF] out = false
    /\ hd_error out = hd_error s
    /\ (startsWith [LF; LF] s = false -> startsWith [LF; LF] out = false).
Proof.
  remember (length s) as n eqn:Hn.
  revert s Hn. induction n as [n IH] using lt_wf_ind.
  intros s Hn fuel Hfuel Hsq. cbv zeta.
  destruct fuel as [|fuel]; [lia|].
  destruct s as [|c s]; [repeat split; reflexivity|].
  destruct (startsWith [LF; LF; LF] (c :: s)) eqn:Hst.
  - destruct (startsWith_lf3 _ Hst) as [s' Hs']. inversion Hs'; subst c s.
    rewrite replace_newlines_match.
    pose proof (skip_while_length (only LF) s') as Hlen.
    assert (Hsq' : squeezed (skip_while (only LF) s') = true).
    { apply squeezed_skip_while.
      now apply squeezed_tail, squeezed_tail, squeezed_tail in Hsq. }
    destruct (IH (length (skip_while (only LF) s'))) with
        (s := skip_while (only LF) s') (fuel := fuel)
      as (Ho & Hi & Hh & _); try reflexivity; try assumption.
    { rewrite Hn. simpl. lia. }
    { simpl in Hn. lia. }
    set (out := replace_fuel fuel re_newlines3 [Text [LF; LF]]
                             (skip_while (only LF) s')) in *.
    assert (Hnl : startsWith [LF] out = false).
    { rewrite (startsWith_head LF out (skip_while (only LF) s') Hh).
      pose proof (skip_while_head (only LF) s') as Hk.
      destruct (skip_while (only LF) s') as [|d r]; [reflexivity|].
      cbn [head_outside] in Hk. apply negb_true_iff in Hk.
      cbn [startsWith]. unfold only in Hk.
      rewrite N.eqb_sym, Hk. reflexivity. }
    split; [|split; [|split]].
    + apply squeezed_cons; [reflexivity|discriminate|].
      apply squeezed_cons; [reflexivity|discriminate|exact Ho].
    + cbn [includes]. rewrite Hi, orb_false_r.
      change (startsWith [LF; LF; LF] (LF :: LF :: out))
        with (startsWith [LF] out).
      change (startsWith [LF; LF; LF] (LF :: out))
        with (startsWith [LF; LF] out).
      rewrite Hnl. cbn [orb].
      destruct out as [|a [|b out']]; try reflexivity;
        cbn [startsWith] in Hnl |- *;
        apply andb_false_iff in Hnl as [Hnl|Hnl];
        try discriminate; now rewrite Hnl.
    + reflexivity.
    + discriminate.
  - rewrite replace_fuel_skip by (now apply m_newlines3_none).
    destruct (IH (length s)) with (s := s) (fuel := S fuel)
      as (Ho & Hi & Hh & Hk); try reflexivity.
    { rewrite Hn. simpl. lia. }
    { simpl in Hn. lia. }
    { now apply squeezed_tail in Hsq. }
    set (out := replace_fuel (S fuel) re_newlines3 [Text [LF; LF]] s) in *.
    destruct (squeezed_head c s Hsq) as [Ht Hsp].
    split; [|split; [|split]].
    + apply squeezed_cons; [exact Ht| |exact Ho].
      intros Hc. rewrite (head_outside_head _ out s Hh). now apply Hsp.
    + cbn [includes]. rewrite Hi, orb_false_r.
      change (startsWith [LF; LF; LF] (c :: out))
        with (N.eqb LF c && startsWith [LF; LF] out).
      change (startsWith [LF; LF; LF] (c :: s))
        with (N.eqb LF c && startsWith [LF; LF] s) in Hst.
      destruct (N.eqb LF c); [|reflexivity]. cbn [andb] in *.
      now apply Hk.
    + reflexivity.
    + change (startsWith [LF; LF] (c :: s))
        with (N.eqb LF c && startsWith [LF] s).
      change (startsWith [LF; LF] (c :: out))
        with (N.eqb LF c && startsWith [LF] out).
      now rewrite (startsWith_head LF out s Hh).
Qed.

(** *** Trimming *)

Lemma trimStart_suffix (s : str) : exists a, s = a ++ trimStart s.
Proof.
  induction s as [|c s [a IH]]; [now exists []|].
  cbn [trimStart]. destruct (is_space c); [|now exists []].
  exists (c :: a). cbn [app]. now rewrite <- IH.
Qed.

Lemma trim_middle (s : str) : exists a b, s = a ++ trim s ++ b.
Proof.
  unfold trim, trimEnd.
  destruct (trimStart_suffix s) as [a Ha].
  destruct (trimStart_suffix (rev (trimStart s))) as [b Hb].
  exists a, (rev b).
  rewrite <- rev_app_distr, <- Hb, rev_involutive. exact Ha.
Qed.

Lemma trimStart_fixed (s : str) :
  head_outside is_space s = true -> trimStart s = s.
Proof.
  destruct s as [|c s]; [reflexivity|]. cbn [head_outside trimStart].
  intros H. apply negb_true_iff in H. now rewrite H.
Qed.

Lemma trimStart_head (s : str) : head_outside is_space (trimStart s) = true.
Proof.
  induction s as [|c s IH]; [reflexivity|]. cbn [trimStart].
  destruct (is_space c) eqn:Hc; [exact IH|]. cbn [head_outside].
  now rewrite Hc.
Qed.

Lemma trimEnd_head (s : str) :
  head_outside is_space s = true -> head_outside is_space (trimEnd s) = true.
Proof.
  unfold trimEnd. intros H.
  destruct (trimStart_suffix (rev s)) as [b Hb].
  assert (E : s = rev (trimStart (rev s)) ++ rev b).
  { rewrite <- rev_app_distr, <- Hb. now rewrite rev_involutive. }
  pose proof (trimStart_head (rev s)) as Hh.
  destruct (rev (trimStart (rev s))) as [|c t] eqn:Et; [reflexivity|].
  rewrite E in H. exact H.
Qed.

Lemma trim_idempotent (s : str) : trim (trim s) = trim s.
Proof.
  unfold trim at 1.
  rewrite (trimStart_fixed (trim s)).
  - unfold trim, trimEnd. rewrite rev_involutive.
    rewrite (trimStart_fixed (trimStart (rev (trimStart s)))); [reflexivity|].
    apply trimStart_head.
  - unfold trim. apply trimEnd_head, trimStart_head.
Qed.

Lemma no_adjacent_app (p : N -> bool) (a b : str) :
  no_adjacent p (a ++ b) = true ->
  no_adjacent p a = true /\ no_adjacent p b = true.
Proof.
  induction a as [|c a IH]; [now split|].
  intros H. destruct a as [|d a].
  - split; [reflexivity|]. cbn [app] in H. destruct b; [reflexivity|].
    rewrite no_adjacent_cons2 in H. now apply andb_prop in H.
  - change ((c :: d :: a) ++ b) with (c :: d :: (a ++ b)) in H.
    rewrite no_adjacent_cons2 in H. apply andb_prop in H as [Hcd H].
    destruct (IH H) as [Ha Hb]. split; [|exact Hb].
    rewrite no_adjacent_cons2, Hcd. exact Ha.
Qed.

Lemma squeezed_middle (a x b : str) :
  squeezed (a ++ x ++ b) = true -> squeezed x = true.
Proof.
  unfold squeezed. intros H. apply andb_prop in H as [Hf Ha].
  rewrite !free_of_app in Hf.
  apply andb_prop in Hf as [_ Hf]. apply andb_prop in Hf as [Hf _].
  apply no_adjacent_app in Ha as [_ Ha].
  apply no_adjacent_app in Ha as [Ha _].
  now rewrite Hf, Ha.
Qed.

Lemma excludes_middle (p a x b : str) :
  includes p (a ++ x ++ b) = false -> includes p x = false.
Proof.
  intros H. destruct (includes p x) eqn:E; [|reflexivity].
  rewrite <- H. symmetry.
  apply DiscoveryFacts.includes_app_r, DiscoveryFacts.includes_app_l, E.
Qed.

Lemma replace_all_blanks_squeezed (s : str) :
  squeezed (replace_all re_blanks [Text (lit " ")] s) = true.
Proof.
  unfold replace_all.
  exact (proj1 (squeeze_blanks s (S (length s)) (Nat.lt_succ_diag_r _))).
Qed.

Lemma replace_all_newlines_capped (s : str) :
  squeezed s = true ->
  squeezed (replace_all re_newlines3 [Text [LF; LF]] s) = true
  /\ includes [LF; LF; LF] (replace_all re_newlines3 [Text [LF; LF]] s)
     = false.
Proof.
  intros H. unfold replace_all.
  destruct (cap_newlines s (S (length s)) (Nat.lt_succ_diag_r _) H)
    as (H1 & H2 & _).
  now split.
Qed.

(** X15. Whatever the text, what [cleanHtmlAndUrls] returns is trimmed,
    holds no tab and no two adjacent spaces, and nowhere three line
    feeds in a row: runs of blanks have become one space, and pieces of
    text are at most one empty line apart. *)
Theorem cleanHtmlAndUrls_normalizes_whitespace :
  forall text : str,
    trim (cleanHtmlAndUrls text) = cleanHtmlAndUrls text
    /\ free_of (only TAB) (cleanHtmlAndUrls text) = true
    /\ no_adjacent (only 32%N) (cleanHtmlAndUrls text) = true
    /\ includes [LF; LF; LF] (cleanHtmlAndUrls text) = false.
Proof.
  intros text. unfold cleanHtmlAndUrls.
  destruct (is_empty text); [repeat split; reflexivity|].
  match goal with
  | |- context [replace_all re_blanks [Text (lit " ")] ?x] =>
      generalize x
  end.
  intros s.
  pose proof (replace_all_blanks_squeezed s) as Hsq.
  generalize dependent (replace_all re_blanks [Text (lit " ")] s).
  intros s1 Hsq.
  destruct (replace_all_newlines_capped s1 Hsq) as [Hsq2 Hin].
  generalize dependent (replace_all re_newlines3 [Text [LF; LF]] s1).
  intros s2 Hsq2 Hin.
  destruct (trim_middle s2) as (a & b & E).
  rewrite E in Hsq2, Hin.
  apply squeezed_middle in Hsq2. apply excludes_middle in Hin.
  unfold squeezed in Hsq2. apply andb_prop in Hsq2 as [Hf Ha].
  split; [apply trim_idempotent|]. auto.
Qed.

(** X16. [fixMarkdownTables] returns a text without a pipe sign as it
    is, whatever else the text holds (markup, blank lines, runs of
    spaces): without a pipe no line is joined with the next one and no
    table is set apart. *)
Theorem fixMarkdownTables_leaves_text_without_pipe :
  forall text : str,
    pipe_free text = true -> fixMarkdownTables text = text.
Proof.
  intros text H. now apply fixMarkdownTables_pipe_free.
Qed.

Lemma fixMarkdownTables_leaves_text_without_pipe_witness :
  fixMarkdownTables (lit "<b>1 < 2</b>" ++ [LF; LF; LF] ++ lit "a:  b")
  = lit "<b>1 < 2</b>" ++ [LF; LF; LF] ++ lit "a:  b".
Proof.
  apply (fixMarkdownTables_leaves_text_without_pipe
           (lit "<b>1 < 2</b>" ++ [LF; LF; LF] ++ lit "a:  b")).
  reflexivity.
Defined.

End WhitespaceFacts.

(** ** Escaping text for HTML *)

Module EscapeFacts.
Import Js Regex Discovery.

Lemma escape_unit_cases (c : N) :
  (c = 38%N /\ escape_unit c = [38; 97; 109; 112; 59]%N)
  \/ (c = 60%N /\ escape_unit c = [38; 108; 116; 59]%N)
  \/ (c = 62%N /\ escape_unit c = [38; 103; 116; 59]%N)
  \/ (c = 160%N /\ escape_unit c = [38; 110; 98; 115; 112; 59]%N)
  \/ (c <> 38%N /\ c <> 60%N /\ c <> 62%N /\ c <> 160%N
      /\ escape_unit c = [c]).
Proof.
  unfold escape_unit.
  destruct (N.eqb_spec c 38) as [->|H1]; [now left|].
  destruct (N.eqb_spec c 60) as [->|H2]; [now right; left|].
  destruct (N.eqb_spec c 62) as [->|H3]; [now right; right; left|].
  destruct (N.eqb_spec c 160) as [->|H4]; [now right; right; right; left|].
  now right; right; right; right.
Qed.

(** The escaped forms of two code units do not overlap: the first one
    can be read back from the front of the text. *)
Lemma escape_unit_prefix (c d : N) (x y : str) :
  escape_unit c ++ x = escape_unit d ++ y -> c = d /\ x = y.
Proof.
  destruct (escape_unit_cases c)
    as [[-> ->]|[[-> ->]|[[-> ->]|[[-> ->]|(C1 & C2 & C3 & C4 & ->)]]]];
  destruct (escape_unit_cases d)
    as [[-> ->]|[[-> ->]|[[-> ->]|[[-> ->]|(D1 & D2 & D3 & D4 & ->)]]]];
  cbn [app]; intros H; inversion H; subst; try (now split); congruence.
Qed.

Lemma escape_unit_free (c : N) :
  free_of (one_of [60; 62]%N) (escape_unit c) = true.
Proof.
  destruct (escape_unit_cases c)
    as [[-> ->]|[[-> ->]|[[-> ->]|[[-> ->]|(C1 & C2 & C3 & C4 & ->)]]]];
    try reflexivity.
  unfold free_of, one_of. cbn [forallb existsb].
  apply N.eqb_neq in C2, C3. now rewrite C2, C3.
Qed.

Lemma escape_unit_quotes (c : N) :
  filter (one_of [34; 39]%N) (escape_unit c) = filter (one_of [34; 39]%N) [c].
Proof.
  destruct (escape_unit_cases c)
    as [[-> ->]|[[-> ->]|[[-> ->]|[[-> ->]|(C1 & C2 & C3 & C4 & ->)]]]];
    reflexivity.
Qed.

(** X17. [escapeHtml] gives a text without angle brackets, so that the
    escaped text, set into a page, opens and closes no element; it
    changes nothing in a text without ampersand, angle bracket and
    no-break space; it loses nothing: two texts with the same escaped
    form are the same text; and it leaves the quotes of the text, double
    and single, as they are. *)
Theorem escapeHtml_safe_and_faithful :
  (forall text : str,
      free_of (one_of [60; 62]%N) (escapeHtml text) = true)
  /\ (forall text : str,
         filter (one_of [34; 39]%N) (escapeHtml text)
         = filter (one_of [34; 39]%N) text)
  /\ (forall text : str,
         free_of (one_of [38; 60; 62; 160]%N) text = true ->
         escapeHtml text = text)
  /\ (forall a b : str, escapeHtml a = escapeHtml b -> a = b).
Proof.
  split; [|split; [|split]].
  - induction text as [|c text IH]; [reflexivity|].
    unfold escapeHtml in *.
    change (flat_map escape_unit (c :: text))
      with (escape_unit c ++ flat_map escape_unit text).
    rewrite RegexFacts.free_of_app, escape_unit_free, IH. reflexivity.
  - induction text as [|c text IH]; [reflexivity|].
    unfold escapeHtml in *.
    change (flat_map escape_unit (c :: text))
      with (escape_unit c ++ flat_map escape_unit text).
    rewrite filter_app, escape_unit_quotes, IH.
    change (c :: text) with ([c] ++ text). now rewrite filter_app.
  - induction text as [|c text IH]; [reflexivity|].
    intros H. unfold free_of in H. cbn [forallb] in H.
    apply andb_prop in H as [Hc H]. apply negb_true_iff in Hc.
    unfold escapeHtml in *.
    change (flat_map escape_unit (c :: text))
      with (escape_unit c ++ flat_map escape_unit text).
    rewrite (IH H).
    destruct (escape_unit_cases c)
      as [[-> _]|[[-> _]|[[-> _]|[[-> _]|(_ & _ & _ & _ & ->)]]]];
      try discriminate Hc.
    reflexivity.
  - induction a as [|c a IH]; intros [|d b] H.
    + reflexivity.
    + exfalso. unfold escapeHtml in H.
      change (flat_map escape_unit (d :: b))
        with (escape_unit d ++ flat_map escape_unit b) in H.
      destruct (escape_unit_cases d)
        as [[_ E]|[[_ E]|[[_ E]|[[_ E]|(_ & _ & _ & _ & E)]]]];
        rewrite E in H; discriminate H.
    + exfalso. unfold escapeHtml in H.
      change (flat_map escape_unit (c :: a))
        with (escape_unit c ++ flat_map escape_unit a) in H.
      destruct (escape_unit_cases c)
        as [[_ E]|[[_ E]|[[_ E]|[[_ E]|(_ & _ & _ & _ & E)]]]];
        rewrite E in H; discriminate H.
    + unfold escapeHtml in H.
      change (flat_map escape_unit (c :: a))
        with (escape_unit c ++ flat_map escape_unit a) in H.
      change (flat_map escape_unit (d :: b))
        with (escape_unit d ++ flat_map escape_unit b) in H.
      apply escape_unit_prefix in H as [-> H].
      f_equal. now apply IH.
Qed.

Lemma escapeHtml_safe_and_faithful_witness :
  escapeHtml (lit "a b") = lit "a b"
  /\ (escapeHtml (lit "<i>") = escapeHtml (lit "<i>") -> lit "<i>" = lit "<i>").
Proof.
  destruct escapeHtml_safe_and_faithful as (_ & _ & Hid & Hinj).
  split.
  - apply (Hid (lit "a b")). reflexivity.
  - apply (Hinj (lit "<i>") (lit "<i>")).
Defined.

End EscapeFacts.
